(** * Visual Content Analyzer: the API client and the application store

  A shallow embedding of the frontend's API service
  ([validateFile], [withRetry], [parseError], [analyzeImage],
  [analyzeImages], [isRetryableError]) and of the [App] component's
  state handlers ([handleImageProcessingComplete], [handleRemoveImage],
  [handleClearAll]), followed by the properties established about them.
  Further parts follow the same conventions: [checkHealth], [getAPIInfo]
  and [formatErrorMessage] of the service, [handleFilesSelected] of
  [App], the handlers of the ImageUpload component ([handleFileChange],
  [removeImage], [clearAll]) and the cards that ImageGallery renders.

  Conventions.
  - JavaScript numbers that hold integers are [Z]. The percentages that
    [analyzeImage] and [analyzeImages] compute are IEEE 754 binary64
    numbers ([Double]): each operation rounds its exact result to the
    nearest representable number, a division by zero gives [Infinity] or
    [NaN], and [Math.round x] is the floor of [x + 1/2].
  - The body of an error response is typed in [Api] (string fields, an
    array of messages); [ApiRaw] has [parseError] on any JSON body, where
    it can throw.
  - JavaScript strings are [string]; a character is one code unit in the
    range U+0000..U+00FF.
  - [async] code is modelled by the events of the event loop: a handler
    runs to completion between two events, which is where JavaScript may
    interleave.
  - Calls to collaborators that the code only notifies (the two callbacks
    of [analyzeImages], [URL.revokeObjectURL]) are recorded in a log kept
    in the state.
  - What the environment decides ([Date.now], [URL.createObjectURL], the
    generated ids, the order that [Array.prototype.sort] leaves, an
    average computed in floating point) is a parameter of the definition
    that reads it. *)

From Stdlib Require Import ZArith Lia String Ascii List Bool Sorted.
From Stdlib Require QArith Qround Qpower Qreduction Qcanon Lqa.
From Stdlib Require Floats.SpecFloat.
From stdpp Require Import gmap strings list fin_maps pretty.

Local Open Scope string_scope.
Local Open Scope list_scope.
Local Open Scope Z_scope.

(** ** JavaScript string helpers *)

Module Js.

(** [String.prototype.toLowerCase], on one code unit. *)
Definition lower_char (c : ascii) : ascii :=
  let n := N_of_ascii c in
  if ((65 <=? n) && (n <=? 90))%N then ascii_of_N (n + 32)
  else if ((192 <=? n) && (n <=? 222) && negb (n =? 215))%N
       then ascii_of_N (n + 32)
       else c.

Fixpoint toLowerCase (s : string) : string :=
  match s with
  | EmptyString => EmptyString
  | String c s' => String (lower_char c) (toLowerCase s')
  end.

(** White space and line terminators, as [trim] strips them. *)
Definition is_whitespace (c : ascii) : bool :=
  let n := N_of_ascii c in
  ((n =? 9) || (n =? 10) || (n =? 11) || (n =? 12) || (n =? 13)
   || (n =? 32) || (n =? 160))%N.

Fixpoint trimStart (s : string) : string :=
  match s with
  | EmptyString => EmptyString
  | String c s' => if is_whitespace c then trimStart s' else s
  end.

Definition trimEnd (s : string) : string :=
  String.rev (trimStart (String.rev s)).

Definition trim (s : string) : string := trimEnd (trimStart s).

(** Truthiness of a string-valued property that may be absent. *)
Definition truthy (o : option string) : bool :=
  match o with
  | Some s => negb (String.eqb s "")
  | None => false
  end.

(** [a || b] on such properties. *)
Definition or_else (a : option string) (b : string) : string :=
  match a with
  | Some s => if String.eqb s "" then b else s
  | None => b
  end.

(** [Array.prototype.includes] on an array of strings. *)
Definition includes (l : list string) (x : string) : bool :=
  existsb (String.eqb x) l.

End Js.

(** ** Numbers: the IEEE 754 binary64 arithmetic of the progress values *)

Module Double.
Import QArith_base Qround Qpower Qreduction.
Local Open Scope Q_scope.

(** A JavaScript number, as far as the progress arithmetic forms them.
    Its operands are counts, byte counts and the literal 100, so no
    number is negative: a value is a finite binary64 number that is not
    negative, given by the rational it denotes in lowest terms, or
    [Infinity], or [NaN]. *)
Inductive double :=
| Fin (q : Q)
| Infinity
| NaN.

Definition pow2 (e : Z) : Q := 2 ^ e.

(** The integer nearest to [q], the even one on a tie. *)
Definition rne (q : Q) : Z :=
  let f := Qfloor q in
  match Qcompare (q - inject_Z f) (1 # 2) with
  | Lt => f
  | Gt => (f + 1)%Z
  | Eq => if Z.even f then f else (f + 1)%Z
  end.

(** For [q > 0], the exponent [k] with [2 ^ k <= q < 2 ^ (k + 1)]. *)
Definition ilog2 (q : Q) : Z :=
  let k := (Z.log2 (Qnum q) - Z.log2 (Zpos (Qden q)))%Z in
  if Qle_bool (pow2 k) q then k else (k - 1)%Z.

(** The exponent of the last place of the binary64 numbers around [q]:
    53 bits of precision, and the subnormal spacing [2 ^ -1074] at the
    bottom of the range. *)
Definition expo (q : Q) : Z := Z.max (ilog2 q - 52) (-1074).

(** For [q > 0], the multiple of [2 ^ expo q] nearest to [q], ties to
    even. *)
Definition nearest (q : Q) : Q :=
  inject_Z (rne (q / pow2 (expo q))) * pow2 (expo q).

(** Rounding of the exact result [q >= 0] of an operation to binary64,
    round to nearest, ties to even; what reaches [2 ^ 1024] overflows. *)
Definition round64 (q : Q) : double :=
  let q := Qred q in
  if Qle_bool q 0 then Fin 0
  else
    let r := nearest q in
    if Qle_bool (pow2 1024) r then Infinity else Fin (Qred r).

(** The number that holds a count. *)
Definition of_Z (z : Z) : double := round64 (inject_Z z).
Definition of_N (n : N) : double := of_Z (Z.of_N n).
Definition of_nat (n : nat) : double := of_Z (Z.of_nat n).

(** The literal [100]. *)
Definition hundred : double := Fin 100.

Definition is_zero (q : Q) : bool := Qeq_bool q 0.

(** [x / y]. *)
Definition div (x y : double) : double :=
  match x, y with
  | NaN, _ | _, NaN => NaN
  | Infinity, Infinity => NaN
  | Infinity, Fin _ => Infinity
  | Fin _, Infinity => Fin 0
  | Fin a, Fin b =>
      if is_zero b then (if is_zero a then NaN else Infinity)
      else round64 (a / b)
  end.

(** [x * y]. *)
Definition mul (x y : double) : double :=
  match x, y with
  | NaN, _ | _, NaN => NaN
  | Infinity, Infinity => Infinity
  | Infinity, Fin b | Fin b, Infinity => if is_zero b then NaN else Infinity
  | Fin a, Fin b => round64 (a * b)
  end.

(** [x + y]. *)
Definition add (x y : double) : double :=
  match x, y with
  | NaN, _ | _, NaN => NaN
  | Infinity, _ | _, Infinity => Infinity
  | Fin a, Fin b => round64 (a + b)
  end.

(** [Math.round(x)]: the integer nearest to [x], the larger one on a
    tie. *)
Definition Math_round (x : double) : double :=
  match x with
  | Fin q => Fin (inject_Z (Qfloor (q + (1 # 2))))
  | Infinity => Infinity
  | NaN => NaN
  end.

(** *** Vocabulary of the properties *)

(** [x <= y], as JavaScript compares numbers: false when either is
    [NaN]. *)
Definition dle (x y : double) : Prop :=
  match x, y with
  | Fin a, Fin b => a <= b
  | Fin _, Infinity | Infinity, Infinity => True
  | _, _ => False
  end.

(** [x < y]. *)
Definition dlt (x y : double) : Prop :=
  match x, y with
  | Fin a, Fin b => a < b
  | Fin _, Infinity => True
  | _, _ => False
  end.

Definition nonnegative (x : double) : Prop :=
  match x with
  | Fin q => 0 <= q
  | _ => True
  end.

(** The same operations in the Standard Library's specification of
    IEEE 754 arithmetic, at precision 53 and maximal exponent 1024. *)
Definition of_spec_float (x : SpecFloat.spec_float) : double :=
  match x with
  | SpecFloat.S754_zero _ => Fin 0
  | SpecFloat.S754_infinity _ => Infinity
  | SpecFloat.S754_nan => NaN
  | SpecFloat.S754_finite _ m e => Fin (Qred (inject_Z (Zpos m) * pow2 e))
  end.

Definition spec_of_Z (z : Z) : SpecFloat.spec_float :=
  SpecFloat.binary_normalize 53 1024 z 0 false.

Definition same (x y : double) : bool :=
  match x, y with
  | Fin a, Fin b => Qeq_bool a b
  | Infinity, Infinity | NaN, NaN => true
  | _, _ => false
  end.

(** [(c / n) * 100] and [((c + p / 100) / n) * 100], here and there. *)
Definition ratio (c n : Z) : double := mul (div (of_Z c) (of_Z n)) hundred.

Definition spec_ratio (c n : Z) : SpecFloat.spec_float :=
  SpecFloat.SFmul 53 1024
    (SpecFloat.SFdiv 53 1024 (spec_of_Z c) (spec_of_Z n)) (spec_of_Z 100).

Definition partial_ratio (c p n : Z) : double :=
  mul (div (add (of_Z c) (div (of_Z p) hundred)) (of_Z n)) hundred.

Definition spec_partial_ratio (c p n : Z) : SpecFloat.spec_float :=
  SpecFloat.SFmul 53 1024
    (SpecFloat.SFdiv 53 1024
       (SpecFloat.SFadd 53 1024 (spec_of_Z c)
          (SpecFloat.SFdiv 53 1024 (spec_of_Z p) (spec_of_Z 100)))
       (spec_of_Z n))
    (spec_of_Z 100).

Definition upto (n : nat) : list Z := List.map Z.of_nat (seq 0 n).

End Double.

(** ** The API service *)

Module Api.

(** A [File], as far as the service reads it. *)
Record file := File { name : string; type : string; size : Z }.

(** *** validateFile *)

(** The entries of [errors]; each constructor is one message template
    with the values interpolated into it. *)
Inductive validation_error :=
| UnsupportedFileType (t : string)
| FileTooLarge (sz : Z)
| InvalidFileName.

Record validation := Validation { valid : bool; errors : list validation_error }.

Definition allowedTypes : list string :=
  ["image/jpeg"; "image/jpg"; "image/png"; "image/webp"].

Definition maxSize : Z := 10 * 1024 * 1024.

Definition validateFile (f : file) : validation :=
  let errors : list validation_error := [] in
  let errors :=
    if negb (Js.includes allowedTypes (Js.toLowerCase (type f)))
    then errors ++ [UnsupportedFileType (type f)] else errors in
  let errors :=
    if size f >? maxSize then errors ++ [FileTooLarge (size f)] else errors in
  let errors :=
    if String.eqb (name f) "" || String.eqb (Js.trim (name f)) ""
    then errors ++ [InvalidFileName] else errors in
  {| valid := (length errors =? 0)%nat; errors := errors |}.

(** *** Errors of a remote call *)

(** The body of an error response. *)
Record error_data := ErrorData {
  error : option string;
  detail : option string;
  error_code : option string;
  validation_errors : option (list string) (* the [message] of each entry *)
}.

Record response := Response { status : Z; data : option error_data }.

(** What a failed call throws: [response] is absent on a network error
    or a timeout. *)
Record request_error := RequestError { err_response : option response }.

Inductive api_details :=
| NoDetails
| DataDetails (d : error_data)
| ValidationDetails (l : list string).

Record APIError := MkAPIError {
  message : string;
  api_status : Z;
  code : string;
  details : api_details
}.

Definition parseError (e : request_error) : APIError :=
  match err_response e with
  | None =>
      MkAPIError "Network error. Please check your connection and try again."
                 0 "NETWORK_ERROR" NoDetails
  | Some (Response status data) =>
      if Js.truthy (data ≫= error) then
        match data with
        | Some d =>
            MkAPIError (Js.or_else (detail d) (default "" (error d)))
                       status (Js.or_else (error_code d) "API_ERROR")
                       (DataDetails d)
        | None => MkAPIError "" status "API_ERROR" NoDetails
        end
      else
        match data ≫= validation_errors with
        | Some errs =>
            MkAPIError ("Validation error: " ++ String.concat ", " errs)%string
                       status "VALIDATION_ERROR" (ValidationDetails errs)
        | None =>
            let errorMessage :=
              if status >=? 500 then "Server error. Please try again later."
              else Js.or_else (data ≫= detail)
                     ("Request failed with status " ++ pretty status)%string in
            MkAPIError errorMessage status "HTTP_ERROR" NoDetails
        end
  end.

(** [isRetryableError], on the [status] property of its argument
    ([None] when the object has none). *)
Definition isRetryableError (status : option Z) : bool :=
  match status with
  | None => true
  | Some s =>
      if s =? 0 then true
      else (s >=? 500) || (s =? 429)
  end.

(** *** withRetry *)

Definition API_CONFIG_maxRetries : nat := 3.
Definition API_CONFIG_retryDelay : Z := 1000.

(** What the wrapper does, in order: calls of [fn] (numbered from 0) and
    sleeps (in milliseconds). *)
Inductive action :=
| Attempt (k : nat)
| Sleep (ms : Z).

Inductive outcome (A : Type) :=
| Returned (v : A)
| Thrown (e : option request_error). (* [None]: [undefined] *)
Arguments Returned {A} v.
Arguments Thrown {A} e.

(** The test that stops the retries:
    [status >= 400 && status < 500 && status !== 429] on
    [error.response?.status]. *)
Definition is_client_error (e : request_error) : bool :=
  match err_response e with
  | None => false
  | Some r => (status r >=? 400) && (status r <? 500) && negb (status r =? 429)
  end.

Section WithRetry.
Context {A : Type}.
(** [fn k] is the result of the call of [fn] made by attempt [k]. *)
Variable fn : nat -> A + request_error.
Variable maxRetries : nat.
Variable baseDelay : Z.

(** The [for] loop, with [remaining] iterations left before
    [attempt <= maxRetries] fails. *)
Fixpoint retry_loop (remaining attempt : nat) (lastError : option request_error)
  : list action * outcome A :=
  match remaining with
  | O => ([], Thrown lastError)
  | S remaining' =>
      match fn attempt with
      | inl v => ([Attempt attempt], Returned v)
      | inr e =>
          if is_client_error e then ([Attempt attempt], Thrown (Some e))
          else if (attempt =? maxRetries)%nat then ([Attempt attempt], Thrown (Some e))
          else
            let delay := baseDelay * 2 ^ Z.of_nat attempt in
            let '(acts, out) := retry_loop remaining' (S attempt) (Some e) in
            (Attempt attempt :: Sleep delay :: acts, out)
      end
  end.

Definition withRetry : list action * outcome A :=
  retry_loop (S maxRetries) 0%nat None.
End WithRetry.

(** *** analyzeImage *)

(** The payload of a successful analysis; the service only passes its
    numbers along. *)
Definition number := QArith_base.Q.

Record analysis := Analysis {
  tags : list (string * number);
  processing_time : number;
  image_size : list Z;
  timestamp : string;
  model_info : string
}.

Inductive analyze_result :=
| AnalyzeOk (d : analysis)                                   (* success: true *)
| AnalyzeFailed (err : string) (c : string) (det : api_details). (* success: false *)

(** [post k] is the result of the [k]-th [apiClient.post('/analyze', ...)].
    The promise resolves with [Some r]; [None] is a rejection. On the
    error bodies of [error_data] only [parseError undefined] rejects; the
    bodies on which [parseError] throws are those of
    [ApiRaw.parseError]. *)
Definition analyzeImage (post : nat -> analysis + request_error)
  : list action * option analyze_result :=
  let '(acts, out) :=
    withRetry post API_CONFIG_maxRetries API_CONFIG_retryDelay in
  match out with
  | Returned d => (acts, Some (AnalyzeOk d))
  | Thrown (Some e) =>
      let apiError := parseError e in
      (acts, Some (AnalyzeFailed (message apiError) (code apiError) (details apiError)))
  | Thrown None => (acts, None)
  end.

(** *** Vocabulary of the properties *)

(** Two strings that differ at most in the case of their letters. *)
Definition same_ignoring_case (a b : string) : Prop :=
  Js.toLowerCase a = Js.toLowerCase b.

(** The three conditions under which a file is accepted. *)
Definition supported_type (f : file) : Prop :=
  ∃ t, In t ["image/jpeg"; "image/jpg"; "image/png"; "image/webp"] ∧
       same_ignoring_case (type f) t.
Definition within_size (f : file) : Prop := size f ≤ 10 * 1024 * 1024.
Definition named (f : file) : Prop := Js.trim (name f) ≠ "".

(** The failures that the error taxonomy calls retryable: no response,
    status 429, or a status of 500 and above. *)
Definition retryable_classified (e : request_error) : Prop :=
  match err_response e with
  | None => True
  | Some r => status r = 429 ∨ 500 ≤ status r
  end.

(** A status in [400, 500) other than 429. *)
Definition client_rejection (e : request_error) : Prop :=
  ∃ r, err_response e = Some r ∧ (400 <= status r < 500) ∧ status r ≠ 429.

(** The schedule of a call that exhausts its retries: attempt [k], then
    a sleep of [baseDelay * 2 ^ k], for every [k] below [maxRetries],
    and a last attempt. *)
Definition backoff_schedule (baseDelay : Z) (first count : nat) : list action :=
  flat_map (λ k, [Attempt k; Sleep (baseDelay * 2 ^ Z.of_nat k)]) (seq first count).

(** The attempts and the sleeps of a list of actions, in order. *)
Definition attempts (acts : list action) : list nat :=
  omap (λ a, match a with Attempt k => Some k | _ => None end) acts.

Definition sleeps (acts : list action) : list Z :=
  omap (λ a, match a with Sleep ms => Some ms | _ => None end) acts.

End Api.

(** ** The batch orchestrator: analyzeImages *)

Module Batch.
Import Api.

Definition CONCURRENT_LIMIT : nat := 3.

(** [l.slice(i, j)] for [0 <= i <= j]. *)
Definition slice {A : Type} (i j : nat) (l : list A) : list A :=
  take (j - i) (drop i l).

(** The loop [for (i = 0; i < files.length; i += CONCURRENT_LIMIT)] that
    fills [chunks]; [fuel] bounds the number of iterations. *)
Fixpoint chunk_loop {A : Type} (fuel i : nat) (files : list A) : list (list A) :=
  match fuel with
  | O => []
  | S fuel' =>
      if (i <? length files)%nat
      then slice i (i + CONCURRENT_LIMIT) files
             :: chunk_loop fuel' (i + CONCURRENT_LIMIT) files
      else []
  end.

Definition make_chunks {A : Type} (files : list A) : list (list A) :=
  chunk_loop (length files) 0 files.

(** An operation is a file together with its position in [files], which
    tells apart two operations on the same file. *)
Definition op : Type := nat * file.

Definition indexed (files : list file) : list op :=
  zip (seq 0 (length files)) files.

(** What is pushed on [results] and [errors] and handed to
    [onImageComplete]. *)
Inductive item_record :=
| ImageResult (f : file) (result : analysis)              (* success: true *)
| ImageError (f : file) (err : string) (c : option string). (* success: false *)

Definition record_file (r : item_record) : file :=
  match r with
  | ImageResult f _ => f
  | ImageError f _ _ => f
  end.

(** A callback either returns or throws. *)
Inductive cb_result := CbReturns | CbThrows.

Definition throws (r : cb_result) : bool :=
  match r with CbThrows => true | CbReturns => false end.

(** The two optional arguments of [analyzeImages]; [None] is [null]. *)
Record callbacks := Callbacks {
  onProgress : option (Double.double -> cb_result);
  onImageComplete : option (item_record -> cb_result)
}.

(** The log of callback invocations. A [CompleteCall] keeps the values of
    [completed], [results] and [errors] at the moment of the call. *)
Inductive progress_source :=
| FromUpload (i : nat)
| FromSettlement (i : nat).

Inductive call :=
| ProgressCall (src : progress_source) (v : Double.double)
| CompleteCall (i : nat) (r : item_record)
               (completed : nat) (results errors : list item_record).

Record summary := Summary { total : nat; successful : nat; failed : nat }.

(** Where the [async] function stands: awaiting [Promise.all] of the
    current chunk, returned from the [try] block, or returned from the
    outer [catch] after a rejection of [Promise.all]. *)
Inductive phase :=
| Running
| Resolved (success : bool) (s : summary)
| Aborted.

Record batch := MkBatch {
  completed : nat;
  results : list item_record;
  errors : list item_record;
  chunks : list (list op);  (* chunks the [for ... of] loop has not reached *)
  inflight : list op;       (* operations awaiting [analyzeImage] *)
  state : phase;
  calls : list call         (* oldest first *)
}.

Definition set_counts (b : batch) (c : nat) (rs es : list item_record) : batch :=
  MkBatch c rs es (chunks b) (inflight b) (state b) (calls b).

Definition log (b : batch) (c : call) : batch :=
  MkBatch (completed b) (results b) (errors b) (chunks b) (inflight b)
          (state b) (calls b ++ [c]).

Definition set_inflight (b : batch) (ops : list op) : batch :=
  MkBatch (completed b) (results b) (errors b) (chunks b) ops (state b) (calls b).

Definition set_state (b : batch) (p : phase) : batch :=
  MkBatch (completed b) (results b) (errors b) (chunks b) (inflight b) p (calls b).

Fixpoint lookup_op (i : nat) (ops : list op) : option file :=
  match ops with
  | [] => None
  | (j, f) :: ops' => if (j =? i)%nat then Some f else lookup_op i ops'
  end.

Definition remove_op (i : nat) (ops : list op) : list op :=
  filter (λ o, o.1 ≠ i) ops.

(** [Math.round((progressEvent.loaded * 100) / progressEvent.total)], the
    value that [onUploadProgress] in [analyzeImage] hands to its
    [onProgress]; [total] is [undefined] when the length of the upload
    cannot be computed, and the quotient is then [NaN]. *)
Definition percentCompleted (loaded : N) (total : option N) : Double.double :=
  Double.Math_round
    (Double.div (Double.mul (Double.of_N loaded) Double.hundred)
                (match total with
                 | Some t => Double.of_N t
                 | None => Double.NaN
                 end)).

(** [Math.round((completed / files.length) * 100)]. *)
Definition settled_percent (completed n : nat) : Double.double :=
  Double.Math_round
    (Double.mul (Double.div (Double.of_nat completed) (Double.of_nat n))
                Double.hundred).

(** [Math.round(((completed + (progress / 100)) / files.length) * 100)]. *)
Definition upload_percent (completed : nat) (progress : Double.double) (n : nat)
  : Double.double :=
  Double.Math_round
    (Double.mul
       (Double.div
          (Double.add (Double.of_nat completed)
                      (Double.div progress Double.hundred))
          (Double.of_nat n))
       Double.hundred).

Section Run.
Variable cbs : callbacks.
Variable files : list file.

(** The inner [catch] block; the boolean tells whether the promise of
    the operation is rejected, which happens when [onImageComplete]
    throws here. *)
Definition settle_catch (i : nat) (f : file) (b : batch) : batch * bool :=
  let completed := S (completed b) in
  let fileError := ImageError f "Unexpected error during processing" None in
  let errors := errors b ++ [fileError] in
  let b := set_counts b completed (results b) errors in
  match onImageComplete cbs with
  | None => (b, false)
  | Some cb =>
      (log b (CompleteCall i fileError completed (results b) errors),
       throws (cb fileError))
  end.

(** The inner [try] block, from the point where [analyzeImage] has
    resolved with [r]. *)
Definition settle_try (i : nat) (f : file) (r : analyze_result) (b : batch)
  : batch * bool :=
  let completed := S (completed b) in
  let '(record, results, errors) :=
    match r with
    | AnalyzeOk d =>
        let imageResult := ImageResult f d in
        (imageResult, results b ++ [imageResult], errors b)
    | AnalyzeFailed e c _ =>
        let error := ImageError f e (Some c) in
        (error, results b, errors b ++ [error])
    end in
  let b := set_counts b completed results errors in
  let '(b, thrown) :=
    match onImageComplete cbs with
    | None => (b, false)
    | Some cb =>
        (log b (CompleteCall i record completed results errors),
         throws (cb record))
    end in
  if thrown then settle_catch i f b
  else
    match onProgress cbs with
    | None => (b, false)
    | Some cb =>
        let overallProgress := settled_percent completed (length files) in
        let b := log b (ProgressCall (FromSettlement i) overallProgress) in
        if throws (cb overallProgress) then settle_catch i f b else (b, false)
    end.

(** What follows a settlement in the body of [analyzeImages]: a
    rejection makes [Promise.all] reject and the outer [catch] return;
    when the last promise of the chunk resolves, the loop starts every
    operation of the next chunk, or returns the summary. *)
Definition advance (b : batch) (rejected : bool) : batch :=
  match state b with
  | Running =>
      if rejected then set_state b Aborted
      else
        match inflight b with
        | _ :: _ => b
        | [] =>
            match chunks b with
            | chunk :: rest =>
                MkBatch (completed b) (results b) (errors b) rest chunk
                        Running (calls b)
            | [] =>
                set_state b
                  (Resolved (length (errors b) =? 0)%nat
                     {| total := length files;
                        successful := length (results b);
                        failed := length (errors b) |})
            end
        end
  | _ => b
  end.

(** The call itself, up to its first suspension. *)
Definition analyzeImages : batch :=
  advance (MkBatch 0 [] [] (make_chunks (indexed files)) [] Running []) false.

(** The events on which the call is resumed: the request of operation
    [i] reports the bytes sent so far; [analyzeImage] of operation [i]
    resolves; [analyzeImage] of operation [i] rejects, which happens when
    [parseError] throws in its [catch] block, on an error body whose
    [validation_errors] is not an array of objects. *)
Inductive event :=
| UploadProgress (i : nat) (loaded : N) (total : option N)
| Settled (i : nat) (r : analyze_result)
| Rejected (i : nat).

Definition step (b : batch) (e : event) : option batch :=
  match e with
  | UploadProgress i loaded total =>
      match lookup_op i (inflight b) with
      | None => None
      | Some _ =>
          let progress := percentCompleted loaded total in
          match onProgress cbs with
          | None => Some b
          | Some _ =>
              let overallProgress :=
                upload_percent (completed b) progress (length files) in
              Some (log b (ProgressCall (FromUpload i) overallProgress))
          end
      end
  | Settled i r =>
      match lookup_op i (inflight b) with
      | None => None
      | Some f =>
          let '(b', rejected) := settle_try i f r b in
          Some (advance (set_inflight b' (remove_op i (inflight b))) rejected)
      end
  | Rejected i =>
      match lookup_op i (inflight b) with
      | None => None
      | Some f =>
          let '(b', rejected) := settle_catch i f b in
          Some (advance (set_inflight b' (remove_op i (inflight b))) rejected)
      end
  end.

Fixpoint run (b : batch) (evs : list event) : option batch :=
  match evs with
  | [] => Some b
  | e :: evs' =>
      match step b e with
      | None => None
      | Some b' => run b' evs'
      end
  end.

(** The states a call of [analyzeImages] goes through. *)
Definition reachable (b : batch) : Prop :=
  ∃ evs, run analyzeImages evs = Some b.
End Run.

(** The values handed to [onProgress], and those among them that a
    settlement reports. *)
Definition progress_values (l : list call) : list Double.double :=
  omap (λ c, match c with ProgressCall _ v => Some v | _ => None end) l.

Definition settlement_values (l : list call) : list Double.double :=
  omap (λ c, match c with
             | ProgressCall (FromSettlement _) v => Some v
             | _ => None
             end) l.

(** The operations for which [onImageComplete] was invoked. *)
Definition completed_ops (l : list call) : list nat :=
  omap (λ c, match c with CompleteCall i _ _ _ _ => Some i | _ => None end) l.

Definition returns_normally (cbs : callbacks) : Prop :=
  (∀ cb v, onProgress cbs = Some cb → cb v = CbReturns) ∧
  (∀ cb r, onImageComplete cbs = Some cb → cb r = CbReturns).

(** *** Vocabulary of the properties *)

(** At most [CONCURRENT_LIMIT] operations in flight, and per queued chunk. *)
Definition within_limit (b : batch) : Prop :=
  (length (inflight b) ≤ CONCURRENT_LIMIT)%nat ∧
  Forall (λ c, (length c ≤ CONCURRENT_LIMIT)%nat) (chunks b).

(** [completed] is the size of [results] and [errors] together. *)
Definition counts_agree (b : batch) : Prop :=
  completed b = (length (results b) + length (errors b))%nat.

(** The operations that have not settled yet. *)
Definition pending_ops (b : batch) : list op := inflight b ++ concat (chunks b).

(** What [onImageComplete] is handed for an operation on [f] that
    resolved with [r]. *)
Definition settled_record (f : file) (r : analyze_result) : item_record :=
  match r with
  | AnalyzeOk d => ImageResult f d
  | AnalyzeFailed e c _ => ImageError f e (Some c)
  end.

(** When [onImageComplete] is invoked for a record, the counters already
    include it: [completed] is the size of the two collections together,
    and the record is the last entry of one of them. *)
Definition snapshot_ok (c : call) : Prop :=
  match c with
  | CompleteCall _ r n rs es =>
      n = (length rs + length es)%nat ∧ (last rs = Some r ∨ last es = Some r)
  | ProgressCall _ _ => True
  end.

Section Invariants.
Variable files : list file.

(** Once the call has returned its summary, nothing is in flight or
    queued, and the summary holds the lengths of the two collections. *)
Definition summary_agrees (b : batch) : Prop :=
  ∀ ok s, state b = Resolved ok s →
    inflight b = [] ∧ chunks b = [] ∧
    total s = length files ∧
    successful s = length (results b) ∧
    failed s = length (errors b).

(** The operations in flight are part of one chunk, and the chunks that
    follow it are the ones still queued. *)
Definition chunk_structure (b : batch) : Prop :=
  ∃ k, chunks b = drop (S k) (make_chunks (indexed files)) ∧
       inflight b `sublist_of` (make_chunks (indexed files) !!! k).

(** With callbacks that return, the operations reported to
    [onImageComplete] and the operations that have not settled make up
    the whole batch. *)
Definition every_op_accounted (b : batch) : Prop :=
  completed_ops (calls b) ++ (pending_ops b).*1 ≡ₚ seq 0 (length files).

(** The record reported for operation [i] is a record of the file at
    position [i] of [files]. *)
Definition reports_file (c : call) : Prop :=
  match c with
  | CompleteCall i r _ _ _ => files !! i = Some (record_file r)
  | ProgressCall _ _ => True
  end.

(** The values reported by settlements never exceed the one that the
    current value of [completed] would give. *)
Definition settlements_bounded (b : batch) : Prop :=
  Sorted Double.dle (settlement_values (calls b)) ∧
  Forall (λ v, Double.dle v (settled_percent (completed b) (length files)))
         (settlement_values (calls b)).

End Invariants.

(** [v] is [NaN], or at least [x]. *)
Definition not_below (x v : Double.double) : Prop :=
  v = Double.NaN ∨ Double.dle x v.

(** No value handed to [onProgress] is below a value that a settlement
    reported before it; the value of an upload report can be [NaN]. *)
Definition never_below_settled (l : list call) : Prop :=
  ∀ j src v, l !! j = Some (ProgressCall src v) →
    Forall (λ x, not_below x v) (settlement_values (take j l)).

(** The event is the settlement of operation [i]: its [analyzeImage]
    resolves or rejects. *)
Definition settles (e : event) (i : nat) : Prop :=
  match e with
  | Settled j _ | Rejected j => j = i
  | UploadProgress _ _ _ => False
  end.

(** The operations whose [analyzeImage] has settled, in the order of
    the events. *)
Definition settled_ops (evs : list event) : list nat :=
  omap (λ e, match e with
             | Settled i _ | Rejected i => Some i
             | UploadProgress _ _ _ => None
             end) evs.

(** C1 as stated: a settlement that leaves fewer than [CONCURRENT_LIMIT]
    operations in flight leaves no operation queued. *)
Definition admits_on_each_settlement (cbs : callbacks) (files : list file) : Prop :=
  ∀ b i r b',
    reachable cbs files b → step cbs files b (Settled i r) = Some b' →
    (length (inflight b') < CONCURRENT_LIMIT)%nat → chunks b' = [].

(** C2 as stated: the values handed to [onProgress] never decrease. *)
Definition progress_nondecreasing (cbs : callbacks) (files : list file) : Prop :=
  ∀ b, reachable cbs files b → Sorted Double.dle (progress_values (calls b)).

(** C9 as stated: when a call has returned its summary,
    [onImageComplete] has been invoked exactly once for every
    operation. *)
Definition completes_once_per_item (cbs : callbacks) (files : list file) : Prop :=
  ∀ b ok s, reachable cbs files b → state b = Resolved ok s →
    completed_ops (calls b) ≡ₚ seq 0 (length files).

(** Case analysis on the paths through the [try] and [catch] blocks. *)
Ltac settle_cases :=
  unfold settle_try, settle_catch;
  repeat (match goal with
          | |- context [match ?r with AnalyzeOk _ => _ | AnalyzeFailed _ _ _ => _ end] =>
              destruct r
          | |- context [match onImageComplete ?c with _ => _ end] =>
              destruct (onImageComplete c) eqn:?
          | |- context [match onProgress ?c with _ => _ end] =>
              destruct (onProgress c) eqn:?
          | |- context [if throws ?x then _ else _] => destruct (throws x) eqn:?
          end; cbn).

End Batch.

(** ** The application store: the state of [App] and its handlers *)

Module App.
Import Api Batch.

(** An entry of [loadingImages], as far as the handlers read it. *)
Record loading_entry := LoadingEntry {
  le_id : string;
  le_filename : string;
  le_previewUrl : option string; (* [None]: [createImagePreview] returned [null] *)
  le_file : file
}.

Record metadata := Metadata {
  md_processing_time : number;
  md_image_size : list Z;
  md_timestamp : string;
  md_model_info : string
}.

(** An entry of [images]. *)
Record image := Image {
  id : string;
  filename : string;
  previewUrl : option string;
  img_tags : list (string * number);
  img_metadata : option metadata
}.

(** The three pieces of state the handlers update, and the log of the
    calls of [URL.revokeObjectURL] (oldest first). *)
Record store := Store {
  images : list image;
  loadingImages : list loading_entry;
  errorImages : gmap string string;
  revoked : list string
}.

(** [URL.revokeObjectURL(url)] guarded by [if (url)]. *)
Definition revoke_if_set (url : option string) (log : list string) : list string :=
  match url with
  | Some u => if Js.truthy url then log ++ [u] else log
  | None => log
  end.

(** [setLoadingImages(prev => [...prev, ...loadingEntries])] in
    [handleFilesSelected]. *)
Definition addLoadingEntries (loadingEntries : list loading_entry) (st : store) : store :=
  Store (images st) (loadingImages st ++ loadingEntries) (errorImages st) (revoked st).

Definition find_entry (result : item_record) (loadingEntries : list loading_entry)
  : option loading_entry :=
  find (λ entry, String.eqb (name (le_file entry)) (name (record_file result)))
       loadingEntries.

(** [loadingEntries] is the array built by the call of
    [handleFilesSelected] that started the batch. *)
Definition handleImageProcessingComplete
    (result : item_record) (loadingEntries : list loading_entry) (st : store) : store :=
  match find_entry result loadingEntries with
  | None => st
  | Some loadingEntry =>
      let loading :=
        filter (λ img, le_id img ≠ le_id loadingEntry) (loadingImages st) in
      match result with
      | ImageResult f r =>
          let processedImage :=
            Image (le_id loadingEntry) (name f) (le_previewUrl loadingEntry)
                  (tags r)
                  (Some (Metadata (processing_time r) (image_size r)
                                  (timestamp r) (model_info r))) in
          Store (processedImage :: images st) loading
                (delete (le_id loadingEntry) (errorImages st)) (revoked st)
      | ImageError f err _ =>
          let errorImage :=
            Image (le_id loadingEntry) (name f) (le_previewUrl loadingEntry) [] None in
          Store (errorImage :: images st) loading
                (<[le_id loadingEntry := err]> (errorImages st)) (revoked st)
      end
  end.

Definition handleRemoveImage (imageId : string) (st : store) : store :=
  let image := find (λ img, String.eqb (id img) imageId) (images st) in
  let revoked := revoke_if_set (image ≫= previewUrl) (revoked st) in
  Store (filter (λ img, id img ≠ imageId) (images st))
        (filter (λ img, le_id img ≠ imageId) (loadingImages st))
        (delete imageId (errorImages st))
        revoked.

Definition handleClearAll (st : store) : store :=
  let revoked :=
    fold_left (λ log img, revoke_if_set (previewUrl img) log) (images st) (revoked st) in
  let revoked :=
    fold_left (λ log img, revoke_if_set (le_previewUrl img) log) (loadingImages st) revoked in
  Store [] [] ∅ revoked.

(** How often a preview URL has been revoked. *)
Definition revocations (url : string) (st : store) : nat :=
  length (filter (λ u, u = url) (revoked st)).

(** An item is Loading when it has an entry in [loadingImages] and none
    in [images]. *)
Definition is_loading (imageId : string) (st : store) : Prop :=
  (imageId ∈ le_id <$> loadingImages st) ∧ (imageId ∉ id <$> images st).

(** C3 as stated: a settlement for an item removed while Loading leaves
    the store as the removal left it. *)
Definition late_settlement_discarded
    (st : store) (result : item_record) (loadingEntries : list loading_entry) : Prop :=
  ∀ loadingEntry,
    find_entry result loadingEntries = Some loadingEntry →
    is_loading (le_id loadingEntry) st →
    handleImageProcessingComplete result loadingEntries
      (handleRemoveImage (le_id loadingEntry) st)
    = handleRemoveImage (le_id loadingEntry) st.

End App.

(** ** Scenarios *)

Module Scenario.
Import Api Batch App.

Definition png (n : string) : file := File n "image/png" 2048.

Definition five_files : list file :=
  [png "a.png"; png "b.png"; png "c.png"; png "d.png"; png "e.png"].

Definition two_files : list file := [png "a.png"; png "b.png"].

Definition one_file : list file := [png "a.png"].

Definition observers : callbacks :=
  Callbacks (Some (λ _, CbReturns)) (Some (λ _, CbReturns)).

(** [onImageComplete] returns and [onProgress] throws. *)
Definition progress_thrower : callbacks :=
  Callbacks (Some (λ _, CbThrows)) (Some (λ _, CbReturns)).

Definition tagged : analyze_result :=
  AnalyzeOk (Analysis [("cat", QArith_base.Qmake 19 20)] (QArith_base.Qmake 187 100)
                      [800; 600] "2024-01-01T00:00:00" "BLIP").

Definition rejected_422 : request_error :=
  RequestError (Some (Response 422 None)).

Definition unavailable_503 : request_error :=
  RequestError (Some (Response 503 None)).

(** The state of a call once the events have been handled (the initial
    state when they cannot all be). *)
Definition after (files : list file) (evs : list event) : batch :=
  default (analyzeImages files) (run observers files (analyzeImages files) evs).

(** Five files; the first one settles. *)
Definition first_settled : batch := after five_files [Settled 0 tagged].

(** Five files, settling out of order, with an upload report in between. *)
Definition out_of_order : list event :=
  [Settled 1 tagged; UploadProgress 0 40 (Some 100%N); Settled 0 tagged; Settled 2 tagged;
   Settled 4 tagged; Settled 3 tagged].

Definition all_settled : batch := after five_files out_of_order.

(** Two files uploading side by side: all of the first has been sent,
    and a tenth of the second. *)
Definition side_by_side : list event :=
  [UploadProgress 0 2048 (Some 2048%N); UploadProgress 1 205 (Some 2048%N)].

Definition two_uploads : batch := after two_files side_by_side.

Definition two_uploads_settled : batch :=
  after two_files (side_by_side ++ [Settled 0 tagged; Settled 1 tagged]).

(** One file, settled under an [onProgress] that throws. *)
Definition reported_twice : batch :=
  default (analyzeImages one_file)
          (run progress_thrower one_file (analyzeImages one_file) [Settled 0 tagged]).

(** A store with one item that is Loading. *)
Definition cat_entry : loading_entry :=
  LoadingEntry "img_1_k3x9" "cat.png" (Some "blob:cat") (png "cat.png").

Definition loading_cat : store := Store [] [cat_entry] ∅ [].

Definition cat_tagged : item_record :=
  ImageResult (png "cat.png")
    (Analysis [("cat", QArith_base.Qmake 19 20)] (QArith_base.Qmake 187 100)
              [800; 600] "2024-01-01T00:00:00" "BLIP").

Definition cat_failed : item_record :=
  ImageError (png "cat.png") "Server error. Please try again later." (Some "HTTP_ERROR").

End Scenario.

(** ** More of the API service *)

Module ApiMore.
Import Api.

(** What [checkHealth] resolves with. *)
Inductive health_result (A : Type) :=
| HealthOk (data : A)                                (* success: true *)
| HealthFailed (err : string) (det : api_details).   (* success: false *)
Arguments HealthOk {A} data.
Arguments HealthFailed {A} err det.

(** What [getAPIInfo] resolves with. *)
Inductive info_result (A : Type) :=
| InfoOk (data : A)          (* success: true *)
| InfoFailed (err : string). (* success: false *)
Arguments InfoOk {A} data.
Arguments InfoFailed {A} err.

(** [get k] is the result of the [k]-th [apiClient.get('/health')]; [None]
    is a rejection of the promise. *)
Definition checkHealth {A : Type} (get : nat -> A + request_error)
  : list action * option (health_result A) :=
  let '(acts, out) :=
    withRetry get API_CONFIG_maxRetries API_CONFIG_retryDelay in
  match out with
  | Returned d => (acts, Some (HealthOk d))
  | Thrown (Some e) =>
      let apiError := parseError e in
      (acts, Some (HealthFailed (message apiError) (details apiError)))
  | Thrown None => (acts, None)
  end.

(** [get k] is the result of the [k]-th [apiClient.get('/')]. *)
Definition getAPIInfo {A : Type} (get : nat -> A + request_error)
  : list action * option (info_result A) :=
  let '(acts, out) :=
    withRetry get API_CONFIG_maxRetries API_CONFIG_retryDelay in
  match out with
  | Returned d => (acts, Some (InfoOk d))
  | Thrown (Some e) =>
      let apiError := parseError e in
      (acts, Some (InfoFailed (message apiError)))
  | Thrown None => (acts, None)
  end.

(** The values [formatErrorMessage] tells apart: a string, an [APIError],
    another object with or without a [message], and anything else. *)
Inductive error_value :=
| ErrorString (s : string)
| ErrorAPIError (e : APIError)
| ErrorObject (msg : option string)
| ErrorOther.

Definition formatErrorMessage (error : error_value) : string :=
  match error with
  | ErrorString s => s
  | ErrorAPIError e => message e
  | ErrorObject msg =>
      if Js.truthy msg then default "" msg
      else "An unexpected error occurred. Please try again."
  | ErrorOther => "An unexpected error occurred. Please try again."
  end.

(** *** Vocabulary of the properties *)

(** The time spent sleeping, in milliseconds. *)
Definition total_sleep (acts : list action) : Z := foldr Z.add 0 (sleeps acts).

(** Attempts [0] to [k - 1] all fail, and none with a status in
    [400, 500) other than 429. *)
Definition retried_until {A : Type} (fn : nat -> A + request_error) (k : nat) : Prop :=
  ∀ j, (j < k)%nat → ∃ e, fn j = inr e ∧ is_client_error e = false.

End ApiMore.

(** ** parseError on any response body *)

Module ApiRaw.
Import Api.

(** A value of a response body, as [JSON.parse] builds it. A number is
    given by what the code can observe of it: whether it is truthy, and
    the text that its conversion to a string gives. *)
#[local] Unset Elimination Schemes.
Inductive json :=
| JNull
| JBool (b : bool)
| JNumber (nonzero : bool) (shown : string)
| JString (s : string)
| JArray (items : list json)
| JObject (fields : list (string * json)).
#[local] Set Elimination Schemes.

(** The value of the last field named [k], as [JSON.parse] keeps it. *)
Fixpoint lookup_field (k : string) (fields : list (string * json)) : option json :=
  match fields with
  | [] => None
  | (k', v) :: fields' =>
      match lookup_field k fields' with
      | Some w => Some w
      | None => if String.eqb k' k then Some v else None
      end
  end.

(** [v.k] and [v?.k], for a key [k] that no prototype defines; [None] is
    [undefined]. *)
Definition get (k : string) (v : json) : option json :=
  match v with
  | JObject fields => lookup_field k fields
  | _ => None
  end.

Definition truthy (v : option json) : bool :=
  match v with
  | None | Some JNull => false
  | Some (JBool b) => b
  | Some (JNumber nonzero _) => nonzero
  | Some (JString s) => negb (String.eqb s "")
  | Some (JArray _) | Some (JObject _) => true
  end.

(** The conversion of a value to a string, as the constructor of [Error]
    and [Array.prototype.join] apply it; [None] when it throws, which it
    does on an object that has a field [toString]. An array is joined
    with commas, [null] entries giving the empty text. *)
Fixpoint to_string (v : json) : option string :=
  match v with
  | JNull => Some "null"
  | JBool b => Some (if b then "true" else "false")
  | JNumber _ shown => Some shown
  | JString s => Some s
  | JArray items =>
      let fix texts (l : list json) : option (list string) :=
        match l with
        | [] => Some []
        | x :: l' =>
            match (match x with JNull => Some "" | _ => to_string x end),
                  texts l' with
            | Some s, Some ss => Some (s :: ss)
            | _, _ => None
            end
        end in
      match texts items with
      | Some ss => Some (String.concat "," ss)
      | None => None
      end
  | JObject fields =>
      match lookup_field "toString" fields with
      | Some _ => None
      | None => Some "[object Object]"
      end
  end.

(** [err.message] for an entry [err] of [validation_errors]; reading a
    property of [null] throws. *)
Definition entry_message (err : json) : option (option json) :=
  match err with
  | JNull => None
  | _ => Some (get "message" err)
  end.

(** The text of an element in [Array.prototype.join]. *)
Definition joined_text (m : option json) : option string :=
  match m with
  | None | Some JNull => Some ""
  | Some v => to_string v
  end.

(** [l.map(f)] for an [f] that may throw. *)
Fixpoint map_throwing {A B : Type} (f : A -> option B) (l : list A) : option (list B) :=
  match l with
  | [] => Some []
  | x :: l' =>
      match f x, map_throwing f l' with
      | Some y, Some ys => Some (y :: ys)
      | _, _ => None
      end
  end.

Record response := Response { status : Z; data : json }.

(** What a failed call throws; [response] is absent on a network error
    or a timeout. *)
Record request_error := RequestError { err_response : option response }.

Inductive details_value :=
| NoDetails            (* [null], the default *)
| Details (v : json).

Record APIError := MkAPIError {
  message : string;
  api_status : Z;
  code : json;
  details : details_value
}.

(** [a || b]. *)
Definition or_else (a : option json) (b : option json) : option json :=
  if truthy a then a else b.

(** [parseError]; [None] when it throws. *)
Definition parseError (e : request_error) : option APIError :=
  match err_response e with
  | None =>
      Some (MkAPIError "Network error. Please check your connection and try again."
                       0 (JString "NETWORK_ERROR") NoDetails)
  | Some (Response status data) =>
      if truthy (get "error" data) then
        match or_else (get "detail" data) (get "error" data) ≫= to_string with
        | Some msg =>
            Some (MkAPIError msg status
                    (default JNull
                       (or_else (get "error_code" data) (Some (JString "API_ERROR"))))
                    (Details data))
        | None => None
        end
      else if truthy (get "validation_errors" data) then
        match get "validation_errors" data with
        | Some (JArray errs) =>
            match map_throwing entry_message errs ≫= map_throwing joined_text with
            | Some texts =>
                Some (MkAPIError
                        ("Validation error: " ++ String.concat ", " texts)%string
                        status (JString "VALIDATION_ERROR") (Details (JArray errs)))
            | None => None
            end
        | _ => None (* [map] is not a function *)
        end
      else
        let errorMessage :=
          if status >=? 500 then Some (JString "Server error. Please try again later.")
          else or_else (get "detail" data)
                 (Some (JString ("Request failed with status " ++ pretty status)%string)) in
        match errorMessage ≫= to_string with
        | Some msg => Some (MkAPIError msg status (JString "HTTP_ERROR") NoDetails)
        | None => None
        end
  end.

(** *** The bodies of the shape that [Api.error_data] describes *)

Definition field (k : string) (v : option string) : list (string * json) :=
  match v with
  | Some s => [(k, JString s)]
  | None => []
  end.

Definition entries (messages : list string) : json :=
  JArray ((λ m, JObject [("message", JString m)]) <$> messages).

Definition of_error_data (d : Api.error_data) : json :=
  JObject (field "error" (Api.error d) ++ field "detail" (Api.detail d)
           ++ field "error_code" (Api.error_code d)
           ++ match Api.validation_errors d with
              | Some l => [("validation_errors", entries l)]
              | None => []
              end).

Definition of_request_error (e : Api.request_error) : request_error :=
  RequestError
    (match Api.err_response e with
     | Some (Api.Response status data) =>
         Some (Response status (match data with
                                | Some d => of_error_data d
                                | None => JNull
                                end))
     | None => None
     end).

Definition of_APIError (a : Api.APIError) : APIError :=
  MkAPIError (Api.message a) (Api.api_status a) (JString (Api.code a))
    (match Api.details a with
     | Api.NoDetails => NoDetails
     | Api.DataDetails d => Details (of_error_data d)
     | Api.ValidationDetails l => Details (entries l)
     end).

End ApiRaw.

(** ** More scenarios *)

Module ScenarioMore.
Import Api ApiMore Batch App Scenario.

Definition cat_analysis : analysis :=
  Analysis [("cat", QArith_base.Qmake 19 20)] (QArith_base.Qmake 187 100)
           [800; 600] "2024-01-01T00:00:00" "BLIP".

(** A backend that is unavailable three times and then answers. *)
Definition flaky (k : nat) : analysis + request_error :=
  if (k <? 3)%nat then inr unavailable_503 else inl cat_analysis.

End ScenarioMore.

(** ** More vocabulary for analyzeImages *)

Module BatchMore.
Import Api Batch.

Definition is_settlement (e : event) : bool :=
  match e with
  | Settled _ _ | Rejected _ => true
  | UploadProgress _ _ _ => false
  end.

(** The number of operations that settle in a sequence of events. *)
Definition settlements (evs : list event) : nat :=
  length (List.filter is_settlement evs).

(** No queued chunk is empty, and while the call awaits [Promise.all]
    an operation is in flight. *)
Definition live (b : batch) : Prop :=
  Forall (λ c, c ≠ []) (chunks b) ∧ (state b = Running → inflight b ≠ []).

(** [onImageComplete], when given, returns on the record that the inner
    [catch] block hands to it. *)
Definition catch_report_returns (cbs : callbacks) : Prop :=
  ∀ cb f, onImageComplete cbs = Some cb →
    cb (ImageError f "Unexpected error during processing" None) = CbReturns.

Definition is_success (r : item_record) : bool :=
  match r with ImageResult _ _ => true | ImageError _ _ _ => false end.

(** The files of the records, in the order of the collection. *)
Definition recorded_files (rs : list item_record) : list file := record_file <$> rs.

(** The verdict of a summary: [success] tells whether [errors] is empty. *)
Definition verdict_agrees (b : batch) : Prop :=
  ∀ ok s, state b = Resolved ok s → ok = (length (errors b) =? 0)%nat.

End BatchMore.

(** ** Callbacks that throw *)

Module ScenarioThrow.
Import Api Batch BatchMore Scenario ScenarioMore.

(** Only [onProgress] is given, and it throws. *)
Definition progress_throws : callbacks := Callbacks (Some (λ _, CbThrows)) None.

(** Only [onImageComplete] is given, and it throws. *)
Definition complete_throws : callbacks := Callbacks None (Some (λ _, CbThrows)).

(** [onImageComplete] throws on a success and returns on a failure. *)
Definition success_throws : callbacks :=
  Callbacks None (Some (λ r, if is_success r then CbThrows else CbReturns)).

Definition after_with (cbs : callbacks) (files : list file) (evs : list event) : batch :=
  default (analyzeImages files) (run cbs files (analyzeImages files) evs).

End ScenarioThrow.

(** ** More of the application: a batch seen from the store *)

Module AppMore.
Import Api Batch App.

Section FilesSelected.
(** [generateImageId k] is the id generated for the [k]-th valid file, and
    [createImagePreview k f] what [createImagePreview] returns for it. *)
Variable generateImageId : nat -> string.
Variable createImagePreview : nat -> file -> option string.

Definition validFiles (files : list file) : list file :=
  filter (λ f, valid (validateFile f) = true) files.

Definition loadingEntries (files : list file) : list loading_entry :=
  imap (λ k f, LoadingEntry (generateImageId k) (name f) (createImagePreview k f) f)
       (validFiles files).

(** [handleFilesSelected] up to the call of [analyzeImages]: the store at
    that point, or [None] when the handler returns before it, which it
    does when no file is valid. *)
Definition handleFilesSelected_begin (files : list file) (st : store) : option store :=
  match validFiles files with
  | [] => None
  | _ :: _ => Some (addLoadingEntries (loadingEntries files) st)
  end.

End FilesSelected.

(** The two callbacks that [handleFilesSelected] hands to [analyzeImages],
    on the store: the first one only logs, the second one is
    [handleImageProcessingComplete]. *)
Definition report (loadingEntries : list loading_entry) (c : call) (st : store) : store :=
  match c with
  | ProgressCall _ _ => st
  | CompleteCall _ r _ _ _ => handleImageProcessingComplete r loadingEntries st
  end.

(** The store after the callback invocations of a batch. *)
Definition replay (loadingEntries : list loading_entry) (l : list call) (st : store) : store :=
  fold_left (λ st c, report loadingEntries c st) l st.

(** *** Vocabulary of the properties *)

(** The ids of the entries that the reported records select. *)
Definition matched_ids (loadingEntries : list loading_entry) (l : list call) : list string :=
  omap (λ c, match c with
             | CompleteCall _ r _ _ _ => le_id <$> find_entry r loadingEntries
             | ProgressCall _ _ => None
             end) l.

(** The same for another field of the selected entries. *)
Definition matched {B : Type} (g : loading_entry -> B)
    (loadingEntries : list loading_entry) (l : list call) : list B :=
  omap (λ c, match c with
             | CompleteCall _ r _ _ _ => g <$> find_entry r loadingEntries
             | ProgressCall _ _ => None
             end) l.

(** The URLs that [if (url) URL.revokeObjectURL(url)] revokes. *)
Definition truthy_urls (urls : list (option string)) : list string :=
  omap (λ u, if Js.truthy u then u else None) urls.

Definition entry_names (loadingEntries : list loading_entry) : list string :=
  (λ e, name (le_file e)) <$> loadingEntries.

End AppMore.

(** ** Scenarios of the store *)

Module ScenarioStore.
Import Api Batch App AppMore Scenario ScenarioMore.

Definition empty_store : store := Store [] [] ∅ [].

Definition two_entries : list loading_entry :=
  [LoadingEntry "img_1_a" "a.png" (Some "blob:a") (png "a.png");
   LoadingEntry "img_2_b" "b.png" (Some "blob:b") (png "b.png")].

(** Two files with the same name in one batch. *)
Definition twin_entries : list loading_entry :=
  [LoadingEntry "img_1_a" "a.png" (Some "blob:1") (png "a.png");
   LoadingEntry "img_2_a" "a.png" (Some "blob:2") (png "a.png")].

Definition twins_settled : batch :=
  after (le_file <$> twin_entries) [Settled 0 tagged; Settled 1 tagged].

(** A selection with one file that [validateFile] rejects. *)
Definition mixed_selection : list file :=
  [png "a.png"; File "notes.txt" "text/plain" 12; png "b.png"].

Definition numbered_id (k : nat) : string := ("img_" ++ pretty k)%string.

Definition numbered_preview (k : nat) (f : file) : option string :=
  Some ("blob:" ++ pretty k)%string.

End ScenarioStore.

(** ** The ImageUpload component *)

Module Upload.
Import Api.

(** [String.prototype.toUpperCase], on one code unit: the sharp s becomes
    two letters. The upper-case forms of U+00B5 and U+00FF lie outside the
    code units of these strings; the two are left as they are, which
    makes no difference to a comparison with a string of ASCII letters. *)
Definition upper_char (c : ascii) : string :=
  let n := N_of_ascii c in
  if ((97 <=? n) && (n <=? 122))%N then String (ascii_of_N (n - 32)) ""
  else if ((224 <=? n) && (n <=? 254) && negb (n =? 247))%N
       then String (ascii_of_N (n - 32)) ""
       else if (n =? 223)%N then "SS"
            else String c "".

Fixpoint toUpperCase (s : string) : string :=
  match s with
  | EmptyString => EmptyString
  | String c s' => (upper_char c ++ toUpperCase s')%string
  end.

(** [s.split(sep).pop()] for a separator of one code unit; [current] is
    the segment being read. *)
Fixpoint pop_split (sep : ascii) (s current : string) : string :=
  match s with
  | EmptyString => current
  | String c s' =>
      if Ascii.eqb c sep then pop_split sep s' ""
      else pop_split sep s' (current ++ String c "")%string
  end.

Definition last_segment (sep : ascii) (s : string) : string := pop_split sep s "".

Definition fileTypes : list string := ["JPG"; "JPEG"; "PNG"; "WEBP"].

Definition maxFileSize : Z := 10.

(** An entry of [previewImages]. *)
Record preview := Preview {
  pv_id : string;
  pv_file : file;
  pv_previewUrl : string;
  pv_name : string;
  pv_size : Z
}.

(** The entries of [errors]; each constructor is one message template. *)
Inductive upload_error :=
| TooManyFiles (maxFiles selected : nat)
| TooLarge (n : string)
| UnsupportedType (n : string)
| TypeErrorReport      (* [handleTypeError] *)
| SizeErrorReport.     (* [handleSizeError] *)

(** The state of the component, with the logs of [URL.createObjectURL],
    of [URL.revokeObjectURL] and of the calls of [onFilesSelected]
    (oldest first). *)
Record upload := MkUpload {
  previewImages : list preview;
  errors : list upload_error;
  created : list string;
  revoked : list string;
  selected : list (list file)
}.

Definition initial : upload := MkUpload [] [] [] [] [].

(** What the body of the [forEach] does with one file. *)
Inductive checked :=
| Rejected (e : upload_error)
| Accepted (p : preview).

(** What is pushed on [previews], and what on [newErrors]. *)
Definition kept (c : checked) : option preview :=
  match c with Accepted p => Some p | Rejected _ => None end.

Definition refused (c : checked) : option upload_error :=
  match c with Rejected e => Some e | Accepted _ => None end.

Section FileChange.
(** [now index] is the value of [Date.now()] and [createObjectURL index]
    the URL created while the file at [index] is handled. *)
Variable now : nat -> Z.
Variable createObjectURL : nat -> string.

Definition check_file (index : nat) (f : file) : checked :=
  if size f >? maxFileSize * 1024 * 1024 then Rejected (TooLarge (name f))
  else
    let fileExtension := toUpperCase (last_segment "." (name f)) in
    if negb (Js.includes fileTypes fileExtension)
    then Rejected (UnsupportedType (name f))
    else
      Accepted (Preview (name f ++ "-" ++ pretty (now index) ++ "-" ++ pretty index)%string
                        f (createObjectURL index) (name f) (size f)).

(** [fileArray.forEach((file, index) => ...)], from [index] on. *)
Fixpoint forEach_check (index : nat) (files : list file) : list checked :=
  match files with
  | [] => []
  | f :: files' => check_file index f :: forEach_check (S index) files'
  end.

Definition handleFileChange (maxFiles : nat) (files : list file) (st : upload) : upload :=
  if (maxFiles <? length files)%nat then
    MkUpload (previewImages st) [TooManyFiles maxFiles (length files)]
             (created st) (revoked st) (selected st)
  else
    let checks := forEach_check 0 files in
    let newErrors := omap refused checks in
    let previews := omap kept checks in
    let validFiles := pv_file <$> previews in
    MkUpload previews newErrors
             (created st ++ (pv_previewUrl <$> previews))
             (revoked st ++ (pv_previewUrl <$> previewImages st))
             (match validFiles with
              | [] => selected st
              | _ :: _ => selected st ++ [validFiles]
              end).
End FileChange.

Definition handleTypeError (st : upload) : upload :=
  MkUpload (previewImages st) [TypeErrorReport] (created st) (revoked st) (selected st).

Definition handleSizeError (st : upload) : upload :=
  MkUpload (previewImages st) [SizeErrorReport] (created st) (revoked st) (selected st).

Definition removeImage (imageId : string) (st : upload) : upload :=
  let updated := filter (λ img, pv_id img ≠ imageId) (previewImages st) in
  let removedImage := find (λ img, String.eqb (pv_id img) imageId) (previewImages st) in
  let revoked :=
    match removedImage with
    | Some img => revoked st ++ [pv_previewUrl img]
    | None => revoked st
    end in
  MkUpload updated [] (created st) revoked (selected st).

Definition clearAll (st : upload) : upload :=
  MkUpload [] [] (created st)
           (revoked st ++ (pv_previewUrl <$> previewImages st)) (selected st).

(** What happens to the component. *)
Inductive event :=
| FileChange (now : nat -> Z) (createObjectURL : nat -> string) (files : list file)
| TypeError
| SizeError
| RemoveImage (imageId : string)
| ClearAll.

Definition step (maxFiles : nat) (st : upload) (e : event) : upload :=
  match e with
  | FileChange now createObjectURL files =>
      handleFileChange now createObjectURL maxFiles files st
  | TypeError => handleTypeError st
  | SizeError => handleSizeError st
  | RemoveImage imageId => removeImage imageId st
  | ClearAll => clearAll st
  end.

Definition run (maxFiles : nat) (evs : list event) : upload :=
  fold_left (step maxFiles) evs initial.

(** *** Vocabulary of the properties *)

(** The files for which a preview is made. *)
Definition accepts (f : file) : Prop :=
  size f ≤ 10 * 1024 * 1024 ∧
  toUpperCase (last_segment "." (name f)) ∈ fileTypes.

Global Instance accepts_dec (f : file) : Decision (accepts f).
Proof. unfold accepts. apply _. Defined.

(** A string with a code unit that [trim] keeps. *)
Fixpoint visible (s : string) : bool :=
  match s with
  | EmptyString => false
  | String c s' => negb (Js.is_whitespace c) || visible s'
  end.

Fixpoint occurs (c : ascii) (s : string) : bool :=
  match s with
  | EmptyString => false
  | String c' s' => Ascii.eqb c' c || occurs c s'
  end.

(** Every preview URL that was created is held by one preview or has
    been revoked once. *)
Definition urls_balanced (st : upload) : Prop :=
  created st ≡ₚ revoked st ++ (pv_previewUrl <$> previewImages st).

(** The invariant of the component. *)
Definition upload_ok (st : upload) : Prop :=
  NoDup (pv_id <$> previewImages st) ∧ urls_balanced st.

End Upload.

(** ** The ImageGallery component: the cards it renders *)

Module Gallery.
Import Api Batch App.

Inductive confidence_filter :=
| AllConfidence | HighConfidence | MediumConfidence | LowConfidence.

Inductive sort_key := Recent | Confidence | Filename.

(** An [ImageCard] of the grid: its key and its props. *)
Record card := Card {
  card_key : string;
  card_image : loading_entry + image;
  card_isLoading : bool;
  card_error : option string
}.

Section Render.
(** [avgConfidence tags] is the average that [reduce] and the division
    compute in floating point, and [sort sortBy l] the array that
    [Array.prototype.sort] leaves for the comparator of [sortBy]; the
    comparators read dates and compare names by locale. *)
Variable avgConfidence : list (string * number) -> number.
Variable sort : sort_key -> list image -> list image.

(** The callback of the confidence filter, for a filter other than
    'all'; 0.8 and 0.6 are the thresholds of the source. *)
Definition passes (filterConfidence : confidence_filter) (image : image) : bool :=
  match img_tags image with
  | [] => false
  | _ :: _ =>
      let avg := avgConfidence (img_tags image) in
      match filterConfidence with
      | HighConfidence => QArith_base.Qle_bool (QArith_base.Qmake 8 10) avg
      | MediumConfidence =>
          QArith_base.Qle_bool (QArith_base.Qmake 6 10) avg
          && negb (QArith_base.Qle_bool (QArith_base.Qmake 8 10) avg)
      | LowConfidence => negb (QArith_base.Qle_bool (QArith_base.Qmake 6 10) avg)
      | AllConfidence => true
      end
  end.

Definition getFilteredAndSortedImages
    (filterConfidence : confidence_filter) (sortBy : sort_key) (images : list image)
  : list image :=
  let filtered :=
    match filterConfidence with
    | AllConfidence => images
    | _ => filter (λ image, passes filterConfidence image = true) images
    end in
  sort sortBy filtered.

(** The three groups of cards of the grid. *)
Definition loading_cards (st : store) : list card :=
  imap (λ index image, Card ("loading-" ++ pretty index) (inl image) true None)
       (loadingImages st).

Definition completed_cards
    (filterConfidence : confidence_filter) (sortBy : sort_key) (st : store) : list card :=
  imap (λ index image,
          Card (Js.or_else (Some (id image)) ("image-" ++ pretty index))
               (inr image) false (errorImages st !! id image))
       (getFilteredAndSortedImages filterConfidence sortBy (images st)).

Definition error_cards (st : store) : list card :=
  omap (λ entry,
          let '(imageId, error) := entry in
          match find (λ img, String.eqb (id img) imageId) (images st) with
          | None => None
          | Some image => Some (Card ("error-" ++ imageId) (inr image) false (Some error))
          end)
       (map_to_list (errorImages st)).

(** The cards of the grid; [None] when the component renders the text
    'No images to display' instead. The entries of [errorImages] are
    taken in the order of [map_to_list]. *)
Definition render (filterConfidence : confidence_filter) (sortBy : sort_key) (st : store)
  : option (list card) :=
  let totalImages := (length (images st) + length (loadingImages st))%nat in
  if (0 <? totalImages)%nat
  then Some (loading_cards st ++ completed_cards filterConfidence sortBy st
             ++ error_cards st)
  else None.

End Render.

End Gallery.

(** ** The order of the reports *)

Module BatchOrder.
Import Api Batch.

(** The records handed to [onImageComplete], oldest first. *)
Definition reported_records (l : list call) : list item_record :=
  omap (λ c, match c with CompleteCall _ r _ _ _ => Some r | ProgressCall _ _ => None end) l.

End BatchOrder.

(** * Properties *)

(** ** The arithmetic of the progress values *)

Section DoubleArith.
Import QArith_base Qround Qpower Qreduction Lqa.
Import Double.
Local Open Scope Q_scope.

Lemma pow2_pos (e : Z) : 0 < pow2 e.
Proof. apply Qpower_0_lt. reflexivity. Qed.

Lemma pow2_add (a b : Z) : pow2 (a + b) == pow2 a * pow2 b.
Proof. apply Qpower_plus. discriminate. Qed.

Lemma pow2_le (a b : Z) : (a <= b)%Z -> pow2 a <= pow2 b.
Proof. intros H. apply Qpower_le_compat_l; [exact H | discriminate]. Qed.

Lemma pow2_lt_inv (a b : Z) : pow2 a < pow2 b -> (a < b)%Z.
Proof. intros H. apply (Qpower_lt_compat_l_inv 2); [exact H | reflexivity]. Qed.

Lemma pow2_nonneg_Z (k : Z) : (0 <= k)%Z -> pow2 k == inject_Z (2 ^ k).
Proof. intros H. unfold pow2. by rewrite Zpower_Qpower. Qed.

Lemma rne_cases (q : Q) :
  (rne q = Qfloor q /\ q - inject_Z (Qfloor q) <= 1 # 2) \/
  (rne q = (Qfloor q + 1)%Z /\ 1 # 2 <= q - inject_Z (Qfloor q)).
Proof.
  unfold rne. destruct (Qcompare_spec (q - inject_Z (Qfloor q)) (1 # 2)) as [H | H | H].
  - destruct (Z.even (Qfloor q)); [left | right]; split; try reflexivity; rewrite H; apply Qle_refl.
  - left. split; [reflexivity | by apply Qlt_le_weak].
  - right. split; [reflexivity | by apply Qlt_le_weak].
Qed.

Lemma rne_bounds (q : Q) :
  inject_Z (rne q) - (1 # 2) <= q /\ q <= inject_Z (rne q) + (1 # 2).
Proof.
  pose proof (Qfloor_le q) as Hlo. pose proof (Qlt_floor q) as Hhi.
  rewrite inject_Z_plus in Hhi. change (inject_Z 1) with 1 in Hhi.
  destruct (rne_cases q) as [[-> H] | [-> H]].
  - split; lra.
  - rewrite inject_Z_plus. change (inject_Z 1) with 1. split; lra.
Qed.

Lemma rne_proper (q q' : Q) : q == q' -> rne q = rne q'.
Proof.
  intros H. unfold rne. rewrite (Qfloor_comp _ _ H).
  assert (q - inject_Z (Qfloor q') == q' - inject_Z (Qfloor q')) as -> by (by rewrite H).
  reflexivity.
Qed.

Lemma inject_Z_lt_inv (a b : Z) : inject_Z a < inject_Z b -> (a < b)%Z.
Proof. by rewrite <- Zlt_Qlt. Qed.

Lemma rne_ge_int (k : Z) (q : Q) : inject_Z k <= q -> (k <= rne q)%Z.
Proof.
  intros H. destruct (rne_bounds q) as [_ Hhi].
  assert (inject_Z (k - 1) < inject_Z (rne q)) as Hlt.
  { replace (k - 1)%Z with (k + -1)%Z by lia.
    rewrite inject_Z_plus. change (inject_Z (-1)) with (-1 # 1). lra. }
  apply inject_Z_lt_inv in Hlt. lia.
Qed.

Lemma rne_le_int (k : Z) (q : Q) : q <= inject_Z k -> (rne q <= k)%Z.
Proof.
  intros H. destruct (rne_bounds q) as [Hlo _].
  assert (inject_Z (rne q) < inject_Z (k + 1)) as Hlt.
  { rewrite inject_Z_plus. change (inject_Z 1) with 1. lra. }
  apply inject_Z_lt_inv in Hlt. lia.
Qed.

Lemma rne_int (k : Z) : rne (inject_Z k) = k.
Proof.
  pose proof (rne_ge_int k (inject_Z k) (Qle_refl _)).
  pose proof (rne_le_int k (inject_Z k) (Qle_refl _)). lia.
Qed.

Lemma rne_mono (q q' : Q) : q <= q' -> (rne q <= rne q')%Z.
Proof.
  intros H.
  destruct (Qlt_le_dec q q') as [Hlt | Hge].
  - pose proof (Qfloor_resp_le _ _ H) as Hf.
    destruct (Z.eq_dec (Qfloor q) (Qfloor q')) as [Heq | Hne].
    + unfold rne. rewrite Heq.
      destruct (Qcompare_spec (q - inject_Z (Qfloor q')) (1 # 2)) as [H1 | H1 | H1];
        destruct (Qcompare_spec (q' - inject_Z (Qfloor q')) (1 # 2)) as [H2 | H2 | H2];
        try lia; try (destruct (Z.even (Qfloor q')); lia); exfalso; lra.
    + assert (Qfloor q + 1 <= Qfloor q')%Z by lia.
      destruct (rne_cases q) as [[-> _] | [-> _]]; destruct (rne_cases q') as [[-> _] | [-> _]]; lia.
  - assert (q == q') as Heq by (by apply Qle_antisym).
    rewrite (rne_proper _ _ Heq). lia.
Qed.

Lemma Qmake_pos (a : Z) (b : positive) : 0 < a # b -> (0 < a)%Z.
Proof. unfold Qlt. cbn. lia. Qed.

Lemma ilog2_spec (q : Q) :
  0 < q -> pow2 (ilog2 q) <= q /\ q < pow2 (ilog2 q + 1).
Proof.
  intros Hq. destruct q as [a b]. pose proof (Qmake_pos a b Hq) as Ha.
  unfold ilog2. cbn [Qnum Qden].
  set (la := Z.log2 a). set (lb := Z.log2 (Z.pos b)).
  destruct (Z.log2_spec a Ha) as [Ha1 Ha2]. fold la in Ha1, Ha2.
  destruct (Z.log2_spec (Z.pos b) (Pos2Z.is_pos b)) as [Hb1 Hb2]. fold lb in Hb1, Hb2.
  assert (0 <= la)%Z as Hla by apply Z.log2_nonneg.
  assert (0 <= lb)%Z as Hlb by apply Z.log2_nonneg.
  assert (pow2 la <= inject_Z a) as Qa1.
  { rewrite pow2_nonneg_Z by done. by rewrite <- Zle_Qle. }
  assert (inject_Z a < pow2 (la + 1)) as Qa2.
  { rewrite pow2_nonneg_Z by lia. rewrite <- Zlt_Qlt. by rewrite <- Z.add_1_r in Ha2. }
  assert (pow2 lb <= inject_Z (Z.pos b)) as Qb1.
  { rewrite pow2_nonneg_Z by done. by rewrite <- Zle_Qle. }
  assert (inject_Z (Z.pos b) < pow2 (lb + 1)) as Qb2.
  { rewrite pow2_nonneg_Z by lia. rewrite <- Zlt_Qlt. by rewrite <- Z.add_1_r in Hb2. }
  assert (0 < inject_Z (Z.pos b)) as Qb0 by (rewrite <- (Zlt_Qlt 0); lia).
  assert (a # b == inject_Z a / inject_Z (Z.pos b)) as Hdiv by apply Qmake_Qdiv.
  assert (a # b < pow2 (la - lb + 1)) as Hup.
  { rewrite Hdiv. apply Qlt_shift_div_r; [done |].
    eapply Qlt_le_trans; [exact Qa2 |].
    replace (la + 1)%Z with ((la - lb + 1) + lb)%Z by lia. rewrite pow2_add.
    apply Qmult_le_l; [apply pow2_pos | done]. }
  assert (pow2 (la - lb - 1) < a # b) as Hlo.
  { rewrite Hdiv. apply Qlt_shift_div_l; [done |].
    eapply Qlt_le_trans; [| exact Qa1].
    replace la with ((la - lb - 1) + (lb + 1))%Z at 2 by lia. rewrite pow2_add.
    apply Qmult_lt_l; [apply pow2_pos | done]. }
  destruct (Qle_bool (pow2 (la - lb)) (a # b)) eqn:Hk.
  - apply Qle_bool_iff in Hk. split; done.
  - split; [by apply Qlt_le_weak |].
    replace (la - lb - 1 + 1)%Z with (la - lb)%Z by lia.
    apply Qnot_le_lt. intros Hle. apply Qle_bool_iff in Hle. congruence.
Qed.

Lemma ilog2_mono (x y : Q) : 0 < x -> x <= y -> (ilog2 x <= ilog2 y)%Z.
Proof.
  intros Hx Hxy.
  destruct (ilog2_spec x Hx) as [Hx1 _].
  destruct (ilog2_spec y (Qlt_le_trans _ _ _ Hx Hxy)) as [_ Hy2].
  assert (pow2 (ilog2 x) < pow2 (ilog2 y + 1)) as H.
  { eapply Qle_lt_trans; [exact Hx1 |]. eapply Qle_lt_trans; [exact Hxy | exact Hy2]. }
  apply pow2_lt_inv in H. lia.
Qed.

Lemma nearest_unfold (q : Q) :
  nearest q = inject_Z (rne (q / pow2 (expo q))) * pow2 (expo q).
Proof. reflexivity. Qed.

Lemma div_pow2_le (x y : Q) (e : Z) : x <= y -> x / pow2 e <= y / pow2 e.
Proof.
  intros H. unfold Qdiv. apply Qmult_le_compat_r; [done |].
  apply Qlt_le_weak, Qinv_lt_0_compat, pow2_pos.
Qed.

Lemma nearest_nonneg (q : Q) : 0 < q -> 0 <= nearest q.
Proof.
  intros Hq. rewrite nearest_unfold.
  apply Qmult_le_0_compat; [| apply Qlt_le_weak, pow2_pos].
  rewrite <- (Zle_Qle 0). apply rne_ge_int.
  apply Qle_shift_div_l; [apply pow2_pos |]. rewrite Qmult_0_l. by apply Qlt_le_weak.
Qed.

Lemma nearest_mono (x y : Q) : 0 < x -> x <= y -> nearest x <= nearest y.
Proof.
  intros Hx Hxy. pose proof (Qlt_le_trans _ _ _ Hx Hxy) as Hy.
  rewrite !nearest_unfold.
  pose proof (ilog2_mono x y Hx Hxy) as Hlog.
  destruct (Z.eq_dec (expo x) (expo y)) as [Heq | Hne].
  - rewrite Heq. apply Qmult_le_compat_r; [| apply Qlt_le_weak, pow2_pos].
    rewrite <- Zle_Qle. apply rne_mono. by apply div_pow2_le.
  - assert (expo x < expo y)%Z as Hlt by (unfold expo in *; lia).
    assert (expo y = ilog2 y - 52)%Z as Hey by (unfold expo in *; lia).
    assert (ilog2 x - 52 <= expo x)%Z as Hex by (unfold expo; lia).
    destruct (ilog2_spec x Hx) as [_ Hx2]. destruct (ilog2_spec y Hy) as [Hy1 _].
    apply Qle_trans with (pow2 (expo x + 53)).
    + rewrite pow2_add, (Qmult_comm (pow2 (expo x))).
      apply Qmult_le_compat_r; [| apply Qlt_le_weak, pow2_pos].
      rewrite (pow2_nonneg_Z 53) by lia. rewrite <- Zle_Qle. apply rne_le_int.
      rewrite <- (pow2_nonneg_Z 53) by lia.
      apply Qle_shift_div_r; [apply pow2_pos |]. rewrite <- pow2_add.
      apply Qlt_le_weak. eapply Qlt_le_trans; [exact Hx2 |]. apply pow2_le. lia.
    + apply Qle_trans with (pow2 (expo y + 52)); [apply pow2_le; lia |].
      rewrite pow2_add, (Qmult_comm (pow2 (expo y))).
      apply Qmult_le_compat_r; [| apply Qlt_le_weak, pow2_pos].
      rewrite (pow2_nonneg_Z 52) by lia. rewrite <- Zle_Qle. apply rne_ge_int.
      rewrite <- (pow2_nonneg_Z 52) by lia.
      apply Qle_shift_div_l; [apply pow2_pos |]. rewrite <- pow2_add.
      eapply Qle_trans; [| exact Hy1]. apply pow2_le. lia.
Qed.

Lemma nearest_int (c : Z) : (0 < c < 2 ^ 53)%Z -> nearest (inject_Z c) == inject_Z c.
Proof.
  intros [Hc0 Hc]. assert (0 < inject_Z c) as Hq by (rewrite <- (Zlt_Qlt 0); lia).
  rewrite nearest_unfold.
  destruct (ilog2_spec _ Hq) as [H1 _].
  assert (pow2 (ilog2 (inject_Z c)) < pow2 53) as Hlt.
  { eapply Qle_lt_trans; [exact H1 |]. rewrite (pow2_nonneg_Z 53) by lia.
    by rewrite <- Zlt_Qlt. }
  apply pow2_lt_inv in Hlt.
  set (e := expo (inject_Z c)). assert (e <= 0)%Z as He by (unfold e, expo; lia).
  assert (inject_Z c / pow2 e == inject_Z (c * 2 ^ (- e))) as Hint.
  { rewrite inject_Z_mult, <- pow2_nonneg_Z by lia.
    unfold Qdiv. apply Qmult_comp; [reflexivity |].
    unfold pow2. by rewrite Qpower_opp. }
  rewrite (rne_proper _ _ Hint), rne_int, inject_Z_mult, <- pow2_nonneg_Z by lia.
  rewrite <- Qmult_assoc, <- pow2_add.
  replace (- e + e)%Z with 0%Z by lia. change (pow2 0) with 1. apply Qmult_1_r.
Qed.

Lemma round64_proper (x y : Q) : x == y -> round64 x = round64 y.
Proof. intros H. unfold round64. by rewrite (Qred_complete _ _ H). Qed.

Lemma round64_not_NaN (q : Q) : round64 q <> NaN.
Proof.
  unfold round64. destruct (Qle_bool (Qred q) 0); [done |].
  by destruct (Qle_bool (pow2 1024) (nearest (Qred q))).
Qed.

Lemma round64_nonnegative (q : Q) : nonnegative (round64 q).
Proof.
  unfold round64. destruct (Qle_bool (Qred q) 0) eqn:H0; [apply Qle_refl |].
  destruct (Qle_bool (pow2 1024) (nearest (Qred q))); [done |].
  unfold nonnegative. rewrite Qred_correct. apply nearest_nonneg.
  apply Qnot_le_lt. intros Hle. apply Qle_bool_iff in Hle. congruence.
Qed.

Lemma round64_mono (x y : Q) : x <= y -> dle (round64 x) (round64 y).
Proof.
  intros Hxy. unfold round64.
  assert (Qred x <= Qred y) as Hred by (by rewrite !Qred_correct).
  destruct (Qle_bool (Qred x) 0) eqn:Hx0.
  - destruct (Qle_bool (Qred y) 0) eqn:Hy0; [apply Qle_refl |].
    destruct (Qle_bool (pow2 1024) (nearest (Qred y))); [done |].
    unfold dle. rewrite Qred_correct. apply nearest_nonneg.
    apply Qnot_le_lt. intros Hle. apply Qle_bool_iff in Hle. congruence.
  - assert (0 < Qred x) as Hx.
    { apply Qnot_le_lt. intros Hle. apply Qle_bool_iff in Hle. congruence. }
    destruct (Qle_bool (Qred y) 0) eqn:Hy0.
    { apply Qle_bool_iff in Hy0. exfalso. lra. }
    pose proof (nearest_mono _ _ Hx Hred) as Hn.
    destruct (Qle_bool (pow2 1024) (nearest (Qred x))) eqn:Hox;
      destruct (Qle_bool (pow2 1024) (nearest (Qred y))) eqn:Hoy; unfold dle; try done.
    + apply Qle_bool_iff in Hox.
      assert (pow2 1024 <= nearest (Qred y)) as Hle by (eapply Qle_trans; eauto).
      apply Qle_bool_iff in Hle. congruence.
    + rewrite (Qred_correct (nearest (Qred x))), (Qred_correct (nearest (Qred y))).
      exact Hn.
Qed.

Lemma round64_int (c : Z) : (0 <= c < 2 ^ 53)%Z -> round64 (inject_Z c) = Fin (inject_Z c).
Proof.
  intros [Hc0 Hc]. unfold round64.
  assert (Qred (inject_Z c) = inject_Z c) as Hred.
  { apply Qcanon.Qred_identity. cbn. apply Z.gcd_1_r. }
  rewrite Hred.
  destruct (Z.eq_dec c 0) as [-> | Hne]; [done |].
  destruct (Qle_bool (inject_Z c) 0) eqn:H0.
  { apply Qle_bool_iff in H0. change 0 with (inject_Z 0) in H0.
    rewrite <- Zle_Qle in H0. lia. }
  pose proof (nearest_int c ltac:(lia)) as Hn.
  destruct (Qle_bool (pow2 1024) (nearest (inject_Z c))) eqn:Ho.
  { apply Qle_bool_iff in Ho. rewrite Hn in Ho.
    rewrite (pow2_nonneg_Z 1024) in Ho by lia. rewrite <- Zle_Qle in Ho.
    assert (2 ^ 53 < 2 ^ 1024)%Z by (apply Z.pow_lt_mono_r; lia). lia. }
  by rewrite (Qred_complete _ _ Hn), Hred.
Qed.

(** The operations are monotone. *)
Lemma dle_refl (x : double) : x <> NaN -> dle x x.
Proof. destruct x; cbn; [intros _; apply Qle_refl | done | done]. Qed.

Lemma dle_trans (x y z : double) : dle x y -> dle y z -> dle x z.
Proof. destruct x, y, z; unfold dle; try tauto. apply Qle_trans. Qed.

Lemma dle_not_dlt (x y : double) : dle x y -> ~ dlt y x.
Proof. destruct x, y; unfold dle, dlt; try tauto. intros H1 H2. lra. Qed.

Lemma is_zero_false (b : Q) : 0 < b -> is_zero b = false.
Proof.
  intros Hb. unfold is_zero. destruct (Qeq_bool b 0) eqn:H; [| done].
  apply Qeq_bool_iff in H. lra.
Qed.

Lemma div_mono (x x' : double) (b : Q) :
  0 < b -> dle x x' -> dle (div x (Fin b)) (div x' (Fin b)).
Proof.
  intros Hb. destruct x as [a | |], x' as [a' | |]; unfold dle at 1, div; try done;
    rewrite (is_zero_false b Hb).
  - intros Ha. apply round64_mono. unfold Qdiv.
    apply Qmult_le_compat_r; [done |]. by apply Qlt_le_weak, Qinv_lt_0_compat.
  - intros _. pose proof (round64_not_NaN (a / b)). by destruct (round64 (a / b)).
Qed.

Lemma mul_mono (x x' : double) (b : Q) :
  0 < b -> dle x x' -> dle (mul x (Fin b)) (mul x' (Fin b)).
Proof.
  intros Hb. destruct x as [a | |], x' as [a' | |]; unfold dle at 1, mul; try done;
    rewrite ?(is_zero_false b Hb); try done.
  - intros Ha. apply round64_mono. apply Qmult_le_compat_r; [done | by apply Qlt_le_weak].
  - intros _. pose proof (round64_not_NaN (a * b)). by destruct (round64 (a * b)).
Qed.

Lemma add_ge (c : Z) (y : double) :
  (0 <= c < 2 ^ 53)%Z -> nonnegative y -> y <> NaN ->
  dle (Fin (inject_Z c)) (add (Fin (inject_Z c)) y).
Proof.
  intros Hc Hy Hnan. destruct y as [b | |]; [| done | done].
  unfold add, nonnegative in *. rewrite <- (round64_int c Hc) at 1. apply round64_mono. lra.
Qed.

Lemma Math_round_mono (x y : double) : dle x y -> dle (Math_round x) (Math_round y).
Proof.
  destruct x as [a | |], y as [b | |]; unfold dle, Math_round; try done.
  intros H. rewrite <- Zle_Qle. apply Qfloor_resp_le. lra.
Qed.

Lemma div_nonnegative (x y : double) : nonnegative x -> nonnegative y -> nonnegative (div x y).
Proof.
  destruct x as [a | |], y as [b | |]; unfold nonnegative, div; try done.
  intros _ _. destruct (is_zero b); [by destruct (is_zero a) | apply round64_nonnegative].
Qed.

Lemma mul_nonnegative (x y : double) : nonnegative (mul x y).
Proof.
  destruct x as [a | |], y as [b | |]; unfold mul; try done.
  - apply round64_nonnegative.
  - by destruct (is_zero a).
  - by destruct (is_zero b).
Qed.

Lemma Math_round_nonnegative (x : double) : nonnegative x -> nonnegative (Math_round x).
Proof.
  destruct x as [a | |]; unfold nonnegative, Math_round; try done. intros Ha.
  change 0 with (inject_Z 0). rewrite <- Zle_Qle.
  change 0%Z with (Qfloor 0). apply Qfloor_resp_le. lra.
Qed.

(** The operations agree with the Standard Library's specification of
    binary64 arithmetic: on the ratios of the counts below 40, on the
    partial ratios of small counts with every percentage up to 100, and
    on the conversion of the integers next to the powers of two below
    [2 ^ 80], where the conversion starts to round, and from [2 ^ 1015]
    to [2 ^ 1029], where it overflows. *)
Lemma agrees_with_SpecFloat :
  forallb (fun c => forallb (fun n => same (of_spec_float (spec_ratio c n)) (ratio c n))
                      (upto 40)) (upto 40) = true /\
  forallb (fun c =>
     forallb (fun p =>
        forallb (fun n => same (of_spec_float (spec_partial_ratio c p n))
                               (partial_ratio c p n))
          (upto 7)) (upto 101)) (upto 4) = true /\
  forallb (fun k =>
     same (of_spec_float (spec_of_Z (2 ^ k + 1))) (of_Z (2 ^ k + 1)) &&
     same (of_spec_float (spec_of_Z (2 ^ k - 1))) (of_Z (2 ^ k - 1)))
    (upto 80 ++ List.map (Z.add 1015) (upto 15)) = true.
Proof. split; [| split]; vm_compute; reflexivity. Qed.

Lemma of_Z_int (c : Z) : (0 <= c < 2 ^ 53)%Z -> of_Z c = Fin (inject_Z c).
Proof. apply round64_int. Qed.

Lemma of_Z_nonnegative (c : Z) : nonnegative (of_Z c).
Proof. apply round64_nonnegative. Qed.

Lemma of_Z_mono (a b : Z) : (a <= b)%Z -> dle (of_Z a) (of_Z b).
Proof. intros H. apply round64_mono. by rewrite <- Zle_Qle. Qed.

Lemma hundred_pos : 0 < 100.
Proof. reflexivity. Qed.

(** [x / x] is 1 for a count [x] that is not 0. *)
Lemma div_self (c : Z) : (0 < c < 2 ^ 53)%Z -> div (of_Z c) (of_Z c) = Fin 1.
Proof.
  intros Hc. rewrite of_Z_int by lia. unfold div.
  assert (0 < inject_Z c) as Hq by (rewrite <- (Zlt_Qlt 0); lia).
  rewrite (is_zero_false _ Hq).
  rewrite (round64_proper (inject_Z c / inject_Z c) (inject_Z 1)).
  - by apply round64_int.
  - change (inject_Z 1) with 1. apply Qmult_inv_r. lra.
Qed.

End DoubleArith.

(** ** The percentages of analyzeImages *)

Section Percentages.
Import QArith_base Qround Qpower Qreduction Lqa.
Import Double Batch.

Lemma percentCompleted_nonnegative (loaded : N) (total : option N) :
  nonnegative (percentCompleted loaded total).
Proof.
  unfold percentCompleted. apply Math_round_nonnegative, div_nonnegative.
  - apply mul_nonnegative.
  - destruct total; [apply of_Z_nonnegative | done].
Qed.

(** The value that a settlement reports grows with [completed]. *)
Lemma settled_percent_mono (c c' n : nat) :
  (c ≤ c')%nat → (0 < n)%nat → (Z.of_nat n < 2 ^ 53)%Z →
  dle (settled_percent c n) (settled_percent c' n).
Proof.
  intros Hc Hn Hlen. unfold settled_percent, of_nat.
  rewrite (of_Z_int (Z.of_nat n)) by lia.
  apply Math_round_mono, mul_mono; [apply hundred_pos |].
  apply div_mono; [rewrite <- (Zlt_Qlt 0); lia |].
  apply of_Z_mono. lia.
Qed.

(** [Math.round((n / n) * 100)] is 100. *)
Lemma settled_percent_all (n : nat) :
  (0 < n)%nat → (Z.of_nat n < 2 ^ 53)%Z → settled_percent n n = hundred.
Proof.
  intros Hn Hlen. unfold settled_percent, of_nat.
  rewrite div_self by lia. vm_compute. reflexivity.
Qed.

(** A report from an upload is [NaN] or at least what the last
    settlement reported. *)
Lemma upload_percent_above (c : nat) (p : double) (n : nat) :
  (Z.of_nat c < 2 ^ 53)%Z → (0 < n)%nat → (Z.of_nat n < 2 ^ 53)%Z → nonnegative p →
  not_below (settled_percent c n) (upload_percent c p n).
Proof.
  intros Hc Hn Hlen Hp. unfold not_below.
  assert (p = NaN ∨ div p hundred ≠ NaN) as [-> | Hnan].
  { destruct p as [a | |]; [right | by right | by left].
    unfold div, hundred. rewrite (is_zero_false 100 hundred_pos).
    apply round64_not_NaN. }
  - left. unfold upload_percent, of_nat. rewrite (of_Z_int (Z.of_nat c)) by lia.
    reflexivity.
  - right. unfold settled_percent, upload_percent, of_nat.
    rewrite (of_Z_int (Z.of_nat n)), (of_Z_int (Z.of_nat c)) by lia.
    apply Math_round_mono, mul_mono; [apply hundred_pos |].
    apply div_mono; [rewrite <- (Zlt_Qlt 0); lia |].
    apply add_ge; [lia | by apply div_nonnegative | done].
Qed.

End Percentages.

(** ** validateFile *)

Section ValidateFile.
Import Api.

Lemma includes_In (l : list string) (x : string) :
  Js.includes l x = true ↔ In x l.
Proof.
  unfold Js.includes. rewrite existsb_exists. split.
  - intros (y & Hy & Heq). apply String.eqb_eq in Heq. by subst.
  - intros Hx. exists x. split; [done | apply String.eqb_refl].
Qed.

Lemma type_check_spec (f : file) :
  negb (Js.includes allowedTypes (Js.toLowerCase (type f))) = false ↔ supported_type f.
Proof.
  rewrite negb_false_iff, includes_In. unfold supported_type, same_ignoring_case.
  split.
  - intros Hin. exists (Js.toLowerCase (type f)). split; [exact Hin |].
    cbn in Hin. destruct Hin as [H | [H | [H | [H | []]]]]; by rewrite <- H.
  - intros (t & Ht & ->).
    cbn in Ht. destruct Ht as [<- | [<- | [<- | [<- | []]]]];
      repeat (try (left; reflexivity); right).
Qed.

Lemma size_check_spec (f : file) : (size f >? maxSize) = false ↔ within_size f.
Proof. unfold within_size, maxSize. rewrite Z.gtb_ltb, Z.ltb_ge. lia. Qed.

Lemma name_check_spec (f : file) :
  String.eqb (name f) "" || String.eqb (Js.trim (name f)) "" = false ↔ named f.
Proof.
  unfold named. rewrite orb_false_iff, !String.eqb_neq. split.
  - by intros [_ H].
  - intros H. split; [| done]. intros Hn. apply H. by rewrite Hn.
Qed.

(** C10. [validateFile] is a total function of the file; [valid] is
    [true] exactly when [errors] is empty, which holds exactly when the
    type is, up to the case of its letters, one of image/jpeg, image/jpg,
    image/png and image/webp, the size is at most 10 * 1024 * 1024 and the
    trimmed name is not empty; every violated condition leaves its entry
    in [errors]. *)
Theorem validateFile_spec (f : file) :
  (valid (validateFile f) = true ↔ errors (validateFile f) = []) ∧
  (errors (validateFile f) = [] ↔ supported_type f ∧ within_size f ∧ named f) ∧
  (¬ supported_type f → In (UnsupportedFileType (type f)) (errors (validateFile f))) ∧
  (¬ within_size f → In (FileTooLarge (size f)) (errors (validateFile f))) ∧
  (¬ named f → In InvalidFileName (errors (validateFile f))).
Proof.
  pose proof (type_check_spec f) as Ht.
  pose proof (size_check_spec f) as Hs.
  pose proof (name_check_spec f) as Hn.
  unfold validateFile.
  destruct (negb (Js.includes allowedTypes (Js.toLowerCase (type f))));
    destruct (size f >? maxSize);
    destruct (String.eqb (name f) "" || String.eqb (Js.trim (name f)) "");
    cbn [valid errors app length Nat.eqb In];
    repeat split; try tauto; try congruence; try (intros; discriminate);
    intuition (try discriminate; try congruence).
Qed.

End ValidateFile.

(** ** withRetry *)

Section Retry.
Import Api.

Lemma retryable_not_client (e : request_error) :
  retryable_classified e → is_client_error e = false.
Proof.
  unfold retryable_classified, is_client_error.
  destruct (err_response e) as [r|]; [| done].
  intros [H | H].
  - rewrite H. reflexivity.
  - apply andb_false_iff. left. apply andb_false_iff. right. lia.
Qed.

Lemma client_rejection_stops (e : request_error) :
  client_rejection e → is_client_error e = true.
Proof.
  intros (r & Hr & Hrange & Hne). unfold is_client_error. rewrite Hr.
  rewrite !andb_true_iff, negb_true_iff. repeat split; lia.
Qed.

(** One iteration of the loop. *)
Lemma retry_loop_S {A : Type} (fn : nat → A + request_error)
    (maxRetries : nat) (baseDelay : Z) remaining attempt last :
  retry_loop fn maxRetries baseDelay (S remaining) attempt last =
    match fn attempt with
    | inl v => ([Attempt attempt], Returned v)
    | inr e =>
        if is_client_error e then ([Attempt attempt], Thrown (Some e))
        else if (attempt =? maxRetries)%nat then ([Attempt attempt], Thrown (Some e))
        else
          let '(acts, out) :=
            retry_loop fn maxRetries baseDelay remaining (S attempt) (Some e) in
          (Attempt attempt :: Sleep (baseDelay * 2 ^ Z.of_nat attempt) :: acts, out)
    end.
Proof. reflexivity. Qed.

Lemma retry_loop_exhausts {A : Type} (fn : nat → A + request_error)
    (maxRetries : nat) (baseDelay : Z) :
  (∀ k, (k ≤ maxRetries)%nat → ∃ e, fn k = inr e ∧ retryable_classified e) →
  ∀ remaining attempt last e,
    (attempt + remaining = maxRetries)%nat →
    fn maxRetries = inr e →
    retry_loop fn maxRetries baseDelay (S remaining) attempt last =
      (backoff_schedule baseDelay attempt remaining ++ [Attempt maxRetries],
       Thrown (Some e)).
Proof.
  intros Hfail remaining.
  induction remaining as [| remaining IH]; intros attempt last e Hsum Hlast.
  - assert (attempt = maxRetries) as -> by lia.
    rewrite retry_loop_S, Hlast.
    rewrite (retryable_not_client e).
    + rewrite Nat.eqb_refl. reflexivity.
    + destruct (Hfail maxRetries) as (e' & He' & Hr); [lia |]. congruence.
  - destruct (Hfail attempt) as (e' & He' & Hr); [lia |].
    rewrite retry_loop_S, He', (retryable_not_client e' Hr).
    destruct (Nat.eqb_spec attempt maxRetries) as [Heq | _]; [lia |].
    rewrite (IH (S attempt) (Some e') e) by (done || lia).
    reflexivity.
Qed.

Lemma backoff_schedule_S (baseDelay : Z) (first count : nat) :
  backoff_schedule baseDelay first (S count) =
    Attempt first :: Sleep (baseDelay * 2 ^ Z.of_nat first)
      :: backoff_schedule baseDelay (S first) count.
Proof. reflexivity. Qed.

Lemma backoff_schedule_attempts (baseDelay : Z) (first count : nat) :
  attempts (backoff_schedule baseDelay first count) = seq first count.
Proof.
  revert first. induction count as [| count IH]; intros first; [done |].
  rewrite backoff_schedule_S. cbn [seq]. rewrite <- IH. reflexivity.
Qed.

Lemma backoff_schedule_sleeps (baseDelay : Z) (first count : nat) :
  sleeps (backoff_schedule baseDelay first count) =
    (λ k, baseDelay * 2 ^ Z.of_nat k) <$> seq first count.
Proof.
  revert first. induction count as [| count IH]; intros first; [done |].
  rewrite backoff_schedule_S. cbn [seq fmap list_fmap].
  change (list_fmap nat Z ?f ?l) with (f <$> l). rewrite <- IH. reflexivity.
Qed.

(** C5. When every attempt fails with a retryable-classified error, the
    wrapper makes [maxRetries + 1] attempts in sequence, sleeps
    [baseDelay * 2 ^ k] after failed attempt [k] and before attempt
    [k + 1], and throws the error of the last attempt; with the default
    configuration that is 4 attempts separated by sleeps of 1000, 2000
    and 4000 milliseconds, after which [analyzeImage] returns that last
    error as parsed by [parseError]. *)
Theorem withRetry_exhausts_retries (fn : nat → analysis + request_error)
    (maxRetries : nat) (baseDelay : Z) :
  (∀ k, (k ≤ maxRetries)%nat → ∃ e, fn k = inr e ∧ retryable_classified e) →
  ∃ e, fn maxRetries = inr e ∧
    withRetry fn maxRetries baseDelay =
      (backoff_schedule baseDelay 0 maxRetries ++ [Attempt maxRetries],
       Thrown (Some e)) ∧
    length (attempts (withRetry fn maxRetries baseDelay).1) = S maxRetries ∧
    sleeps (withRetry fn maxRetries baseDelay).1 =
      (λ k, baseDelay * 2 ^ Z.of_nat k) <$> seq 0 maxRetries ∧
    (maxRetries = API_CONFIG_maxRetries → baseDelay = API_CONFIG_retryDelay →
     analyzeImage fn =
       ([Attempt 0; Sleep 1000; Attempt 1; Sleep 2000; Attempt 2; Sleep 4000;
         Attempt 3],
        Some (AnalyzeFailed (message (parseError e)) (code (parseError e))
                            (details (parseError e))))).
Proof.
  intros Hfail.
  destruct (Hfail maxRetries) as (e & He & _); [lia |].
  exists e. split; [done |].
  assert (withRetry fn maxRetries baseDelay =
            (backoff_schedule baseDelay 0 maxRetries ++ [Attempt maxRetries],
             Thrown (Some e))) as Hrun.
  { unfold withRetry. by apply retry_loop_exhausts. }
  split; [exact Hrun |].
  pose proof (backoff_schedule_attempts baseDelay 0 maxRetries) as Ha.
  pose proof (backoff_schedule_sleeps baseDelay 0 maxRetries) as Hs.
  split; [| split].
  - rewrite Hrun. cbn [fst]. unfold attempts in *. rewrite omap_app, Ha. cbn.
    rewrite length_app, length_seq. cbn. lia.
  - rewrite Hrun. cbn [fst]. unfold sleeps in *. rewrite omap_app, Hs. cbn.
    by rewrite app_nil_r.
  - intros -> ->. unfold analyzeImage. rewrite Hrun. reflexivity.
Qed.

Lemma parseError_status (e : request_error) (r : response) :
  err_response e = Some r → api_status (parseError e) = status r.
Proof.
  intros Hr. unfold parseError. rewrite Hr. destruct r as [st d].
  destruct (Js.truthy (d ≫= error)).
  - by destruct d.
  - by destruct (d ≫= validation_errors).
Qed.

(** The loop leaves with a value or with the error of an attempt, never
    with [undefined], so [parseError] is only applied to the error of an
    attempt. *)
Lemma retry_loop_throws_error {A : Type} (fn : nat → A + request_error)
    (maxRetries : nat) (baseDelay : Z) (remaining attempt : nat)
    (lastError : option request_error) :
  (remaining = 0%nat → lastError ≠ None) →
  (retry_loop fn maxRetries baseDelay remaining attempt lastError).2 ≠ Thrown None.
Proof.
  revert attempt lastError.
  induction remaining as [| remaining IH]; intros attempt lastError Hlast.
  - cbn. intros [= H]. by apply Hlast.
  - rewrite retry_loop_S. destruct (fn attempt) as [v | e]; [done |].
    destruct (is_client_error e); [done |].
    destruct (attempt =? maxRetries)%nat; [done |].
    specialize (IH (S attempt) (Some e)).
    destruct (retry_loop fn maxRetries baseDelay remaining (S attempt) (Some e))
      as [acts out].
    cbn in *. by apply IH.
Qed.

(** C6. When the first attempt fails with a status in [400, 500) other
    than 429, the wrapper makes that one attempt, does not sleep, and
    throws the error at once, which [analyzeImage] returns as parsed by
    [parseError]; [isRetryableError] classifies the parsed error as not
    retryable. *)
Theorem withRetry_client_error_no_retry (fn : nat → analysis + request_error)
    (maxRetries : nat) (baseDelay : Z) (e : request_error) :
  fn 0%nat = inr e →
  client_rejection e →
  withRetry fn maxRetries baseDelay = ([Attempt 0], Thrown (Some e)) ∧
  attempts (withRetry fn maxRetries baseDelay).1 = [0%nat] ∧
  sleeps (withRetry fn maxRetries baseDelay).1 = [] ∧
  analyzeImage fn =
    ([Attempt 0],
     Some (AnalyzeFailed (message (parseError e)) (code (parseError e))
                         (details (parseError e)))) ∧
  isRetryableError (Some (api_status (parseError e))) = false.
Proof.
  intros Hfn Hclient.
  assert (∀ m d, withRetry fn m d = ([Attempt 0], Thrown (Some e))) as Hrun.
  { intros m d. unfold withRetry.
    by rewrite retry_loop_S, Hfn, (client_rejection_stops e Hclient). }
  rewrite Hrun. split; [done |]. split; [done |]. split; [done |]. split.
  - unfold analyzeImage. by rewrite Hrun.
  - destruct Hclient as (r & Hr & Hrange & Hne).
    rewrite (parseError_status e r Hr). unfold isRetryableError.
    destruct (Z.eqb_spec (status r) 0) as [H0 | _]; [lia |].
    apply orb_false_iff. split; [| by apply Z.eqb_neq].
    rewrite Z.geb_leb. apply Z.leb_gt. lia.
Qed.

End Retry.

(** ** analyzeImages: chunks *)

Section Chunks.
Import Batch.
Context {A : Type}.

Lemma slice_length (i : nat) (l : list A) :
  (length (slice i (i + CONCURRENT_LIMIT) l) ≤ CONCURRENT_LIMIT)%nat.
Proof. unfold slice. rewrite length_take. lia. Qed.

Lemma chunk_loop_lengths (fuel i : nat) (l : list A) :
  Forall (λ c, (length c ≤ CONCURRENT_LIMIT)%nat) (chunk_loop fuel i l).
Proof.
  revert i. induction fuel as [| fuel IH]; intros i; cbn [chunk_loop]; [constructor |].
  destruct (i <? length l)%nat; constructor; [apply slice_length | apply IH].
Qed.

(** The fuel given to the loop is enough: the chunks are consecutive
    slices that cover the whole list. *)
Lemma chunk_loop_concat (fuel i : nat) (l : list A) :
  (length l ≤ i + fuel)%nat → concat (chunk_loop fuel i l) = drop i l.
Proof.
  revert i. induction fuel as [| fuel IH]; intros i Hfuel; cbn [chunk_loop concat].
  - symmetry. apply drop_ge. lia.
  - destruct (Nat.ltb_spec i (length l)) as [Hlt | Hge].
    + cbn [concat]. rewrite IH by (unfold CONCURRENT_LIMIT; lia).
      unfold slice.
      replace (i + CONCURRENT_LIMIT - i)%nat with CONCURRENT_LIMIT by lia.
      rewrite <- drop_drop. apply take_drop.
    + symmetry. apply drop_ge. lia.
Qed.

Lemma make_chunks_concat (l : list A) : concat (make_chunks l) = l.
Proof. unfold make_chunks. rewrite chunk_loop_concat by lia. apply drop_0. Qed.

(** The [k]-th chunk is the slice that starts at [k * CONCURRENT_LIMIT]. *)
Lemma chunk_loop_lookup (fuel i : nat) (l : list A) (k : nat) (c : list A) :
  chunk_loop fuel i l !! k = Some c →
  c = slice (i + CONCURRENT_LIMIT * k)
            (i + CONCURRENT_LIMIT * k + CONCURRENT_LIMIT) l.
Proof.
  revert i k. induction fuel as [| fuel IH]; intros i k; cbn [chunk_loop]; [done |].
  destruct (i <? length l)%nat; [| done].
  destruct k as [| k]; cbn.
  - intros [= <-]. by rewrite Nat.add_0_r.
  - intros Hk. apply IH in Hk. rewrite Hk. f_equal; unfold CONCURRENT_LIMIT; lia.
Qed.

Lemma slice_elem (a : nat) (l : list A) (x : A) :
  x ∈ slice a (a + CONCURRENT_LIMIT) l →
  ∃ q, (q < CONCURRENT_LIMIT)%nat ∧ l !! (a + q)%nat = Some x.
Proof.
  unfold slice. intros Hx. apply list_elem_of_lookup in Hx as [q Hq].
  apply lookup_take_Some in Hq as [Hq Hlt]. rewrite lookup_drop in Hq.
  exists q. split; [lia | done].
Qed.

Lemma make_chunks_lengths (l : list A) :
  Forall (λ c, (length c ≤ CONCURRENT_LIMIT)%nat) (make_chunks l).
Proof. apply chunk_loop_lengths. Qed.

End Chunks.

(** ** analyzeImages: runs and their invariants *)

Section BatchRun.
Import Api Batch.
Variable cbs : callbacks.
Variable files : list file.

Lemma run_snoc (b : batch) (evs : list event) (e : event) :
  run cbs files b (evs ++ [e]) = run cbs files b evs ≫= λ b1, step cbs files b1 e.
Proof.
  revert b. induction evs as [| e' evs IH]; intros b; cbn [app run].
  - cbn. by destruct (step cbs files b e).
  - destruct (step cbs files b e') as [b1 |]; [apply IH | done].
Qed.

(** Induction over the states of a call. *)
Lemma reachable_ind (P : batch → Prop) :
  P (analyzeImages files) →
  (∀ b e b', reachable cbs files b → P b → step cbs files b e = Some b' → P b') →
  ∀ b, reachable cbs files b → P b.
Proof.
  intros Hinit Hstep b [evs Hrun]. revert b Hrun.
  induction evs as [| e evs IH] using rev_ind; intros b Hrun.
  - cbn in Hrun. by injection Hrun as <-.
  - rewrite run_snoc in Hrun.
    destruct (run cbs files (analyzeImages files) evs) as [b1 |] eqn:Hb1; [| done].
    cbn in Hrun. apply (Hstep b1 e b); [by exists evs | by apply IH | done].
Qed.

(** Induction over the events of a call. *)
Lemma run_ind (P : list event → batch → Prop) :
  P [] (analyzeImages files) →
  (∀ evs b e b',
     run cbs files (analyzeImages files) evs = Some b → P evs b →
     step cbs files b e = Some b' → P (evs ++ [e]) b') →
  ∀ evs b, run cbs files (analyzeImages files) evs = Some b → P evs b.
Proof.
  intros Hinit Hstep evs.
  induction evs as [| e evs IH] using rev_ind; intros b Hrun.
  - cbn in Hrun. by injection Hrun as <-.
  - rewrite run_snoc in Hrun.
    destruct (run cbs files (analyzeImages files) evs) as [b1 |] eqn:Hb1; [| done].
    cbn in Hrun. apply (Hstep evs b1 e b); [done | by apply IH | done].
Qed.

Lemma reachable_step (b b' : batch) (e : event) :
  reachable cbs files b → step cbs files b e = Some b' → reachable cbs files b'.
Proof.
  intros [evs Hrun] Hstep. exists (evs ++ [e]).
  rewrite run_snoc, Hrun. exact Hstep.
Qed.

(** *** What a settlement leaves alone *)

Lemma settle_try_frame (i : nat) (f : file) (r : analyze_result) (b : batch) :
  chunks (settle_try cbs files i f r b).1 = chunks b ∧
  inflight (settle_try cbs files i f r b).1 = inflight b ∧
  state (settle_try cbs files i f r b).1 = state b.
Proof. settle_cases; done. Qed.

Lemma settle_catch_frame (i : nat) (f : file) (b : batch) :
  chunks (settle_catch cbs i f b).1 = chunks b ∧
  inflight (settle_catch cbs i f b).1 = inflight b ∧
  state (settle_catch cbs i f b).1 = state b.
Proof. settle_cases; done. Qed.

(** The state after the event [Settled i r] on operation [(i, f)]. *)
Lemma step_settled (b b' : batch) (i : nat) (r : analyze_result) :
  step cbs files b (Settled i r) = Some b' →
  ∃ f, lookup_op i (inflight b) = Some f ∧
       b' = advance files (set_inflight (settle_try cbs files i f r b).1 (remove_op i (inflight b)))
                    (settle_try cbs files i f r b).2.
Proof.
  unfold step. destruct (lookup_op i (inflight b)) as [f |]; [| done].
  intros Hstep. exists f. split; [done |].
  destruct (settle_try cbs files i f r b) as [b1 rej]. by injection Hstep as <-.
Qed.

(** The state after the event [Rejected i] on operation [(i, f)]. *)
Lemma step_rejected (b b' : batch) (i : nat) :
  step cbs files b (Rejected i) = Some b' →
  ∃ f, lookup_op i (inflight b) = Some f ∧
       b' = advance files (set_inflight (settle_catch cbs i f b).1 (remove_op i (inflight b)))
                    (settle_catch cbs i f b).2.
Proof.
  unfold step. destruct (lookup_op i (inflight b)) as [f |]; [| done].
  intros Hstep. exists f. split; [done |].
  destruct (settle_catch cbs i f b) as [b1 rej]. by injection Hstep as <-.
Qed.

(** What the two kinds of settlement have in common. *)
Lemma step_settles (b b' : batch) (e : event) (i : nat) :
  settles e i → step cbs files b e = Some b' →
  ∃ f b1 rej,
    lookup_op i (inflight b) = Some f ∧
    chunks b1 = chunks b ∧ inflight b1 = inflight b ∧ state b1 = state b ∧
    b' = advance files (set_inflight b1 (remove_op i (inflight b))) rej.
Proof.
  destruct e as [j loaded total | j r | j]; cbn; [done | intros -> | intros ->];
    intros Hstep.
  - apply step_settled in Hstep as (f & Hf & ->).
    destruct (settle_try_frame i f r b) as (Hc & Hi & Hs).
    by exists f, (settle_try cbs files i f r b).1, (settle_try cbs files i f r b).2.
  - apply step_rejected in Hstep as (f & Hf & ->).
    destruct (settle_catch_frame i f b) as (Hc & Hi & Hs).
    by exists f, (settle_catch cbs i f b).1, (settle_catch cbs i f b).2.
Qed.

Lemma lookup_op_elem (i : nat) (f : file) (ops : list op) :
  lookup_op i ops = Some f → (i, f) ∈ ops.
Proof.
  induction ops as [| [j g] ops IH]; cbn; [done |].
  destruct (Nat.eqb_spec j i) as [-> | _].
  - intros [= ->]. left.
  - intros H. right. by apply IH.
Qed.

(** *** At most [CONCURRENT_LIMIT] operations in flight *)

Lemma advance_within_limit (b : batch) (rejected : bool) :
  within_limit b → within_limit (advance files b rejected).
Proof.
  intros Hb. pose proof Hb as [Hin Hch]. unfold advance.
  destruct (state b); [| exact Hb | exact Hb].
  destruct rejected; [exact Hb |].
  destruct (inflight b) eqn:Hinf; [| exact Hb].
  destruct (chunks b) as [| c cs] eqn:Hcs; [by split; cbn; rewrite ?Hinf, ?Hcs |].
  apply Forall_cons in Hch as [Hc Hcs']. by split.
Qed.

Lemma analyzeImages_within_limit : within_limit (analyzeImages files).
Proof.
  apply advance_within_limit. split; cbn; [lia | apply make_chunks_lengths].
Qed.

Lemma step_within_limit (b b' : batch) (e : event) :
  within_limit b → step cbs files b e = Some b' → within_limit b'.
Proof.
  intros [Hin Hch] Hstep. destruct e as [i loaded total | i r | i].
  - cbn in Hstep. destruct (lookup_op i (inflight b)); [| done].
    destruct (onProgress cbs); injection Hstep as <-; by split.
  - apply step_settled in Hstep as (f & _ & ->).
    apply advance_within_limit.
    destruct (settle_try_frame i f r b) as (Hc & _ & _).
    split; cbn; [| by rewrite Hc].
    etrans; [apply length_filter | done].
  - apply step_rejected in Hstep as (f & _ & ->).
    apply advance_within_limit.
    destruct (settle_catch_frame i f b) as (Hc & _ & _).
    split; cbn; [| by rewrite Hc].
    etrans; [apply length_filter | done].
Qed.

(** C7. In every state of a call of [analyzeImages], at most 3
    operations are in flight. *)
Theorem at_most_three_in_flight (b : batch) :
  reachable cbs files b → (length (inflight b) ≤ 3)%nat.
Proof.
  intros Hb. enough (within_limit b) as [H _] by exact H.
  revert b Hb. apply reachable_ind.
  - apply analyzeImages_within_limit.
  - intros b e b' _ Hb Hstep. by apply (step_within_limit b b' e).
Qed.

(** *** The counters *)

Lemma settle_try_counts (i : nat) (f : file) (r : analyze_result) (b : batch) :
  counts_agree b → counts_agree (settle_try cbs files i f r b).1.
Proof.
  unfold counts_agree. intros Hb.
  settle_cases; rewrite ?length_app; cbn; lia.
Qed.

Lemma settle_catch_counts (i : nat) (f : file) (b : batch) :
  counts_agree b → counts_agree (settle_catch cbs i f b).1.
Proof.
  unfold counts_agree. intros Hb.
  settle_cases; rewrite ?length_app; cbn; lia.
Qed.

Lemma lookup_op_nil (i : nat) : lookup_op i [] = None.
Proof. reflexivity. Qed.

(** No event is enabled once nothing is in flight. *)
Lemma step_needs_inflight (b b' : batch) (e : event) :
  step cbs files b e = Some b' → inflight b ≠ [].
Proof.
  intros Hstep Hnil. destruct e; cbn in Hstep; rewrite Hnil in Hstep; done.
Qed.

(** The four ways out of [advance]. *)
Lemma advance_cases (b : batch) (rejected : bool) :
  advance files b rejected = b ∧
    (state b ≠ Running ∨ (rejected = false ∧ inflight b ≠ [])) ∨
  state b = Running ∧ rejected = true ∧
    advance files b rejected = set_state b Aborted ∨
  state b = Running ∧ rejected = false ∧ inflight b = [] ∧
    (∃ chunk rest, chunks b = chunk :: rest ∧
       advance files b rejected =
         MkBatch (completed b) (results b) (errors b) rest chunk Running (calls b)) ∨
  state b = Running ∧ rejected = false ∧ inflight b = [] ∧ chunks b = [] ∧
    advance files b rejected =
      set_state b (Resolved (length (errors b) =? 0)%nat
                     {| total := length files;
                        successful := length (results b);
                        failed := length (errors b) |}).
Proof.
  unfold advance.
  destruct (state b) eqn:Hst; [| by left; split; [| left] | by left; split; [| left]].
  destruct rejected; [by right; left |].
  destruct (inflight b) eqn:Hinf; [| by left; split; [| right]].
  destruct (chunks b) as [| chunk rest] eqn:Hcs.
  - by right; right; right.
  - right; right; left. repeat split. by exists chunk, rest.
Qed.

Lemma advance_counts (b : batch) (rejected : bool) :
  counts_agree b → counts_agree (advance files b rejected).
Proof.
  unfold counts_agree, advance. intros Hb.
  destruct (state b), rejected, (inflight b), (chunks b); done.
Qed.

Lemma advance_summary (b : batch) (rejected : bool) :
  summary_agrees files b → summary_agrees files (advance files b rejected).
Proof.
  unfold summary_agrees. intros Hb ok s.
  destruct (advance_cases b rejected)
    as [[-> _] | [(_ & _ & ->) | [(_ & _ & _ & c & cs & _ & ->) | (_ & _ & Hinf & Hcs & ->)]]];
    [by apply Hb | done | done |].
  cbn. by intros [= <- <-].
Qed.

Lemma step_counts (b b' : batch) (e : event) :
  counts_agree b → step cbs files b e = Some b' → counts_agree b'.
Proof.
  intros Hb Hstep. destruct e as [i loaded total | i r | i].
  - cbn in Hstep. destruct (lookup_op i (inflight b)); [| done].
    destruct (onProgress cbs); by injection Hstep as <-.
  - apply step_settled in Hstep as (f & _ & ->).
    apply advance_counts. by apply (settle_try_counts i f r) in Hb.
  - apply step_rejected in Hstep as (f & _ & ->).
    apply advance_counts. by apply (settle_catch_counts i f) in Hb.
Qed.

Lemma step_summary (b b' : batch) (e : event) :
  summary_agrees files b → step cbs files b e = Some b' → summary_agrees files b'.
Proof.
  intros Hb Hstep.
  assert (∀ ok s, state b ≠ Resolved ok s) as Hrun.
  { intros ok s Hst. destruct (Hb ok s Hst) as (Hnil & _).
    by apply (step_needs_inflight _ _ _ Hstep). }
  destruct e as [i loaded total | i r | i].
  - cbn in Hstep. destruct (lookup_op i (inflight b)); [| done].
    intros ok s Hst. exfalso. apply (Hrun ok s).
    by destruct (onProgress cbs); injection Hstep as <-.
  - apply step_settled in Hstep as (f & _ & ->).
    apply advance_summary. intros ok s Hst. exfalso. apply (Hrun ok s).
    destruct (settle_try_frame i f r b) as (_ & _ & <-). exact Hst.
  - apply step_rejected in Hstep as (f & _ & ->).
    apply advance_summary. intros ok s Hst. exfalso. apply (Hrun ok s).
    destruct (settle_catch_frame i f b) as (_ & _ & <-). exact Hst.
Qed.

Lemma analyzeImages_counts : counts_agree (analyzeImages files).
Proof. by apply advance_counts. Qed.

Lemma analyzeImages_summary : summary_agrees files (analyzeImages files).
Proof. apply advance_summary. by intros ok s. Qed.

Lemma reachable_counts (b : batch) :
  reachable cbs files b → counts_agree b ∧ summary_agrees files b.
Proof.
  revert b. apply reachable_ind.
  - split; [apply analyzeImages_counts | apply analyzeImages_summary].
  - intros b e b' _ [Hc Hs] Hstep.
    split; [by apply (step_counts b b' e) | by apply (step_summary b b' e)].
Qed.

(** C8. After every event of a call, and so after every settlement and
    at the end, [completed] is the number of entries of [results] plus
    the number of entries of [errors]; the summary that the call returns
    has [total] equal to the number of files and
    [successful + failed] equal to [completed]. *)
Theorem completed_is_successes_plus_failures (b : batch) :
  reachable cbs files b →
  completed b = (length (results b) + length (errors b))%nat ∧
  ∀ ok s, state b = Resolved ok s →
    total s = length files ∧
    successful s = length (results b) ∧
    failed s = length (errors b) ∧
    (successful s + failed s)%nat = completed b.
Proof.
  intros Hb. destruct (reachable_counts b Hb) as [Hc Hs].
  split; [exact Hc |].
  intros ok s Hst. destruct (Hs ok s Hst) as (_ & _ & Ht & Hsu & Hf).
  repeat split; try done. rewrite Hsu, Hf. by symmetry.
Qed.

(** *** Admission by chunks *)

Lemma indexed_fst : (indexed files).*1 = seq 0 (length files).
Proof. unfold indexed. apply fst_zip. by rewrite length_seq. Qed.

Lemma drop_cons_inv {A : Type} `{Inhabited A} (n : nat) (l : list A) (x : A) (k : list A) :
  drop n l = x :: k → l !!! n = x ∧ drop (S n) l = k.
Proof.
  intros Hdrop.
  assert (l !! n = Some x) as Hn.
  { rewrite <- (Nat.add_0_r n), <- lookup_drop, Hdrop. reflexivity. }
  split; [by apply list_lookup_total_correct |].
  rewrite (drop_S l x n Hn) in Hdrop. by injection Hdrop.
Qed.

Lemma advance_pending (b : batch) (rejected : bool) :
  pending_ops (advance files b rejected) = pending_ops b.
Proof.
  unfold pending_ops.
  destruct (advance_cases b rejected)
    as [[-> _] | [(_ & _ & ->) | [(_ & _ & Hinf & c & cs & Hcs & ->) | (_ & _ & _ & _ & ->)]]];
    try done.
  cbn. by rewrite Hinf, Hcs.
Qed.

Lemma advance_structure (b : batch) (rejected : bool) :
  chunk_structure files b → chunk_structure files (advance files b rejected).
Proof.
  intros [k [Hcs Hsub]].
  destruct (advance_cases b rejected)
    as [[-> _] | [(_ & _ & ->) | [(_ & _ & Hinf & c & cs & Hc & ->) | (_ & _ & _ & _ & ->)]]];
    try by exists k.
  rewrite Hcs in Hc. apply drop_cons_inv in Hc as [<- <-].
  by exists (S k).
Qed.

Lemma analyzeImages_structure : chunk_structure files (analyzeImages files).
Proof.
  unfold analyzeImages.
  destruct (advance_cases (MkBatch 0 [] [] (make_chunks (indexed files)) [] Running []) false)
    as [[_ [H | [_ H]]] | [(_ & H & _) | [(_ & _ & _ & c & cs & Hc & ->) | (_ & _ & _ & Hc & ->)]]];
    try done.
  - cbn in Hc. exists 0%nat. cbn. rewrite Hc. done.
  - cbn in Hc. exists 0%nat. cbn. rewrite Hc. split; [done | apply sublist_nil_l].
Qed.

Lemma step_structure (b b' : batch) (e : event) :
  chunk_structure files b → step cbs files b e = Some b' → chunk_structure files b'.
Proof.
  intros Hb Hstep. destruct e as [i loaded total | i r | i].
  - cbn in Hstep. destruct (lookup_op i (inflight b)); [| done].
    destruct (onProgress cbs); by injection Hstep as <-.
  - apply step_settled in Hstep as (f & _ & ->).
    apply advance_structure.
    destruct Hb as [k [Hcs Hsub]].
    destruct (settle_try_frame i f r b) as (Hc & _ & _).
    exists k. cbn. split; [by rewrite Hc |].
    etrans; [apply sublist_filter | done].
  - apply step_rejected in Hstep as (f & _ & ->).
    apply advance_structure.
    destruct Hb as [k [Hcs Hsub]].
    destruct (settle_catch_frame i f b) as (Hc & _ & _).
    exists k. cbn. split; [by rewrite Hc |].
    etrans; [apply sublist_filter | done].
Qed.

Lemma reachable_structure (b : batch) :
  reachable cbs files b → chunk_structure files b.
Proof.
  revert b. apply reachable_ind.
  - apply analyzeImages_structure.
  - intros b e b' _ Hb Hstep. by apply (step_structure b b' e).
Qed.

Lemma indexed_lookup (p j : nat) (f : file) :
  indexed files !! p = Some (j, f) → j = p.
Proof.
  intros Hp.
  assert ((indexed files).*1 !! p = Some j) as Hj.
  { apply list_lookup_fmap_Some. by exists (j, f). }
  rewrite indexed_fst in Hj. apply lookup_seq in Hj as [-> _]. done.
Qed.

(** Operation [j] belongs to chunk number [j / 3]. *)
Lemma chunk_of_op (k j : nat) (f : file) (c : list op) :
  make_chunks (indexed files) !! k = Some c → (j, f) ∈ c →
  (j / CONCURRENT_LIMIT)%nat = k.
Proof.
  intros Hk Hj. apply chunk_loop_lookup in Hk. subst c.
  apply slice_elem in Hj as (q & Hq & Hj). apply indexed_lookup in Hj.
  symmetry. apply (Nat.div_unique _ _ _ q); [done |]. unfold CONCURRENT_LIMIT in *. lia.
Qed.

Lemma inflight_chunk (b : batch) (k j : nat) (f : file) :
  inflight b `sublist_of` (make_chunks (indexed files) !!! k) →
  (j, f) ∈ inflight b → (j / CONCURRENT_LIMIT)%nat = k.
Proof.
  intros Hsub Hj. rewrite list_lookup_total_alt in Hsub.
  destruct (make_chunks (indexed files) !! k) as [c |] eqn:Hk; cbn in Hsub.
  - apply (chunk_of_op k j f c Hk). by apply (elem_of_sublist _ _ _ Hj).
  - apply sublist_nil_r in Hsub. rewrite Hsub in Hj. by apply elem_of_nil in Hj.
Qed.

Lemma queued_chunk (k j : nat) (f : file) :
  (j, f) ∈ concat (drop (S k) (make_chunks (indexed files))) →
  (k < j / CONCURRENT_LIMIT)%nat.
Proof.
  intros Hj. apply list_elem_of_In, in_concat in Hj as (c & Hc & Hjc).
  apply list_elem_of_In in Hc, Hjc.
  apply list_elem_of_lookup in Hc as [q Hq]. rewrite lookup_drop in Hq.
  rewrite (chunk_of_op _ j f c Hq Hjc). lia.
Qed.


(** *** Every operation settles once *)

Lemma remove_op_cons_eq (i : nat) (g : file) (ops : list op) :
  remove_op i ((i, g) :: ops) = remove_op i ops.
Proof. unfold remove_op. by rewrite filter_cons_False by (cbn; congruence). Qed.

Lemma remove_op_cons_ne (i j : nat) (g : file) (ops : list op) :
  j ≠ i → remove_op i ((j, g) :: ops) = (j, g) :: remove_op i ops.
Proof. intros Hne. unfold remove_op. by rewrite filter_cons_True. Qed.

Lemma remove_op_absent (i : nat) (ops : list op) :
  i ∉ ops.*1 → remove_op i ops = ops.
Proof.
  induction ops as [| [j g] ops IH]; [done |].
  rewrite fmap_cons. intros Hi. apply not_elem_of_cons in Hi as [Hne Hi].
  rewrite remove_op_cons_ne by (cbn in *; congruence). f_equal. by apply IH.
Qed.

Lemma remove_op_perm (i : nat) (f : file) (ops : list op) :
  NoDup ops.*1 → lookup_op i ops = Some f → ops ≡ₚ (i, f) :: remove_op i ops.
Proof.
  induction ops as [| [j g] ops IH]; [done |].
  rewrite fmap_cons. cbn [lookup_op].
  intros Hnd Hlook. apply NoDup_cons in Hnd as [Hj Hnd].
  destruct (Nat.eqb_spec j i) as [-> | Hne].
  - injection Hlook as ->. by rewrite remove_op_cons_eq, remove_op_absent.
  - rewrite remove_op_cons_ne by done.
    rewrite (IH Hnd Hlook) at 1. apply Permutation_swap.
Qed.

Lemma analyzeImages_pending : pending_ops (analyzeImages files) = indexed files.
Proof. unfold analyzeImages. rewrite advance_pending. apply make_chunks_concat. Qed.

Lemma step_pending (b b' : batch) (e : event) :
  NoDup (pending_ops b).*1 → step cbs files b e = Some b' →
  match e with
  | UploadProgress _ _ _ => pending_ops b' = pending_ops b
  | Settled i _ | Rejected i => (pending_ops b).*1 ≡ₚ i :: (pending_ops b').*1
  end.
Proof.
  intros Hnd Hstep. destruct e as [i loaded total | i r | i].
  - cbn in Hstep. destruct (lookup_op i (inflight b)); [| done].
    destruct (onProgress cbs); by injection Hstep as <-.
  - apply (step_settles b b' _ i) in Hstep
      as (f & b1 & rej & Hlook & Hc & _ & _ & ->); [| done].
    rewrite advance_pending. unfold pending_ops in *. cbn. rewrite Hc.
    rewrite fmap_app in Hnd. apply NoDup_app in Hnd as (Hnd & _ & _).
    rewrite !fmap_app. rewrite (remove_op_perm i f (inflight b) Hnd Hlook) at 1.
    done.
  - apply (step_settles b b' _ i) in Hstep
      as (f & b1 & rej & Hlook & Hc & _ & _ & ->); [| done].
    rewrite advance_pending. unfold pending_ops in *. cbn. rewrite Hc.
    rewrite fmap_app in Hnd. apply NoDup_app in Hnd as (Hnd & _ & _).
    rewrite !fmap_app. rewrite (remove_op_perm i f (inflight b) Hnd Hlook) at 1.
    done.
Qed.

Lemma reachable_pending_nodup (b : batch) :
  reachable cbs files b → NoDup (pending_ops b).*1.
Proof.
  revert b. apply reachable_ind.
  - rewrite analyzeImages_pending, indexed_fst. apply NoDup_seq.
  - intros b e b' _ Hnd Hstep. pose proof (step_pending b b' e Hnd Hstep) as Hp.
    destruct e; [by rewrite Hp | |];
      rewrite Hp in Hnd; by apply NoDup_cons in Hnd as [_ Hnd].
Qed.

Lemma advance_frame (b : batch) (rejected : bool) :
  completed (advance files b rejected) = completed b ∧
  results (advance files b rejected) = results b ∧
  errors (advance files b rejected) = errors b ∧
  calls (advance files b rejected) = calls b.
Proof.
  destruct (advance_cases b rejected)
    as [[-> _] | [(_ & _ & ->) | [(_ & _ & _ & c & cs & _ & ->) | (_ & _ & _ & _ & ->)]]];
    done.
Qed.

(** With callbacks that return, a settlement goes through the [try]
    block only: one more completed operation, one call of each callback
    that is given, in this order, and a promise that resolves. *)
Lemma settle_try_returns (i : nat) (f : file) (r : analyze_result) (b : batch) :
  returns_normally cbs →
  (settle_try cbs files i f r b).2 = false ∧
  completed (settle_try cbs files i f r b).1 = S (completed b) ∧
  calls (settle_try cbs files i f r b).1 =
    calls b
    ++ match onImageComplete cbs with
       | Some _ =>
           [CompleteCall i (settled_record f r)
              (completed (settle_try cbs files i f r b).1)
              (results (settle_try cbs files i f r b).1)
              (errors (settle_try cbs files i f r b).1)]
       | None => []
       end
    ++ match onProgress cbs with
       | Some _ =>
           [ProgressCall (FromSettlement i)
              (settled_percent (completed (settle_try cbs files i f r b).1)
                               (length files))]
       | None => []
       end.
Proof.
  intros [Hp Hc].
  settle_cases;
    try match goal with
        | H : throws (?c ?x) = true |- _ =>
            first [rewrite (Hc c x eq_refl) in H | rewrite (Hp c x eq_refl) in H];
            discriminate H
        end;
    rewrite ?app_nil_r, <- ?app_assoc; done.
Qed.

(** With callbacks that return, the [catch] block counts the operation,
    reports its record to [onImageComplete] when it is given, reports
    nothing to [onProgress], and the promise resolves. *)
Lemma settle_catch_returns (i : nat) (f : file) (b : batch) :
  returns_normally cbs →
  (settle_catch cbs i f b).2 = false ∧
  completed (settle_catch cbs i f b).1 = S (completed b) ∧
  calls (settle_catch cbs i f b).1 =
    calls b
    ++ match onImageComplete cbs with
       | Some _ =>
           [CompleteCall i (ImageError f "Unexpected error during processing" None)
              (completed (settle_catch cbs i f b).1)
              (results (settle_catch cbs i f b).1)
              (errors (settle_catch cbs i f b).1)]
       | None => []
       end.
Proof.
  intros [Hp Hc]. unfold settle_catch.
  destruct (onImageComplete cbs) as [cb |] eqn:Hcb; cbn; [| by rewrite app_nil_r].
  by rewrite (Hc cb _ eq_refl).
Qed.

(** *** The snapshots seen by onImageComplete *)

Lemma settle_try_snapshots (i : nat) (f : file) (r : analyze_result) (b : batch) :
  counts_agree b → Forall snapshot_ok (calls b) →
  Forall snapshot_ok (calls (settle_try cbs files i f r b).1).
Proof.
  unfold counts_agree. intros Hb Hcalls.
  settle_cases;
    repeat (apply Forall_app; split); try done;
    apply Forall_singleton; cbn; try done;
    rewrite ?length_app, ?last_snoc; cbn; (split; [lia | auto]).
Qed.

Lemma settle_catch_snapshots (i : nat) (f : file) (b : batch) :
  counts_agree b → Forall snapshot_ok (calls b) →
  Forall snapshot_ok (calls (settle_catch cbs i f b).1).
Proof.
  unfold counts_agree. intros Hb Hcalls.
  settle_cases;
    repeat (apply Forall_app; split); try done;
    apply Forall_singleton; cbn; try done;
    rewrite ?length_app, ?last_snoc; cbn; (split; [lia | auto]).
Qed.

Lemma reachable_snapshots (b : batch) :
  reachable cbs files b → Forall snapshot_ok (calls b).
Proof.
  intros Hb. enough (counts_agree b ∧ Forall snapshot_ok (calls b)) as [_ H] by done.
  revert b Hb. apply reachable_ind.
  - split; [apply analyzeImages_counts |].
    destruct (advance_frame (MkBatch 0 [] [] (make_chunks (indexed files)) [] Running []) false)
      as (_ & _ & _ & Hcalls).
    unfold analyzeImages. rewrite Hcalls. constructor.
  - intros b e b' _ [Hc Hs] Hstep. split; [by apply (step_counts b b' e) |].
    destruct e as [i loaded total | i r | i].
    + cbn in Hstep. destruct (lookup_op i (inflight b)); [| done].
      destruct (onProgress cbs); injection Hstep as <-; [| done].
      cbn. apply Forall_app. split; [done | by apply Forall_singleton].
    + apply step_settled in Hstep as (f & _ & ->).
      destruct (advance_frame
                  (set_inflight (settle_try cbs files i f r b).1 (remove_op i (inflight b)))
                  (settle_try cbs files i f r b).2) as (_ & _ & _ & ->).
      cbn. by apply settle_try_snapshots.
    + apply step_rejected in Hstep as (f & _ & ->).
      destruct (advance_frame
                  (set_inflight (settle_catch cbs i f b).1 (remove_op i (inflight b)))
                  (settle_catch cbs i f b).2) as (_ & _ & _ & ->).
      cbn. by apply settle_catch_snapshots.
Qed.

Lemma completed_ops_app (l k : list call) :
  completed_ops (l ++ k) = completed_ops l ++ completed_ops k.
Proof. apply omap_app. Qed.

Lemma progress_values_app (l k : list call) :
  progress_values (l ++ k) = progress_values l ++ progress_values k.
Proof. apply omap_app. Qed.

Lemma settlement_values_app (l k : list call) :
  settlement_values (l ++ k) = settlement_values l ++ settlement_values k.
Proof. apply omap_app. Qed.

(** The calls of a state after an event, when the callbacks return. *)
Lemma step_calls_returns (b b' : batch) (i : nat) (r : analyze_result) :
  returns_normally cbs → step cbs files b (Settled i r) = Some b' →
  completed b' = S (completed b) ∧
  ∃ rec rs es,
    calls b' =
      calls b
      ++ match onImageComplete cbs with
         | Some _ => [CompleteCall i rec (S (completed b)) rs es]
         | None => []
         end
      ++ match onProgress cbs with
         | Some _ =>
             [ProgressCall (FromSettlement i)
                (settled_percent (S (completed b)) (length files))]
         | None => []
         end.
Proof.
  intros Hret Hstep. apply step_settled in Hstep as (f & _ & ->).
  destruct (settle_try_returns i f r b Hret) as (_ & Hc & Hcalls).
  destruct (advance_frame
              (set_inflight (settle_try cbs files i f r b).1 (remove_op i (inflight b)))
              (settle_try cbs files i f r b).2) as (-> & _ & _ & ->).
  cbn. split; [exact Hc |].
  rewrite Hcalls, Hc. by eexists _, _, _.
Qed.

Lemma step_rejected_returns (b b' : batch) (i : nat) :
  returns_normally cbs → step cbs files b (Rejected i) = Some b' →
  completed b' = S (completed b) ∧
  ∃ rec rs es,
    calls b' =
      calls b
      ++ match onImageComplete cbs with
         | Some _ => [CompleteCall i rec (S (completed b)) rs es]
         | None => []
         end.
Proof.
  intros Hret Hstep. apply step_rejected in Hstep as (f & _ & ->).
  destruct (settle_catch_returns i f b Hret) as (_ & Hc & Hcalls).
  destruct (advance_frame
              (set_inflight (settle_catch cbs i f b).1 (remove_op i (inflight b)))
              (settle_catch cbs i f b).2) as (-> & _ & _ & ->).
  cbn. split; [exact Hc |].
  rewrite Hcalls, Hc. by eexists _, _, _.
Qed.

Lemma reachable_accounted (b : batch) (cb : item_record → cb_result) :
  returns_normally cbs → onImageComplete cbs = Some cb →
  reachable cbs files b → every_op_accounted files b.
Proof.
  intros Hret Hcb. revert b. apply reachable_ind.
  - unfold every_op_accounted. rewrite analyzeImages_pending, indexed_fst.
    destruct (advance_frame (MkBatch 0 [] [] (make_chunks (indexed files)) [] Running []) false)
      as (_ & _ & _ & Hcalls).
    unfold analyzeImages. by rewrite Hcalls.
  - unfold every_op_accounted. intros b e b' Hb Hacc Hstep.
    pose proof (step_pending b b' e (reachable_pending_nodup b Hb) Hstep) as Hp.
    destruct e as [i loaded total | i r | i].
    + rewrite Hp. cbn in Hstep. destruct (lookup_op i (inflight b)); [| done].
      destruct (onProgress cbs); injection Hstep as <-; [| done].
      cbn. rewrite completed_ops_app. cbn. by rewrite app_nil_r.
    + destruct (step_calls_returns b b' i r Hret Hstep) as (_ & rec & rs & es & ->).
      rewrite Hcb, !completed_ops_app.
      rewrite Hp in Hacc. rewrite <- Hacc.
      destruct (onProgress cbs); cbn; rewrite ?app_nil_r, <- ?app_assoc; done.
    + destruct (step_rejected_returns b b' i Hret Hstep) as (_ & rec & rs & es & ->).
      rewrite Hcb, !completed_ops_app.
      rewrite Hp in Hacc. rewrite <- Hacc.
      cbn. by rewrite <- ?app_assoc.
Qed.

(** *** The record handed to onImageComplete *)

Lemma indexed_elem (i : nat) (f : file) :
  (i, f) ∈ indexed files → files !! i = Some f.
Proof.
  intros Hin. apply list_elem_of_lookup in Hin as [p Hp].
  pose proof (indexed_lookup p i f Hp) as ->.
  assert ((indexed files).*2 !! p = Some f) as Hf.
  { apply list_lookup_fmap_Some. by exists (p, f). }
  unfold indexed in Hf. by rewrite snd_zip in Hf by (rewrite length_seq; lia).
Qed.

Lemma step_pending_sublist (b b' : batch) (e : event) :
  step cbs files b e = Some b' → pending_ops b' `sublist_of` pending_ops b.
Proof.
  intros Hstep. destruct e as [i loaded total | i r | i].
  - cbn in Hstep. destruct (lookup_op i (inflight b)); [| done].
    by destruct (onProgress cbs); injection Hstep as <-.
  - apply step_settled in Hstep as (f & _ & ->).
    rewrite advance_pending. unfold pending_ops. cbn.
    destruct (settle_try_frame i f r b) as (-> & _ & _).
    apply sublist_app; [apply sublist_filter | done].
  - apply step_rejected in Hstep as (f & _ & ->).
    rewrite advance_pending. unfold pending_ops. cbn.
    destruct (settle_catch_frame i f b) as (-> & _ & _).
    apply sublist_app; [apply sublist_filter | done].
Qed.

Lemma reachable_pending_indexed (b : batch) :
  reachable cbs files b → pending_ops b `sublist_of` indexed files.
Proof.
  revert b. apply reachable_ind.
  - by rewrite analyzeImages_pending.
  - intros b e b' _ Hsub Hstep. etrans; [by apply (step_pending_sublist b b' e) | done].
Qed.

Lemma settle_catch_reports (i : nat) (f : file) (b : batch) :
  files !! i = Some f → Forall (reports_file files) (calls b) →
  Forall (reports_file files) (calls (settle_catch cbs i f b).1).
Proof.
  intros Hf Hcalls.
  settle_cases; repeat (apply Forall_app; split); try done;
    by apply Forall_singleton.
Qed.

Lemma settle_try_reports (i : nat) (f : file) (r : analyze_result) (b : batch) :
  files !! i = Some f → Forall (reports_file files) (calls b) →
  Forall (reports_file files) (calls (settle_try cbs files i f r b).1).
Proof.
  intros Hf Hcalls.
  settle_cases; repeat (apply Forall_app; split); try done;
    by apply Forall_singleton.
Qed.

Lemma reachable_reports (b : batch) :
  reachable cbs files b → Forall (reports_file files) (calls b).
Proof.
  revert b. apply reachable_ind.
  - destruct (advance_frame (MkBatch 0 [] [] (make_chunks (indexed files)) [] Running []) false)
      as (_ & _ & _ & Hcalls).
    unfold analyzeImages. rewrite Hcalls. constructor.
  - intros b e b' Hb Hcalls Hstep. destruct e as [i loaded total | i r | i].
    + cbn in Hstep. destruct (lookup_op i (inflight b)); [| done].
      destruct (onProgress cbs); injection Hstep as <-; [| done].
      cbn. apply Forall_app. split; [done | by apply Forall_singleton].
    + apply step_settled in Hstep as (f & Hlook & ->).
      destruct (advance_frame
                  (set_inflight (settle_try cbs files i f r b).1 (remove_op i (inflight b)))
                  (settle_try cbs files i f r b).2) as (_ & _ & _ & ->).
      unfold set_inflight. cbn [calls]. apply settle_try_reports; [| done].
      apply indexed_elem. apply (elem_of_sublist (pending_ops b)).
      * unfold pending_ops. apply elem_of_app. left. by apply lookup_op_elem.
      * by apply reachable_pending_indexed.
    + apply step_rejected in Hstep as (f & Hlook & ->).
      destruct (advance_frame
                  (set_inflight (settle_catch cbs i f b).1 (remove_op i (inflight b)))
                  (settle_catch cbs i f b).2) as (_ & _ & _ & ->).
      unfold set_inflight. cbn [calls]. apply settle_catch_reports; [| done].
      apply indexed_elem. apply (elem_of_sublist (pending_ops b)).
      * unfold pending_ops. apply elem_of_app. left. by apply lookup_op_elem.
      * by apply reachable_pending_indexed.
Qed.

(** *** How often an operation is reported *)

(** When [onImageComplete] is given, a settlement invokes it for its
    operation once, or twice when a callback throws in the [try]
    block. *)
Lemma settle_try_completed_ops
    (i : nat) (f : file) (r : analyze_result) (b : batch) (cb : item_record → cb_result) :
  onImageComplete cbs = Some cb →
  completed_ops (calls (settle_try cbs files i f r b).1) = completed_ops (calls b) ++ [i] ∨
  completed_ops (calls (settle_try cbs files i f r b).1) = completed_ops (calls b) ++ [i; i].
Proof.
  intros Hcb. unfold settle_try, settle_catch. rewrite Hcb.
  destruct r; cbn;
    repeat (match goal with
            | |- context [if throws ?x then _ else _] => destruct (throws x)
            | |- context [match onProgress ?c with _ => _ end] =>
                destruct (onProgress c)
            end; cbn);
    rewrite ?completed_ops_app; cbn; rewrite ?app_nil_r, <- ?app_assoc; auto.
Qed.

Lemma settle_catch_completed_ops
    (i : nat) (f : file) (b : batch) (cb : item_record → cb_result) :
  onImageComplete cbs = Some cb →
  completed_ops (calls (settle_catch cbs i f b).1) = completed_ops (calls b) ++ [i].
Proof.
  intros Hcb. unfold settle_catch. rewrite Hcb. cbn.
  by rewrite completed_ops_app.
Qed.

Lemma settled_ops_snoc (evs : list event) (e : event) :
  settled_ops (evs ++ [e]) =
    settled_ops evs
    ++ match e with
       | Settled i _ | Rejected i => [i]
       | UploadProgress _ _ _ => []
       end.
Proof. unfold settled_ops. rewrite omap_app. by destruct e. Qed.

(** What a step adds to the operations reported. *)
Lemma step_completed_ops (b b' : batch) (e : event) (cb : item_record → cb_result) :
  onImageComplete cbs = Some cb → step cbs files b e = Some b' →
  match e with
  | UploadProgress _ _ _ => completed_ops (calls b') = completed_ops (calls b)
  | Settled i _ | Rejected i =>
      (completed_ops (calls b') = completed_ops (calls b) ++ [i] ∨
       completed_ops (calls b') = completed_ops (calls b) ++ [i; i]) ∧
      (returns_normally cbs →
       completed_ops (calls b') = completed_ops (calls b) ++ [i])
  end.
Proof.
  intros Hcb Hstep. destruct e as [i loaded total | i r | i].
  - cbn in Hstep. destruct (lookup_op i (inflight b)); [| done].
    destruct (onProgress cbs); injection Hstep as <-; [| done].
    cbn. rewrite completed_ops_app. cbn. by rewrite app_nil_r.
  - split.
    + apply step_settled in Hstep as (f & _ & ->).
      destruct (advance_frame
                  (set_inflight (settle_try cbs files i f r b).1 (remove_op i (inflight b)))
                  (settle_try cbs files i f r b).2) as (_ & _ & _ & ->).
      unfold set_inflight. cbn [calls]. by apply (settle_try_completed_ops i f r b cb).
    + intros Hret.
      destruct (step_calls_returns b b' i r Hret Hstep) as (_ & rec & rs & es & ->).
      rewrite Hcb, !completed_ops_app.
      destruct (onProgress cbs); cbn; by rewrite ?app_nil_r.
  - apply step_rejected in Hstep as (f & _ & ->).
    destruct (advance_frame
                (set_inflight (settle_catch cbs i f b).1 (remove_op i (inflight b)))
                (settle_catch cbs i f b).2) as (_ & _ & _ & ->).
    unfold set_inflight. cbn [calls].
    rewrite (settle_catch_completed_ops i f b cb Hcb). auto.
Qed.

(** Along a run, the operations reported to [onImageComplete] are the
    operations that have settled, each once or twice, and in the order
    of the settlements, each once, when the callbacks return. *)
Lemma run_completed_ops (cb : item_record → cb_result) (evs : list event) (b : batch) :
  onImageComplete cbs = Some cb →
  run cbs files (analyzeImages files) evs = Some b →
  settled_ops evs ⊆ completed_ops (calls b) ∧
  completed_ops (calls b) ⊆+ settled_ops evs ++ settled_ops evs ∧
  (returns_normally cbs → completed_ops (calls b) = settled_ops evs).
Proof.
  intros Hcb. revert evs b. apply run_ind.
  - destruct (advance_frame (MkBatch 0 [] [] (make_chunks (indexed files)) [] Running []) false)
      as (_ & _ & _ & Hcalls).
    unfold analyzeImages. rewrite Hcalls. by split_and!.
  - intros evs b e b' _ (Hsub & Hms & Heq) Hstep.
    pose proof (step_completed_ops b b' e cb Hcb Hstep) as He.
    rewrite settled_ops_snoc.
    destruct e as [i loaded total | i r | i];
      [rewrite He, app_nil_r; by split_and! | |];
      destruct He as [Hco Hret];
      (split_and!;
       [ intros j Hj; apply elem_of_app in Hj as [Hj | Hj];
         [ apply Hsub in Hj; destruct Hco as [-> | ->]; apply elem_of_app; by left
         | apply list_elem_of_singleton in Hj as ->;
           destruct Hco as [-> | ->]; apply elem_of_app; right; left ]
       | trans ((settled_ops evs ++ settled_ops evs) ++ [i; i]);
         [ destruct Hco as [-> | ->];
           (apply submseteq_app; [done |]);
           [ apply submseteq_cons, reflexivity | reflexivity ]
         | apply Permutation_submseteq; solve_Permutation ]
       | intros H; rewrite (Hret H), (Heq H); done ]).
Qed.


(** *** The values handed to onProgress *)

Lemma Sorted_snoc {A : Type} (R : A → A → Prop) (l : list A) (v : A) :
  Sorted R l → Forall (λ x, R x v) l → Sorted R (l ++ [v]).
Proof.
  induction l as [| a l IH]; intros Hs Hb; cbn.
  - by repeat constructor.
  - apply Sorted_inv in Hs as [Hs Hhd]. apply Forall_cons in Hb as [Ha Hb].
    constructor; [by apply IH |].
    destruct l as [| a' l]; cbn; constructor; [done |].
    by apply HdRel_inv in Hhd.
Qed.

(** An event is handled only in a call on at least one file. *)
Lemma step_files_nonempty (b b' : batch) (e : event) :
  reachable cbs files b → step cbs files b e = Some b' → (0 < length files)%nat.
Proof.
  intros Hb Hstep. pose proof (step_needs_inflight b b' e Hstep) as Hinf.
  pose proof (reachable_pending_indexed b Hb) as Hsub.
  destruct files as [| f fs]; [| cbn; lia].
  apply sublist_nil_r in Hsub. unfold pending_ops in Hsub.
  by apply app_eq_nil in Hsub as [? _].
Qed.

(** A settlement reports at most one value, computed from a counter
    that it has already advanced. *)
Lemma settle_try_settlement (i : nat) (f : file) (r : analyze_result) (b : batch) :
  (completed b < completed (settle_try cbs files i f r b).1)%nat ∧
  (settlement_values (calls (settle_try cbs files i f r b).1) =
     settlement_values (calls b) ∨
   settlement_values (calls (settle_try cbs files i f r b).1) =
     settlement_values (calls b)
     ++ [settled_percent (S (completed b)) (length files)]).
Proof.
  settle_cases; rewrite ?settlement_values_app; cbn; rewrite ?app_nil_r;
    (split; [lia | auto]).
Qed.

(** The [catch] block advances the counter and reports no value. *)
Lemma settle_catch_settlement (i : nat) (f : file) (b : batch) :
  (completed b < completed (settle_catch cbs i f b).1)%nat ∧
  progress_values (calls (settle_catch cbs i f b).1) = progress_values (calls b) ∧
  settlement_values (calls (settle_catch cbs i f b).1) = settlement_values (calls b).
Proof.
  settle_cases; rewrite ?settlement_values_app, ?progress_values_app; cbn;
    rewrite ?app_nil_r; (split; [lia | auto]).
Qed.

Section Bounded.
Hypothesis files_bounded : Z.of_nat (length files) < 2 ^ 53.

Lemma bound_grows (b : batch) (c : nat) (l : list Double.double) :
  (0 < length files)%nat → (completed b ≤ c)%nat →
  Forall (λ v, Double.dle v (settled_percent (completed b) (length files))) l →
  Forall (λ v, Double.dle v (settled_percent c (length files))) l.
Proof.
  intros Hn Hc Hb. eapply Forall_impl; [exact Hb |]. cbn. intros v Hv.
  eapply dle_trans; [exact Hv |]. by apply settled_percent_mono.
Qed.

Lemma step_settlements (b b' : batch) (e : event) :
  reachable cbs files b →
  settlements_bounded files b → step cbs files b e = Some b' → settlements_bounded files b'.
Proof.
  intros Hr [Hs Hb] Hstep.
  pose proof (step_files_nonempty b b' e Hr Hstep) as Hn.
  destruct e as [i loaded total | i r | i].
  - cbn in Hstep. destruct (lookup_op i (inflight b)); [| done].
    destruct (onProgress cbs); injection Hstep as <-; [| done].
    unfold settlements_bounded. cbn. rewrite settlement_values_app. cbn.
    by rewrite app_nil_r.
  - apply step_settled in Hstep as (f & _ & ->).
    destruct (advance_frame
                (set_inflight (settle_try cbs files i f r b).1 (remove_op i (inflight b)))
                (settle_try cbs files i f r b).2) as (Hc & _ & _ & Hcalls).
    unfold settlements_bounded. rewrite Hc, Hcalls.
    unfold set_inflight. cbn [calls completed].
    destruct (settle_try_settlement i f r b) as [Hlt [-> | ->]].
    + split; [done |]. apply (bound_grows b); [done | lia | done].
    + split.
      * apply Sorted_snoc; [done |]. apply (bound_grows b); [done | lia | done].
      * apply Forall_app. split.
        -- apply (bound_grows b); [done | lia | done].
        -- apply Forall_singleton. apply settled_percent_mono; [lia | done | done].
  - apply step_rejected in Hstep as (f & _ & ->).
    destruct (advance_frame
                (set_inflight (settle_catch cbs i f b).1 (remove_op i (inflight b)))
                (settle_catch cbs i f b).2) as (Hc & _ & _ & Hcalls).
    unfold settlements_bounded. rewrite Hc, Hcalls.
    unfold set_inflight. cbn [calls completed].
    destruct (settle_catch_settlement i f b) as (Hlt & _ & ->).
    split; [done |]. apply (bound_grows b); [done | lia | done].
Qed.

Lemma reachable_settlements (b : batch) :
  reachable cbs files b → settlements_bounded files b.
Proof.
  revert b. apply reachable_ind.
  - destruct (advance_frame (MkBatch 0 [] [] (make_chunks (indexed files)) [] Running []) false)
      as (_ & _ & _ & Hcalls).
    unfold settlements_bounded, analyzeImages. rewrite Hcalls. cbn.
    split; constructor.
  - intros b e b' Hr Hb Hstep. by apply (step_settlements b b' e).
Qed.

End Bounded.

(** With callbacks that return, [completed] counts the operations that
    have settled. *)
Lemma reachable_completed (b : batch) :
  returns_normally cbs → reachable cbs files b →
  (completed b + length (pending_ops b) = length files)%nat.
Proof.
  intros Hret. revert b. apply reachable_ind.
  - rewrite analyzeImages_pending.
    destruct (advance_frame (MkBatch 0 [] [] (make_chunks (indexed files)) [] Running []) false)
      as (Hc & _).
    unfold analyzeImages. rewrite Hc. cbn [completed].
    pose proof (f_equal length indexed_fst) as Hlen.
    rewrite length_fmap, length_seq in Hlen. exact Hlen.
  - intros b e b' Hb Hcount Hstep.
    pose proof (step_pending b b' e (reachable_pending_nodup b Hb) Hstep) as Hp.
    destruct e as [i loaded total | i r | i].
    + rewrite Hp. cbn in Hstep. destruct (lookup_op i (inflight b)); [| done].
      by destruct (onProgress cbs); injection Hstep as <-.
    + destruct (step_calls_returns b b' i r Hret Hstep) as (-> & _).
      apply Permutation_length in Hp. rewrite length_cons, !length_fmap in Hp.
      unfold op in *. lia.
    + destruct (step_rejected_returns b b' i Hret Hstep) as (-> & _).
      apply Permutation_length in Hp. rewrite length_cons, !length_fmap in Hp.
      unfold op in *. lia.
Qed.

(** When the settlement of an analysis that resolved makes the call
    return its summary, the value that it hands to [onProgress] is 100. *)
Lemma resolved_last_progress
    (cb : Double.double → cb_result) (b b' : batch) (i : nat) (r : analyze_result)
    (ok : bool) (s : summary) :
  Z.of_nat (length files) < 2 ^ 53 →
  returns_normally cbs → onProgress cbs = Some cb →
  reachable cbs files b → step cbs files b (Settled i r) = Some b' →
  state b' = Resolved ok s →
  last (progress_values (calls b')) = Some Double.hundred.
Proof.
  intros Hlen Hret Hcb Hb Hstep Hst.
  pose proof (reachable_step b b' _ Hb Hstep) as Hb'.
  destruct (reachable_counts b' Hb') as [_ Hs].
  destruct (Hs ok s Hst) as (Hinf & Hcs & _).
  pose proof (step_pending b b' _ (reachable_pending_nodup b Hb) Hstep) as Hp.
  cbv beta iota in Hp.
  pose proof (reachable_completed b Hret Hb) as Hcount.
  pose proof (step_files_nonempty b b' _ Hb Hstep) as Hn.
  destruct (step_calls_returns b b' i r Hret Hstep) as (_ & rec & rs & es & ->).
  rewrite Hcb, !progress_values_app.
  change (progress_values [ProgressCall ?src ?v]) with [v].
  rewrite app_assoc, last_snoc. f_equal.
  unfold pending_ops in Hp at 2. rewrite Hinf, Hcs in Hp.
  apply Permutation_length in Hp. rewrite length_fmap in Hp. cbn in Hp.
  unfold op in *.
  replace (S (completed b)) with (length files) by lia.
  by apply settled_percent_all.
Qed.

(** The settlement of an analysis that rejected hands nothing to
    [onProgress]. *)
Lemma step_rejected_progress (b b' : batch) (i : nat) :
  step cbs files b (Rejected i) = Some b' →
  progress_values (calls b') = progress_values (calls b).
Proof.
  intros Hstep. apply step_rejected in Hstep as (f & _ & ->).
  destruct (advance_frame
              (set_inflight (settle_catch cbs i f b).1 (remove_op i (inflight b)))
              (settle_catch cbs i f b).2) as (_ & _ & _ & ->).
  unfold set_inflight. cbn [calls].
  by destruct (settle_catch_settlement i f b) as (_ & -> & _).
Qed.

Lemma never_below_snoc (l : list call) (c : call) :
  never_below_settled l →
  match c with
  | ProgressCall _ v => Forall (λ x, not_below x v) (settlement_values l)
  | CompleteCall _ _ _ _ _ => True
  end →
  never_below_settled (l ++ [c]).
Proof.
  intros Hl Hc j src v Hj.
  apply lookup_app_Some in Hj as [Hj | [Hlen Hj]].
  - rewrite take_app_le by (apply lookup_lt_Some in Hj; lia).
    by apply (Hl j src v).
  - destruct (j - length l)%nat eqn:Hdiff; [| done].
    injection Hj as ->.
    assert (j = length l) as -> by lia.
    by rewrite take_app_length.
Qed.

Lemma settle_try_never_below (i : nat) (f : file) (r : analyze_result) (b : batch) :
  never_below_settled (calls b) →
  Forall (λ v, Double.dle v (settled_percent (S (completed b)) (length files)))
         (settlement_values (calls b)) →
  never_below_settled (calls (settle_try cbs files i f r b).1).
Proof.
  intros Hl Hbound.
  settle_cases;
    repeat (apply never_below_snoc;
            [| first
                 [ exact I
                 | rewrite ?settlement_values_app; cbn; rewrite ?app_nil_r;
                   eapply Forall_impl; [exact Hbound |]; cbn; intros x Hx;
                   by right ]]);
    exact Hl.
Qed.

Lemma settle_catch_never_below (i : nat) (f : file) (b : batch) :
  never_below_settled (calls b) →
  never_below_settled (calls (settle_catch cbs i f b).1).
Proof.
  intros Hl. settle_cases; [by apply never_below_snoc | done].
Qed.

(** Along a run whose callbacks return, no value handed to [onProgress]
    is below a value reported by an earlier settlement. *)
Lemma run_never_below (evs : list event) (b : batch) :
  Z.of_nat (length files) < 2 ^ 53 → returns_normally cbs →
  run cbs files (analyzeImages files) evs = Some b →
  never_below_settled (calls b).
Proof.
  intros Hlen Hret. revert evs b. apply run_ind.
  - destruct (advance_frame (MkBatch 0 [] [] (make_chunks (indexed files)) [] Running []) false)
      as (_ & _ & _ & Hcalls).
    unfold analyzeImages. rewrite Hcalls. by intros j src v Hj.
  - intros evs b1 e b Hrun IH Hstep.
    assert (reachable cbs files b1) as Hr by (by exists evs).
    destruct (reachable_settlements Hlen b1 Hr) as [_ Hbound].
    pose proof (step_files_nonempty b1 b e Hr Hstep) as Hn.
    pose proof (reachable_completed b1 Hret Hr) as Hcount.
    destruct e as [i loaded total | i r | i].
    + cbn in Hstep. destruct (lookup_op i (inflight b1)); [| done].
      destruct (onProgress cbs); injection Hstep as <-; [| done].
      cbn. apply never_below_snoc; [done |].
      eapply Forall_impl; [exact Hbound |]. cbn. intros x Hx.
      destruct (upload_percent_above (completed b1) (percentCompleted loaded total)
                  (length files)) as [Hnan | Hle];
        [lia | done | done | apply percentCompleted_nonnegative | by left |].
      right. eapply dle_trans; [exact Hx | exact Hle].
    + apply step_settled in Hstep as (f & _ & ->).
      destruct (advance_frame
                  (set_inflight (settle_try cbs files i f r b1).1 (remove_op i (inflight b1)))
                  (settle_try cbs files i f r b1).2) as (_ & _ & _ & ->).
      unfold set_inflight. cbn [calls]. apply settle_try_never_below; [done |].
      apply (bound_grows Hlen b1); [done | lia | done].
    + apply step_rejected in Hstep as (f & _ & ->).
      destruct (advance_frame
                  (set_inflight (settle_catch cbs i f b1).1 (remove_op i (inflight b1)))
                  (settle_catch cbs i f b1).2) as (_ & _ & _ & ->).
      unfold set_inflight. cbn [calls]. by apply settle_catch_never_below.
Qed.

(** With callbacks that return, no settlement reports more than 100. *)
Lemma settlements_at_most_hundred (b : batch) :
  Z.of_nat (length files) < 2 ^ 53 → returns_normally cbs →
  reachable cbs files b →
  Forall (λ v, Double.dle v Double.hundred) (settlement_values (calls b)).
Proof.
  intros Hlen Hret. revert b. apply reachable_ind.
  - destruct (advance_frame (MkBatch 0 [] [] (make_chunks (indexed files)) [] Running []) false)
      as (_ & _ & _ & Hcalls).
    unfold analyzeImages. rewrite Hcalls. constructor.
  - intros b e b' Hb _ Hstep.
    pose proof (step_files_nonempty b b' e Hb Hstep) as Hn.
    pose proof (reachable_step b b' e Hb Hstep) as Hb'.
    destruct (reachable_settlements Hlen b' Hb') as [_ Hbound].
    pose proof (reachable_completed b' Hret Hb') as Hcount.
    rewrite <- (settled_percent_all (length files) Hn Hlen).
    apply (bound_grows Hlen b'); [done | lia | done].
Qed.

(** C2, as the code has it, for a call on an array of files, whose
    length is below [2 ^ 32], so that every count is exact in a
    JavaScript number. The
    values that settlements hand to [onProgress] never decrease. When the
    callbacks return, these values never exceed 100, and no value handed
    to [onProgress] is below a value that a settlement reported before
    it; the value of an upload report can be [NaN]. When the callbacks
    return and the settlement that makes the call return its summary is
    that of an analysis that resolved, the last value handed to
    [onProgress], by this settlement, is 100. The settlement of an
    analysis that rejected hands [onProgress] nothing. Among themselves
    the values reported from upload progress may decrease. *)
Theorem settlement_progress_nondecreasing (evs : list event) (b : batch) :
  Z.of_nat (length files) < 2 ^ 32 →
  run cbs files (analyzeImages files) evs = Some b →
  Sorted Double.dle (settlement_values (calls b)) ∧
  (returns_normally cbs →
     Forall (λ v, Double.dle v Double.hundred) (settlement_values (calls b)) ∧
     never_below_settled (calls b) ∧
     ∀ evs' i r ok s,
       is_Some (onProgress cbs) → evs = evs' ++ [Settled i r] →
       state b = Resolved ok s →
       last (progress_values (calls b)) = Some Double.hundred) ∧
  (∀ evs' i b1,
     evs = evs' ++ [Rejected i] →
     run cbs files (analyzeImages files) evs' = Some b1 →
     progress_values (calls b) = progress_values (calls b1)).
Proof.
  intros Hlen32 Hrun.
  assert (Z.of_nat (length files) < 2 ^ 53) as Hlen by lia.
  assert (reachable cbs files b) as Hb by (by exists evs).
  split_and!.
  - by destruct (reachable_settlements Hlen b Hb).
  - intros Hret. split_and!.
    + by apply settlements_at_most_hundred.
    + by apply (run_never_below evs).
    + intros evs' i r ok s [cb Hcb] -> Hst.
      rewrite run_snoc in Hrun.
      destruct (run cbs files (analyzeImages files) evs') as [b1 |] eqn:Hb1; [| done].
      cbn in Hrun.
      apply (resolved_last_progress cb b1 b i r ok s); try done. by exists evs'.
  - intros evs' i b1 -> Hb1. rewrite run_snoc, Hb1 in Hrun. cbn in Hrun.
    by apply (step_rejected_progress b1 b i).
Qed.

End BatchRun.

(** ** The application store *)

Section Store.
Import Api Batch App.

Lemma filter_keeps_all {A : Type} (P : A → Prop) `{∀ x, Decision (P x)} (l : list A) :
  Forall P l → filter P l = l.
Proof.
  induction 1 as [| x l Hx _ IH]; [done |].
  by rewrite filter_cons_True, IH.
Qed.

Lemma filter_twice {A : Type} (P : A → Prop) `{∀ x, Decision (P x)} (l : list A) :
  filter P (filter P l) = filter P l.
Proof.
  apply filter_keeps_all, Forall_forall. intros x Hx.
  by apply list_elem_of_filter in Hx as [Hx _].
Qed.

Lemma find_absent (imageId : string) (imgs : list image) :
  imageId ∉ id <$> imgs → find (λ img, String.eqb (id img) imageId) imgs = None.
Proof.
  induction imgs as [| img imgs IH]; [done |].
  rewrite fmap_cons. intros Hnot. apply not_elem_of_cons in Hnot as [Hne Hnot].
  cbn. destruct (String.eqb_spec (id img) imageId) as [Heq | _]; [congruence |].
  by apply IH.
Qed.

Lemma removed_from_images (imageId : string) (imgs : list image) :
  imageId ∉ id <$> filter (λ img, id img ≠ imageId) imgs.
Proof.
  intros Hin. apply list_elem_of_fmap in Hin as (img & -> & Himg).
  by apply list_elem_of_filter in Himg as [Hne _].
Qed.

Lemma removed_from_loading (imageId : string) (entries : list loading_entry) :
  imageId ∉ le_id <$> filter (λ img, le_id img ≠ imageId) entries.
Proof.
  intros Hin. apply list_elem_of_fmap in Hin as (e & -> & He).
  by apply list_elem_of_filter in He as [Hne _].
Qed.

(** Removing an item that is Loading releases no preview: [images] has
    no entry to take the URL from. *)
Lemma handleRemoveImage_loading_revokes_nothing (imageId : string) (st : store) :
  is_loading imageId st → revoked (handleRemoveImage imageId st) = revoked st.
Proof.
  intros [_ Hnot]. unfold handleRemoveImage. cbn.
  by rewrite (find_absent imageId (images st) Hnot).
Qed.

(** C3, as the code has it. Removing an item that is Loading evicts it
    at once from [images], [loadingImages] and [errorImages] and revokes
    nothing. A settlement that arrives later for the same entry is applied
    all the same: it puts a record with the identity and the preview URL
    of the entry at the head of [images], sets the error entry of the
    identity when the result is a failure, leaves [loadingImages] as the
    removal left it, and revokes nothing. *)
Theorem settlement_after_removal_is_applied
    (st : store) (result : item_record)
    (loadingEntries : list loading_entry) (loadingEntry : loading_entry) :
  find_entry result loadingEntries = Some loadingEntry →
  is_loading (le_id loadingEntry) st →
  let st1 := handleRemoveImage (le_id loadingEntry) st in
  let st2 := handleImageProcessingComplete result loadingEntries st1 in
  ((le_id loadingEntry ∉ id <$> images st1) ∧
   (le_id loadingEntry ∉ le_id <$> loadingImages st1) ∧
   errorImages st1 !! le_id loadingEntry = None ∧
   revoked st1 = revoked st) ∧
  (∃ img, images st2 = img :: images st1 ∧
          id img = le_id loadingEntry ∧
          previewUrl img = le_previewUrl loadingEntry) ∧
  loadingImages st2 = loadingImages st1 ∧
  revoked st2 = revoked st1 ∧
  errorImages st2 =
    match result with
    | ImageResult _ _ => errorImages st1
    | ImageError _ err _ => <[le_id loadingEntry := err]> (errorImages st1)
    end.
Proof.
  intros Hfind Hloading st1 st2. split; [| split; [| split; [| split]]].
  - repeat split.
    + apply removed_from_images.
    + apply removed_from_loading.
    + apply lookup_delete_eq.
    + by apply handleRemoveImage_loading_revokes_nothing.
  - unfold st2, handleImageProcessingComplete. rewrite Hfind.
    destruct result; cbn; by eexists.
  - unfold st2, handleImageProcessingComplete. rewrite Hfind.
    destruct result; cbn; apply filter_twice.
  - unfold st2, handleImageProcessingComplete. rewrite Hfind.
    by destruct result.
  - unfold st2, handleImageProcessingComplete. rewrite Hfind.
    destruct result; cbn; [apply delete_delete_eq | done].
Qed.

End Store.

(** ** The scenarios, evaluated *)

Section Evaluated.
Import Api Batch App Scenario.

Lemma observers_return : returns_normally observers.
Proof. split; intros cb x [= <-]; reflexivity. Qed.

Lemma loading_cat_is_loading : is_loading (le_id cat_entry) loading_cat.
Proof.
  split; cbn.
  - constructor.
  - intros H. by apply elem_of_nil in H.
Qed.


(** C2 fails on two files of 2048 bytes that upload side by side: the
    first reports all of its bytes sent, which makes 50 overall, then the
    second reports 205 bytes sent, 10 percent, which makes 5. And when
    the analysis of the second file rejects after the first has resolved,
    the call returns its summary and the last value reported is 50. *)
Lemma upload_reports_decrease :
  run observers two_files (analyzeImages two_files)
      [UploadProgress 0 2048 (Some 2048%N); UploadProgress 1 205 (Some 2048%N)]
    = Some two_uploads ∧
  progress_values (calls two_uploads) = [Double.of_Z 50; Double.of_Z 5] ∧
  ¬ progress_nondecreasing observers two_files ∧
  state (after two_files [Settled 0 tagged; Rejected 1]) = Resolved false (Summary 2 1 1) ∧
  progress_values (calls (after two_files [Settled 0 tagged; Rejected 1]))
    = [Double.of_Z 50].
Proof.
  assert (run observers two_files (analyzeImages two_files) side_by_side
            = Some two_uploads) as Hrun by (vm_compute; reflexivity).
  assert (progress_values (calls two_uploads) = [Double.of_Z 50; Double.of_Z 5])
    as Hvals by (vm_compute; reflexivity).
  split; [exact Hrun |]. split; [exact Hvals |].
  split; [| split; vm_compute; reflexivity].
  intros H.
  assert (reachable observers two_files two_uploads) as Hr by (by exists side_by_side).
  apply H in Hr. rewrite Hvals in Hr.
  apply Sorted_inv in Hr as [_ Hhd]. apply HdRel_inv in Hhd.
  vm_compute in Hhd. by apply Hhd.
Qed.


(** C3 fails on an item that is removed while Loading and whose analysis
    then settles: a success puts its record back in [images], a failure
    does the same and gives it an error entry. *)
Lemma removed_item_comes_back :
  id <$> images (handleImageProcessingComplete cat_tagged [cat_entry]
                   (handleRemoveImage "img_1_k3x9" loading_cat))
    = ["img_1_k3x9"] ∧
  errorImages (handleImageProcessingComplete cat_failed [cat_entry]
                 (handleRemoveImage "img_1_k3x9" loading_cat)) !! "img_1_k3x9"
    = Some "Server error. Please try again later." ∧
  ¬ late_settlement_discarded loading_cat cat_tagged [cat_entry].
Proof.
  split; [vm_compute; reflexivity |]. split; [vm_compute; reflexivity |].
  intros H.
  specialize (H cat_entry eq_refl loading_cat_is_loading).
  apply (f_equal images) in H. vm_compute in H. discriminate H.
Qed.

(** C4 on the item that is Loading in [loading_cat]: [handleRemoveImage]
    evicts the item without revoking its preview URL, and nothing is left
    in the store from which the URL could be revoked later; [handleClearAll]
    on the same store revokes it once. *)
Theorem remove_loading_item_leaks_preview :
  is_loading "img_1_k3x9" loading_cat ∧
  le_previewUrl cat_entry = Some "blob:cat" ∧
  revocations "blob:cat" (handleRemoveImage "img_1_k3x9" loading_cat) = 0%nat ∧
  handleRemoveImage "img_1_k3x9" loading_cat = Store [] [] ∅ [] ∧
  revocations "blob:cat" (handleClearAll loading_cat) = 1%nat.
Proof.
  split; [exact loading_cat_is_loading |]. repeat split; vm_compute; reflexivity.
Qed.

Lemma validateFile_examples :
  validateFile (File "photo.PNG" "IMAGE/PNG" 10485760) = Validation true [] ∧
  validateFile (File "  " "image/gif" 10485761) =
    Validation false [UnsupportedFileType "image/gif"; FileTooLarge 10485761;
                      InvalidFileName].
Proof. split; vm_compute; reflexivity. Qed.

Lemma withRetry_exhausts_retries_witness :
  (∀ k, (k ≤ 3)%nat →
     ∃ e, (λ _ : nat, inr unavailable_503 : analysis + request_error) k = inr e ∧
          retryable_classified e) ∧
  ∃ e, withRetry (λ _ : nat, inr unavailable_503 : analysis + request_error) 3 1000 =
         ([Attempt 0; Sleep 1000; Attempt 1; Sleep 2000; Attempt 2; Sleep 4000;
           Attempt 3], Thrown (Some e)).
Proof.
  assert (∀ k, (k ≤ 3)%nat →
            ∃ e, (λ _ : nat, inr unavailable_503 : analysis + request_error) k = inr e ∧
                 retryable_classified e) as Hfail.
  { intros k _. exists unavailable_503. split; [reflexivity |]. right. cbn. lia. }
  split; [exact Hfail |].
  destruct (withRetry_exhausts_retries _ 3%nat 1000 Hfail) as (e & _ & Hrun & _).
  exists e. exact Hrun.
Defined.

Lemma withRetry_client_error_no_retry_witness :
  (λ _ : nat, inr rejected_422 : analysis + request_error) 0%nat = inr rejected_422 ∧
  client_rejection rejected_422 ∧
  withRetry (λ _ : nat, inr rejected_422 : analysis + request_error) 3 1000 =
    ([Attempt 0], Thrown (Some rejected_422)).
Proof.
  assert (client_rejection rejected_422) as Hc.
  { exists (Response 422 None). cbn. repeat split; lia. }
  split; [reflexivity |]. split; [exact Hc |].
  exact (proj1 (withRetry_client_error_no_retry
                  (λ _ : nat, inr rejected_422 : analysis + request_error)
                  3%nat 1000 rejected_422 eq_refl Hc)).
Defined.

Lemma at_most_three_in_flight_witness :
  reachable observers five_files first_settled ∧
  (length (inflight first_settled) ≤ 3)%nat.
Proof.
  assert (reachable observers five_files first_settled) as Hr.
  { exists [Settled 0 tagged]. vm_compute. reflexivity. }
  split; [exact Hr |].
  exact (at_most_three_in_flight observers five_files first_settled Hr).
Defined.

Lemma completed_is_successes_plus_failures_witness :
  reachable observers five_files all_settled ∧
  completed all_settled = (length (results all_settled) + length (errors all_settled))%nat.
Proof.
  assert (reachable observers five_files all_settled) as Hr.
  { exists out_of_order. vm_compute. reflexivity. }
  split; [exact Hr |].
  exact (proj1 (completed_is_successes_plus_failures observers five_files all_settled Hr)).
Defined.



Lemma settlement_progress_nondecreasing_witness :
  returns_normally observers ∧
  Z.of_nat (length two_files) < 2 ^ 32 ∧
  run observers two_files (analyzeImages two_files)
      (side_by_side ++ [Settled 0 tagged; Settled 1 tagged])
    = Some two_uploads_settled ∧
  Sorted Double.dle (settlement_values (calls two_uploads_settled)) ∧
  last (progress_values (calls two_uploads_settled)) = Some Double.hundred.
Proof.
  assert (run observers two_files (analyzeImages two_files)
            (side_by_side ++ [Settled 0 tagged; Settled 1 tagged])
          = Some two_uploads_settled) as Hrun.
  { vm_compute. reflexivity. }
  assert (Z.of_nat (length two_files) < 2 ^ 32) as Hlen by (vm_compute; reflexivity).
  assert (state two_uploads_settled = Resolved true (Summary 2 2 0)) as Hst.
  { vm_compute. reflexivity. }
  split; [exact observers_return |]. split; [exact Hlen |]. split; [exact Hrun |].
  destruct (settlement_progress_nondecreasing observers two_files
              (side_by_side ++ [Settled 0 tagged; Settled 1 tagged])
              two_uploads_settled Hlen Hrun)
    as (Hsorted & Hret & _).
  split; [exact Hsorted |].
  destruct (Hret observers_return) as (_ & _ & Hlast).
  apply (Hlast (side_by_side ++ [Settled 0 tagged]) 1%nat tagged true (Summary 2 2 0));
    [by eexists | reflexivity | exact Hst].
Defined.

Lemma settlement_after_removal_is_applied_witness :
  find_entry cat_failed [cat_entry] = Some cat_entry ∧
  is_loading (le_id cat_entry) loading_cat ∧
  revoked (handleImageProcessingComplete cat_failed [cat_entry]
             (handleRemoveImage (le_id cat_entry) loading_cat))
  = revoked (handleRemoveImage (le_id cat_entry) loading_cat).
Proof.
  split; [reflexivity |]. split; [exact loading_cat_is_loading |].
  exact (proj1 (proj2 (proj2 (proj2
           (settlement_after_removal_is_applied loading_cat cat_failed [cat_entry]
              cat_entry eq_refl loading_cat_is_loading))))).
Defined.

End Evaluated.

(** * Further properties *)

(** ** withRetry, analyzeImage, checkHealth, getAPIInfo *)

Section RetryMore.
Import Api ApiMore.

(** A call that succeeds at attempt [k], with enough iterations left. *)
Lemma retry_loop_recovers {A : Type} (fn : nat → A + request_error)
    (maxRetries : nat) (baseDelay : Z) (k : nat) (v : A) :
  (k ≤ maxRetries)%nat → fn k = inl v → retried_until fn k →
  ∀ d attempt remaining last,
    (attempt + d = k)%nat → (d ≤ remaining)%nat →
    retry_loop fn maxRetries baseDelay (S remaining) attempt last =
      (backoff_schedule baseDelay attempt d ++ [Attempt k], Returned v).
Proof.
  intros Hk Hv Hfail d.
  induction d as [| d IH]; intros attempt remaining last Hsum Hrem.
  - assert (attempt = k) as -> by lia. by rewrite retry_loop_S, Hv.
  - destruct (Hfail attempt) as (e & He & Hnc); [lia |].
    rewrite retry_loop_S, He, Hnc.
    destruct (Nat.eqb_spec attempt maxRetries) as [Heq | _]; [lia |].
    destruct remaining as [| remaining]; [lia |].
    rewrite (IH (S attempt) remaining (Some e)) by lia.
    reflexivity.
Qed.

(** The shape of every call: attempts [0] to [n] for some [n] up to
    [maxRetries], each failed one followed by its sleep; the outcome is
    the one of attempt [n]. *)
Lemma retry_loop_shape {A : Type} (fn : nat → A + request_error)
    (maxRetries : nat) (baseDelay : Z) :
  ∀ remaining attempt last,
    (attempt + remaining = maxRetries)%nat →
    ∃ d, (d ≤ remaining)%nat ∧
      (retry_loop fn maxRetries baseDelay (S remaining) attempt last).1 =
        backoff_schedule baseDelay attempt d ++ [Attempt (attempt + d)] ∧
      (∀ j, (attempt ≤ j < attempt + d)%nat →
            ∃ e, fn j = inr e ∧ is_client_error e = false) ∧
      match (retry_loop fn maxRetries baseDelay (S remaining) attempt last).2 with
      | Returned v => fn (attempt + d)%nat = inl v
      | Thrown o =>
          ∃ e, o = Some e ∧ fn (attempt + d)%nat = inr e ∧
               (is_client_error e = true ∨ (attempt + d)%nat = maxRetries)
      end.
Proof.
  intros remaining.
  induction remaining as [| remaining IH]; intros attempt last Hsum.
  - exists 0%nat. rewrite retry_loop_S, Nat.add_0_r.
    destruct (fn attempt) as [v | e] eqn:Hfn; cbn [fst snd].
    + split_and!; [lia | done | intros j Hj; lia | done].
    + destruct (is_client_error e) eqn:Hce; cbn [fst snd].
      * split_and!; [lia | done | intros j Hj; lia |]. exists e. auto.
      * assert ((attempt =? maxRetries)%nat = true) as ->
          by (apply Nat.eqb_eq; lia).
        cbn [fst snd].
        split_and!; [lia | done | intros j Hj; lia |].
        exists e. split_and!; [done | done | right; lia].
  - rewrite retry_loop_S.
    destruct (fn attempt) as [v | e] eqn:Hfn.
    + exists 0%nat. rewrite Nat.add_0_r. cbn [fst snd].
      split_and!; [lia | done | intros j Hj; lia | done].
    + destruct (is_client_error e) eqn:Hce.
      * exists 0%nat. rewrite Nat.add_0_r. cbn [fst snd].
        split_and!; [lia | done | intros j Hj; lia |]. exists e. auto.
      * destruct (Nat.eqb_spec attempt maxRetries) as [Heq | _]; [lia |].
        destruct (IH (S attempt) (Some e)) as (d & Hd & Hacts & Hfail & Hout); [lia |].
        destruct (retry_loop fn maxRetries baseDelay (S remaining) (S attempt) (Some e))
          as [acts out].
        cbn [fst snd] in *.
        exists (S d). replace (attempt + S d)%nat with (S attempt + d)%nat by lia.
        split_and!; [lia | by rewrite Hacts | | done].
        intros j Hj. destruct (Nat.eq_dec j attempt) as [-> | Hne].
        -- by exists e.
        -- apply Hfail. lia.
Qed.

Lemma total_sleep_schedule (baseDelay : Z) (first count : nat) :
  total_sleep (backoff_schedule baseDelay first count ++ [Attempt (first + count)]) =
    baseDelay * (2 ^ Z.of_nat (first + count) - 2 ^ Z.of_nat first).
Proof.
  unfold total_sleep, sleeps. rewrite omap_app. cbn [omap]. rewrite app_nil_r.
  fold (sleeps (backoff_schedule baseDelay first count)).
  rewrite backoff_schedule_sleeps.
  revert first. induction count as [| count IH]; intros first.
  - rewrite Nat.add_0_r. cbn. lia.
  - cbn [seq fmap list_fmap foldr].
    change (list_fmap nat Z ?f ?l) with (f <$> l).
    rewrite IH. replace (first + S count)%nat with (S first + count)%nat by lia.
    rewrite (Nat2Z.inj_succ first), Z.pow_succ_r by lia. lia.
Qed.

End RetryMore.

Section ApiFurther.
Import Api ApiMore Scenario ScenarioMore.

Lemma or_else_nonempty (a : option string) (b : string) :
  b ≠ "" → Js.or_else a b ≠ "".
Proof.
  intros Hb. destruct a as [s |]; cbn; [| done].
  destruct (String.eqb_spec s "") as [-> | Hs]; done.
Qed.

Lemma retried_until_0 {A : Type} (fn : nat → A + request_error) (n : nat) :
  (∀ j, (0 ≤ j < 0 + n)%nat → ∃ e, fn j = inr e ∧ is_client_error e = false) →
  retried_until fn n.
Proof. intros H j Hj. apply H. lia. Qed.

(** X1. A call whose attempts [0] to [k - 1] fail with errors that are
    retried, and whose attempt [k] (at most [maxRetries]) succeeds, returns
    the value of attempt [k], after [k] sleeps of [baseDelay * 2 ^ j]. *)
Theorem withRetry_recovers {A : Type} (fn : nat → A + request_error)
    (maxRetries : nat) (baseDelay : Z) (k : nat) (v : A) :
  (k ≤ maxRetries)%nat → fn k = inl v → retried_until fn k →
  withRetry fn maxRetries baseDelay =
    (backoff_schedule baseDelay 0 k ++ [Attempt k], Returned v).
Proof.
  intros Hk Hv Hfail. unfold withRetry.
  apply (retry_loop_recovers fn maxRetries baseDelay k v Hk Hv Hfail k 0%nat); lia.
Qed.

Lemma withRetry_recovers_witness :
  (3 ≤ 3)%nat ∧ flaky 3 = inl cat_analysis ∧ retried_until flaky 3 ∧
  withRetry flaky 3 1000 =
    ([Attempt 0; Sleep 1000; Attempt 1; Sleep 2000; Attempt 2; Sleep 4000; Attempt 3],
     Returned cat_analysis).
Proof.
  assert (retried_until flaky 3) as Hfail.
  { intros j Hj. exists unavailable_503.
    destruct j as [| [| [| j]]]; [split; reflexivity .. | lia]. }
  split; [lia |]. split; [reflexivity |]. split; [exact Hfail |].
  exact (withRetry_recovers flaky 3 1000 3 cat_analysis (le_n 3) eq_refl Hfail).
Defined.

(** X2. Every call of [withRetry] makes the attempts [0] to [n] for some
    [n] of at most [maxRetries], sleeps [baseDelay * 2 ^ j] after the
    failed attempt [j] and at no other time, retries only errors that are
    not client errors, and ends with the outcome of attempt [n]: its
    value, or its error when that is a client error or the retries are
    used up. *)
Theorem withRetry_shape {A : Type} (fn : nat → A + request_error)
    (maxRetries : nat) (baseDelay : Z) :
  ∃ n, (n ≤ maxRetries)%nat ∧
    (withRetry fn maxRetries baseDelay).1 =
      backoff_schedule baseDelay 0 n ++ [Attempt n] ∧
    retried_until fn n ∧
    match (withRetry fn maxRetries baseDelay).2 with
    | Returned v => fn n = inl v
    | Thrown o =>
        ∃ e, o = Some e ∧ fn n = inr e ∧
             (is_client_error e = true ∨ n = maxRetries)
    end.
Proof.
  destruct (retry_loop_shape fn maxRetries baseDelay maxRetries 0 None eq_refl)
    as (n & Hn & Hacts & Hfail & Hout).
  exists n. split_and!; [done | done | by apply retried_until_0 | done].
Qed.

(** X3. With a delay that is not negative, a call of [withRetry] sleeps
    for at most [baseDelay * (2 ^ maxRetries - 1)] milliseconds in all. *)
Theorem withRetry_total_sleep {A : Type} (fn : nat → A + request_error)
    (maxRetries : nat) (baseDelay : Z) :
  0 ≤ baseDelay →
  (0 <= total_sleep (withRetry fn maxRetries baseDelay).1
     <= baseDelay * (2 ^ Z.of_nat maxRetries - 1)).
Proof.
  intros Hb.
  destruct (retry_loop_shape fn maxRetries baseDelay maxRetries 0 None eq_refl)
    as (n & Hn & Hacts & _).
  unfold withRetry. rewrite Hacts.
  change (Attempt (0 + n)) with (Attempt (0 + n)%nat).
  rewrite total_sleep_schedule. cbn [Nat.add].
  change (2 ^ Z.of_nat 0) with 1.
  assert (0 < 2 ^ Z.of_nat n) by (apply Z.pow_pos_nonneg; lia).
  assert (2 ^ Z.of_nat n ≤ 2 ^ Z.of_nat maxRetries)
    by (apply Z.pow_le_mono_r; lia).
  nia.
Qed.

Lemma withRetry_total_sleep_witness :
  0 ≤ 1000 ∧
  (0 <= total_sleep (withRetry flaky 3 1000).1 <= 1000 * (2 ^ Z.of_nat 3 - 1)).
Proof.
  split; [lia |].
  exact (withRetry_total_sleep flaky 3 1000 ltac:(lia)).
Defined.

(** X4. [analyzeImage] resolves with [success: true] and the data [d]
    exactly when one of the first four requests answers [d] and every
    request before it failed with an error that is retried; a result with
    [success: false] carries the parsed error of the last request made,
    which failed with a status in [400, 500) other than 429 or was the
    fourth request. *)
Theorem analyzeImage_result (post : nat → analysis + request_error) :
  (∀ d, (analyzeImage post).2 = Some (AnalyzeOk d) ↔
        ∃ k, (k ≤ API_CONFIG_maxRetries)%nat ∧ post k = inl d ∧
             retried_until post k) ∧
  (∀ m c det, (analyzeImage post).2 = Some (AnalyzeFailed m c det) →
        ∃ k e, (k ≤ API_CONFIG_maxRetries)%nat ∧ post k = inr e ∧
               retried_until post k ∧
               (is_client_error e = true ∨ k = API_CONFIG_maxRetries) ∧
               m = message (parseError e) ∧ c = code (parseError e) ∧
               det = details (parseError e)).
Proof.
  destruct (retry_loop_shape post API_CONFIG_maxRetries API_CONFIG_retryDelay
              API_CONFIG_maxRetries 0 None eq_refl)
    as (n & Hn & _ & Hfail & Hout).
  apply retried_until_0 in Hfail. cbn [Nat.add] in Hout.
  split.
  - intros d. split.
    + unfold analyzeImage, withRetry.
      destruct (retry_loop post API_CONFIG_maxRetries API_CONFIG_retryDelay
                  (S API_CONFIG_maxRetries) 0 None) as [acts [v | [e |]]];
        cbn [fst snd] in *; intros Hr; [| done | done].
      exists n. by simplify_eq.
    + intros (k & Hk & Hv & Hf). unfold analyzeImage, withRetry.
      by rewrite (retry_loop_recovers post _ API_CONFIG_retryDelay k d Hk Hv Hf
                    k 0%nat API_CONFIG_maxRetries None) by lia.
  - intros m c det. unfold analyzeImage, withRetry.
    destruct (retry_loop post API_CONFIG_maxRetries API_CONFIG_retryDelay
                (S API_CONFIG_maxRetries) 0 None) as [acts [v | [e |]]];
      cbn [fst snd] in *; intros Hr; [done | | done].
    destruct Hout as (e' & He' & Hpost & Hlast). simplify_eq.
    exists n, e'. by split_and!.
Qed.

Lemma parseError_filled (e : request_error) :
  message (parseError e) ≠ "" ∧ code (parseError e) ≠ "".
Proof.
  unfold parseError.
  destruct (err_response e) as [[st data] |]; [| by split].
  destruct (Js.truthy (data ≫= error)) eqn:Htruthy.
  - destruct data as [d |]; [| done]. cbn in *. split.
    + apply or_else_nonempty.
      destruct (error d) as [s |]; [| done]. cbn in *.
      by destruct (String.eqb_spec s "").
    + by apply or_else_nonempty.
  - destruct (data ≫= validation_errors) as [errs |]; [by split |].
    cbn. split; [| done].
    destruct (st >=? 500); [done |]. by apply or_else_nonempty.
Qed.

(** The messages of entries of the shape [{message: m}]. *)
Lemma entries_messages (l : list string) :
  ApiRaw.map_throwing ApiRaw.entry_message
      ((λ m, ApiRaw.JObject [("message", ApiRaw.JString m)]) <$> l)
    ≫= ApiRaw.map_throwing ApiRaw.joined_text = Some l.
Proof.
  induction l as [| m l IH]; [done |]. rewrite fmap_cons. cbn.
  destruct (ApiRaw.map_throwing ApiRaw.entry_message
              ((λ m, ApiRaw.JObject [("message", ApiRaw.JString m)]) <$> l))
    as [ms |]; [| done].
  cbn in *. by rewrite IH.
Qed.

(** A [null] entry makes [map] throw. *)
Lemma map_throwing_null (l : list ApiRaw.json) :
  ApiRaw.JNull ∈ l → ApiRaw.map_throwing ApiRaw.entry_message l = None.
Proof.
  induction l as [| x l IH]; [by intros ?%elem_of_nil |].
  intros Hin. apply elem_of_cons in Hin as [<- | Hin]; [done |].
  cbn. rewrite (IH Hin). by destruct (ApiRaw.entry_message x).
Qed.

(** X5. [parseError] on any response body. On a body of the shape of
    [error_data] (string fields, and [validation_errors] an array of
    objects with a string [message]) it does not throw and builds the
    error of the typed [parseError], whose message and code are not
    empty. It throws when [error] is falsy and [validation_errors] is
    truthy and not an array, or an array with a [null] entry. When
    [detail] is the empty array, in the branch of a truthy [error] and in
    the generic branch below status 500, the message that it builds is
    empty. *)
Theorem parseError_on_any_body :
  (∀ e : request_error,
     ApiRaw.parseError (ApiRaw.of_request_error e)
       = Some (ApiRaw.of_APIError (parseError e)) ∧
     message (parseError e) ≠ "" ∧ code (parseError e) ≠ "") ∧
  (∀ st body v,
     ApiRaw.truthy (ApiRaw.get "error" body) = false →
     ApiRaw.get "validation_errors" body = Some v →
     ApiRaw.truthy (Some v) = true →
     (∀ l, v ≠ ApiRaw.JArray l) ∨ (∃ l, v = ApiRaw.JArray l ∧ ApiRaw.JNull ∈ l) →
     ApiRaw.parseError (ApiRaw.RequestError (Some (ApiRaw.Response st body))) = None) ∧
  (∀ st body,
     ApiRaw.get "detail" body = Some (ApiRaw.JArray []) →
     ApiRaw.truthy (ApiRaw.get "error" body) = true ∨
     (ApiRaw.truthy (ApiRaw.get "error" body) = false ∧
      ApiRaw.truthy (ApiRaw.get "validation_errors" body) = false ∧ st < 500) →
     ∃ a, ApiRaw.parseError (ApiRaw.RequestError (Some (ApiRaw.Response st body)))
            = Some a ∧
          ApiRaw.message a = "").
Proof.
  split_and!.
  - intros e. split; [| apply parseError_filled].
    destruct e as [[[st [[[err |] [det |] [ec |] [ve |]] |]] |]];
      unfold parseError, ApiRaw.parseError, ApiRaw.of_request_error, ApiRaw.of_APIError,
        ApiRaw.or_else;
      cbn;
      repeat (match goal with
              | |- context [String.eqb ?s ""] =>
                  destruct (String.eqb_spec s ""); [subst |]
              | |- context [?x >=? 500] => destruct (x >=? 500)
              end; cbn);
      rewrite ?entries_messages; cbn; try done.
  - intros st body v Herr Hve Htruthy Hshape. unfold ApiRaw.parseError. cbn.
    rewrite Herr, Hve, Htruthy.
    destruct Hshape as [Hno | (l & -> & Hnull)].
    + destruct v as [| b | nz t | t | l | fs]; try done. by destruct (Hno l).
    + by rewrite (map_throwing_null l Hnull).
  - intros st body Hdetail [Herr | (Herr & Hve & Hst)];
      unfold ApiRaw.parseError; cbn; rewrite Herr.
    + unfold ApiRaw.or_else. rewrite Hdetail. cbn. by eexists.
    + rewrite Hve. destruct (Z.geb_spec st 500) as [Hge | _]; [lia |].
      unfold ApiRaw.or_else. rewrite Hdetail. cbn. by eexists.
Qed.

(** X6. [formatErrorMessage] returns an empty text exactly for the empty
    string and for an [APIError] whose message is empty. *)
Theorem formatErrorMessage_blank (v : error_value) :
  formatErrorMessage v = "" ↔
    (v = ErrorString "" ∨ ∃ e, v = ErrorAPIError e ∧ message e = "").
Proof.
  split.
  - destruct v as [s | e | [s |] |]; cbn; intros Hv.
    + left. by subst.
    + right. by exists e.
    + by destruct (String.eqb_spec s "").
    + done.
    + done.
  - intros [-> | (e & -> & He)]; [done | exact He].
Qed.

End ApiFurther.

Section ApiClassification.
Import Api ApiMore Scenario ScenarioMore.

(** X7. The retry decision of [withRetry] against [isRetryableError] on
    the parsed error: an error that [withRetry] does not retry is never
    called retryable; a network error, a 429 and a status of 500 and above
    are retried and called retryable; the two differ exactly on a
    response whose status is below 400 and not 0, which [withRetry]
    retries and [isRetryableError] rejects. *)
Theorem retry_decision_vs_isRetryableError (e : request_error) :
  (is_client_error e = true →
     isRetryableError (Some (api_status (parseError e))) = false) ∧
  (is_client_error e = false ∧
   isRetryableError (Some (api_status (parseError e))) = false ↔
     ∃ r, err_response e = Some r ∧ status r ≠ 0 ∧ status r < 400) ∧
  (isRetryableError (Some (api_status (parseError e))) = true ↔
     match err_response e with
     | None => True
     | Some r => status r = 0 ∨ status r = 429 ∨ 500 ≤ status r
     end).
Proof.
  destruct (err_response e) as [r |] eqn:Hr.
  - rewrite (parseError_status e r Hr).
    unfold is_client_error, isRetryableError. rewrite Hr.
    split_and!.
    + intros Hc. apply andb_true_iff in Hc as [Hc H429].
      apply andb_true_iff in Hc as [H400 H500].
      destruct (Z.eqb_spec (status r) 0); [lia |].
      apply orb_false_iff. split; lia.
    + split.
      * intros [Hc Hn]. exists r. split; [done |].
        destruct (Z.eqb_spec (status r) 0); [done |].
        apply orb_false_iff in Hn as [H500 H429].
        split; [done |].
        destruct (Z.ltb_spec (status r) 400) as [Hlt | Hge]; [done |].
        exfalso.
        assert ((status r >=? 400) = true) as H1 by lia.
        assert ((status r <? 500) = true) as H2 by lia.
        assert (negb (status r =? 429) = true) as H3
          by (apply negb_true_iff; lia).
        by rewrite H1, H2, H3 in Hc.
      * intros (r' & Heq & Hne & Hlt). simplify_eq. split.
        -- apply andb_false_iff. left. apply andb_false_iff. left. lia.
        -- destruct (Z.eqb_spec (status r') 0); [done |].
           apply orb_false_iff. split; lia.
    + destruct (Z.eqb_spec (status r) 0) as [H0 | H0].
      * split; auto.
      * rewrite orb_true_iff. split.
        -- intros [H | H]; [right; right; lia | right; left; lia].
        -- intros [H | [H | H]]; [done | right; lia | left; lia].
  - unfold is_client_error, parseError. rewrite Hr. cbn. split_and!.
    + done.
    + split; [by intros [_ ?] | by intros (r & ? & _)].
    + done.
Qed.


End ApiClassification.

(** ** analyzeImages: chunks and the course of a batch *)

Section ChunksMore.
Import Api Batch.
Context {A : Type}.

Lemma ceil_third_step (n i : nat) :
  (i < n)%nat → ((n - i + 2) / 3 = S ((n - (i + 3) + 2) / 3))%nat.
Proof.
  intros Hlt.
  pose proof (Nat.div_mod_eq (n - i + 2) 3).
  pose proof (Nat.div_mod_eq (n - (i + 3) + 2) 3).
  pose proof (Nat.mod_upper_bound (n - i + 2) 3).
  pose proof (Nat.mod_upper_bound (n - (i + 3) + 2) 3).
  lia.
Qed.

Lemma chunk_loop_length (fuel i : nat) (l : list A) :
  (length l ≤ i + fuel)%nat →
  length (chunk_loop fuel i l) = ((length l - i + 2) / 3)%nat.
Proof.
  revert i. induction fuel as [| fuel IH]; intros i Hfuel; cbn [chunk_loop].
  - replace (length l - i + 2)%nat with 2%nat by lia. reflexivity.
  - destruct (Nat.ltb_spec i (length l)) as [Hlt | Hge].
    + cbn [length]. rewrite IH by (unfold CONCURRENT_LIMIT; lia).
      unfold CONCURRENT_LIMIT. by rewrite (ceil_third_step (length l) i).
    + replace (length l - i + 2)%nat with 2%nat by lia. reflexivity.
Qed.

(** A chunk starts at a position of the list. *)
Lemma chunk_loop_lookup_lt (fuel i : nat) (l : list A) (k : nat) (c : list A) :
  chunk_loop fuel i l !! k = Some c →
  (i + CONCURRENT_LIMIT * k < length l)%nat.
Proof.
  revert i k. induction fuel as [| fuel IH]; intros i k; cbn [chunk_loop]; [done |].
  destruct (Nat.ltb_spec i (length l)) as [Hlt | Hge]; [| done].
  destruct k as [| k]; cbn.
  - intros _. lia.
  - intros Hk. apply IH in Hk. unfold CONCURRENT_LIMIT in *. lia.
Qed.

(** X9. The chunks of [analyzeImages] are the list cut into pieces of
    three: joined again they are the list, there are [ceil (n / 3)] of
    them, chunk [k] holds the elements from position [3 * k] on, none is
    empty, and every chunk but the last holds exactly three elements. *)
Theorem make_chunks_partition (l : list A) :
  concat (make_chunks l) = l ∧
  length (make_chunks l) = ((length l + 2) / 3)%nat ∧
  ∀ k c, make_chunks l !! k = Some c →
    c = take 3 (drop (3 * k) l) ∧
    (1 ≤ length c ≤ 3)%nat ∧
    ((S k < length (make_chunks l))%nat → length c = 3%nat).
Proof.
  split; [apply make_chunks_concat |]. split.
  - unfold make_chunks. rewrite chunk_loop_length by lia. by rewrite Nat.sub_0_r.
  - intros k c Hk. unfold make_chunks in *.
    pose proof (chunk_loop_lookup_lt _ _ _ _ _ Hk) as Hstart.
    pose proof (chunk_loop_lookup _ _ _ _ _ Hk) as Hc.
    unfold slice, CONCURRENT_LIMIT in *. cbn [Nat.add] in *.
    replace (3 * k + 3 - 3 * k)%nat with 3%nat in Hc by lia.
    split; [done |]. subst c. rewrite length_take, length_drop.
    split; [lia |].
    intros Hnext.
    destruct (lookup_lt_is_Some_2 (chunk_loop (length l) 0 l) (S k) Hnext) as [c' Hc'].
    apply chunk_loop_lookup_lt in Hc'. unfold CONCURRENT_LIMIT in Hc'. lia.
Qed.

End ChunksMore.

Section ChunksNonempty.
Import Api Batch.
Context {A : Type}.

Lemma make_chunks_nonempty (l : list A) : Forall (λ c, c ≠ []) (make_chunks l).
Proof.
  apply Forall_lookup. intros k c Hk. unfold make_chunks in Hk.
  pose proof (chunk_loop_lookup_lt _ _ _ _ _ Hk) as Hstart.
  pose proof (chunk_loop_lookup _ _ _ _ _ Hk) as ->.
  intros Hnil. apply (f_equal length) in Hnil.
  unfold slice, CONCURRENT_LIMIT in *. rewrite length_take, length_drop in Hnil.
  cbn in *. lia.
Qed.

End ChunksNonempty.

Section BatchCourse.
Import Api Batch BatchMore Scenario ScenarioMore.
Variable cbs : callbacks.
Variable files : list file.

(** X10. Up to its first suspension [analyzeImages] invokes no callback
    and records nothing. For an empty list it returns at once, with
    [success: true] and a summary of zeros; otherwise it starts the first
    three operations (all of them when there are fewer) and queues the
    others in order. *)
Theorem analyzeImages_start :
  calls (analyzeImages files) = [] ∧ completed (analyzeImages files) = 0%nat ∧
  results (analyzeImages files) = [] ∧ errors (analyzeImages files) = [] ∧
  match files with
  | [] =>
      state (analyzeImages files) = Resolved true (Summary 0 0 0) ∧
      inflight (analyzeImages files) = [] ∧ chunks (analyzeImages files) = []
  | _ :: _ =>
      state (analyzeImages files) = Running ∧
      inflight (analyzeImages files) = take 3 (indexed files) ∧
      concat (chunks (analyzeImages files)) = drop 3 (indexed files)
  end.
Proof.
  destruct (advance_frame files
              (MkBatch 0 [] [] (make_chunks (indexed files)) [] Running []) false)
    as (Hc & Hr & He & Hl).
  fold (analyzeImages files) in Hc, Hr, He, Hl.
  split_and!; [done | done | done | done |].
  destruct files as [| f fs]; [done |].
  unfold analyzeImages, make_chunks.
  assert (length (indexed (f :: fs)) = S (length fs)) as Hlen.
  { pose proof (f_equal length (indexed_fst (f :: fs))) as H.
    rewrite length_fmap, length_seq in H. exact H. }
  rewrite Hlen. cbn [chunk_loop]. rewrite Hlen.
  cbn [Nat.ltb Nat.leb advance state inflight chunks].
  split_and!; [done | |].
  - unfold slice. cbn. done.
  - apply chunk_loop_concat. unfold CONCURRENT_LIMIT. cbn [Nat.add]. lia.
Qed.

Lemma advance_live (b : batch) (rejected : bool) :
  Forall (λ c, c ≠ []) (chunks b) → live (advance files b rejected).
Proof.
  intros Hch. unfold live.
  destruct (advance_cases files b rejected)
    as [[-> Hcase] | [(_ & _ & ->) | [(_ & _ & Hinf & c & cs & Hcs & ->) | (_ & _ & _ & _ & ->)]]];
    cbn.
  - split; [done |]. intros Hrun. by destruct Hcase as [? | [_ ?]].
  - by split.
  - rewrite Hcs in Hch. apply Forall_cons in Hch as [Hc Hcs']. by split.
  - by split.
Qed.

Lemma step_live (b b' : batch) (e : event) :
  live b → step cbs files b e = Some b' → live b'.
Proof.
  intros [Hch Hrun] Hstep. destruct e as [i loaded total | i r | i].
  - cbn in Hstep. destruct (lookup_op i (inflight b)); [| done].
    destruct (onProgress cbs); injection Hstep as <-; by split.
  - apply step_settled in Hstep as (f & _ & ->).
    apply advance_live. cbn.
    by destruct (settle_try_frame cbs files i f r b) as (-> & _ & _).
  - apply step_rejected in Hstep as (f & _ & ->).
    apply advance_live. cbn.
    by destruct (settle_catch_frame cbs i f b) as (-> & _ & _).
Qed.

Lemma reachable_live (b : batch) : reachable cbs files b → live b.
Proof.
  revert b. apply reachable_ind.
  - apply advance_live. cbn. apply make_chunks_nonempty.
  - intros b e b' _ Hb Hstep. by apply (step_live b b' e).
Qed.

Lemma lookup_op_is_Some (i : nat) (f : file) (ops : list op) :
  (i, f) ∈ ops → is_Some (lookup_op i ops).
Proof.
  induction ops as [| [j g] ops IH]; [by intros ?%elem_of_nil |].
  intros Hin. cbn. destruct (Nat.eqb_spec j i) as [-> | Hne]; [by eexists |].
  apply elem_of_cons in Hin as [Heq | Hin]; [by simplify_eq | by apply IH].
Qed.

(** X11. A call that has not returned never stalls: while it awaits
    [Promise.all] at least one operation is in flight, and every operation
    in flight can report an upload, with any byte counts, and can settle,
    with any result or with a rejection. *)
Theorem batch_never_stalls (b : batch) :
  reachable cbs files b → state b = Running →
  inflight b ≠ [] ∧
  ∀ i f, (i, f) ∈ inflight b →
    (∀ r, is_Some (step cbs files b (Settled i r))) ∧
    is_Some (step cbs files b (Rejected i)) ∧
    (∀ loaded total, is_Some (step cbs files b (UploadProgress i loaded total))).
Proof.
  intros Hb Hrun. destruct (reachable_live b Hb) as [_ Hlive].
  split; [by apply Hlive |].
  intros i f Hin. destruct (lookup_op_is_Some i f _ Hin) as [g Hg]. split_and!.
  - intros r. unfold step. rewrite Hg.
    destruct (settle_try cbs files i g r b). by eexists.
  - unfold step. rewrite Hg. destruct (settle_catch cbs i g b). by eexists.
  - intros loaded total. unfold step. rewrite Hg.
    destruct (onProgress cbs); by eexists.
Qed.

End BatchCourse.

Section CourseEvaluated.
Import Api Batch BatchMore Scenario ScenarioMore.

Lemma batch_never_stalls_witness :
  reachable observers five_files first_settled ∧
  state first_settled = Running ∧
  inflight first_settled ≠ [].
Proof.
  assert (reachable observers five_files first_settled) as Hr.
  { exists [Settled 0 tagged]. vm_compute. reflexivity. }
  split; [exact Hr |]. split; [reflexivity |].
  exact (proj1 (batch_never_stalls observers five_files first_settled Hr eq_refl)).
Defined.

End CourseEvaluated.


Section BatchCompletion.
Import Api Batch BatchMore Scenario ScenarioMore.
Variable cbs : callbacks.
Variable files : list file.

Lemma settlements_snoc (evs : list event) (e : event) :
  settlements (evs ++ [e]) =
    (settlements evs + if is_settlement e then 1 else 0)%nat.
Proof.
  unfold settlements. rewrite List.filter_app, length_app. cbn.
  by destruct (is_settlement e).
Qed.

(** A call that has returned its summary handles no further event. *)
Lemma resolved_no_settlement (b b' : batch) (e : event) ok s :
  summary_agrees files b → state b = Resolved ok s →
  step cbs files b e = Some b' → False.
Proof.
  intros Hsum Hst Hstep. destruct (Hsum ok s Hst) as (Hinf & _).
  by apply (step_needs_inflight cbs files b b' e).
Qed.

Lemma step_upload_frame (b b' : batch) (i : nat) (loaded : N) (total : option N) :
  step cbs files b (UploadProgress i loaded total) = Some b' →
  completed b' = completed b ∧ results b' = results b ∧ errors b' = errors b ∧
  chunks b' = chunks b ∧ inflight b' = inflight b ∧ state b' = state b.
Proof.
  cbn. destruct (lookup_op i (inflight b)); [| done].
  destruct (onProgress cbs); by intros [= <-].
Qed.

(** With callbacks that return, the call is never left through the outer
    [catch]. *)
Lemma step_returns_not_aborted (b b' : batch) (e : event) :
  returns_normally cbs → state b ≠ Aborted →
  step cbs files b e = Some b' → state b' ≠ Aborted.
Proof.
  intros Hret Hst Hstep. destruct e as [i loaded total | i r | i].
  - apply step_upload_frame in Hstep as (_ & _ & _ & _ & _ & ->). done.
  - apply step_settled in Hstep as (f & _ & ->).
    destruct (settle_try_returns cbs files i f r b Hret) as (Hrej & _).
    destruct (settle_try_frame cbs files i f r b) as (_ & _ & Hstate).
    rewrite Hrej.
    destruct (advance_cases files
                (set_inflight (settle_try cbs files i f r b).1 (remove_op i (inflight b)))
                false)
      as [[-> _] | [(_ & ? & _) | [(_ & _ & _ & c & cs & _ & ->) | (_ & _ & _ & _ & ->)]]];
      cbn; [by rewrite Hstate | done | done | done].
  - apply step_rejected in Hstep as (f & _ & ->).
    destruct (settle_catch_returns cbs i f b Hret) as (Hrej & _).
    destruct (settle_catch_frame cbs i f b) as (_ & _ & Hstate).
    rewrite Hrej.
    destruct (advance_cases files
                (set_inflight (settle_catch cbs i f b).1 (remove_op i (inflight b)))
                false)
      as [[-> _] | [(_ & ? & _) | [(_ & _ & _ & c & cs & _ & ->) | (_ & _ & _ & _ & ->)]]];
      cbn; [by rewrite Hstate | done | done | done].
Qed.

Lemma advance_verdict (b : batch) (rejected : bool) :
  verdict_agrees b → verdict_agrees (advance files b rejected).
Proof.
  intros Hb.
  destruct (advance_cases files b rejected)
    as [[-> _] | [(_ & _ & ->) | [(_ & _ & _ & c & cs & _ & ->) | (_ & _ & _ & _ & ->)]]];
    [done | by intros ok s | by intros ok s |].
  intros ok s. cbn. by intros [= <- _].
Qed.

Lemma step_verdict (b b' : batch) (e : event) :
  summary_agrees files b → verdict_agrees b →
  step cbs files b e = Some b' → verdict_agrees b'.
Proof.
  intros Hsum Hb Hstep. destruct e as [i loaded total | i r | i].
  - apply step_upload_frame in Hstep as (_ & _ & He & _ & _ & Hst).
    intros ok s. rewrite Hst, He. apply Hb.
  - pose proof Hstep as Hstep'.
    apply step_settled in Hstep as (f & _ & ->).
    apply advance_verdict. intros ok s. cbn.
    destruct (settle_try_frame cbs files i f r b) as (_ & _ & ->).
    intros Hst. exfalso. by eapply resolved_no_settlement.
  - pose proof Hstep as Hstep'.
    apply step_rejected in Hstep as (f & _ & ->).
    apply advance_verdict. intros ok s. cbn.
    destruct (settle_catch_frame cbs i f b) as (_ & _ & ->).
    intros Hst. exfalso. by eapply resolved_no_settlement.
Qed.

Lemma reachable_verdict (b : batch) : reachable cbs files b → verdict_agrees b.
Proof.
  revert b. apply reachable_ind.
  - apply advance_verdict. by intros ok s.
  - intros b e b' Hr Hb Hstep.
    destruct (reachable_counts cbs files b Hr) as [_ Hsum].
    by apply (step_verdict b b' e).
Qed.

(** With callbacks that return, every settlement moves one operation
    from the pending ones to the completed ones. *)
Lemma reachable_returns_balance (b : batch) :
  returns_normally cbs → reachable cbs files b →
  (completed b + length (pending_ops b) = length files)%nat ∧ state b ≠ Aborted.
Proof.
  intros Hret. revert b. apply reachable_ind.
  - split.
    + rewrite analyzeImages_pending.
      pose proof (f_equal length (indexed_fst files)) as Hlen.
      rewrite length_fmap, length_seq in Hlen.
      destruct (advance_frame files
                  (MkBatch 0 [] [] (make_chunks (indexed files)) [] Running []) false)
        as (Hc & _).
      fold (analyzeImages files) in Hc. rewrite Hc. cbn. exact Hlen.
    + unfold analyzeImages.
      destruct (advance_cases files
                  (MkBatch 0 [] [] (make_chunks (indexed files)) [] Running []) false)
        as [[-> _] | [(_ & ? & _) | [(_ & _ & _ & c & cs & _ & ->) | (_ & _ & _ & _ & ->)]]];
        done.
  - intros b e b' Hr [Hbal Hst] Hstep.
    split; [| by apply (step_returns_not_aborted b b' e)].
    pose proof (step_pending cbs files b b' e (reachable_pending_nodup cbs files b Hr) Hstep)
      as Hp.
    destruct e as [i loaded total | i r | i].
    + apply step_upload_frame in Hstep as (-> & _). by rewrite Hp.
    + destruct (step_calls_returns cbs files b b' i r Hret Hstep) as (-> & _).
      apply Permutation_length in Hp. cbn [length] in Hp.
      rewrite !length_fmap in Hp. unfold op in *. lia.
    + destruct (step_rejected_returns cbs files b b' i Hret Hstep) as (-> & _).
      apply Permutation_length in Hp. cbn [length] in Hp.
      rewrite !length_fmap in Hp. unfold op in *. lia.
Qed.

(** X12. With callbacks that return, [completed] counts the settlements
    handled so far, of analyses that resolved and of analyses that
    rejected; there are never more of them than files, the call is
    never left through the outer [catch], and it returns its summary
    exactly when every operation has settled; the summary then counts
    every file once, as a success or as a failure, and [success] is true
    exactly when nothing failed. *)
Theorem batch_completion (evs : list event) (b : batch) :
  returns_normally cbs → run cbs files (analyzeImages files) evs = Some b →
  completed b = settlements evs ∧ (settlements evs ≤ length files)%nat ∧
  state b ≠ Aborted ∧
  ((∃ ok s, state b = Resolved ok s) ↔ settlements evs = length files) ∧
  ∀ ok s, state b = Resolved ok s →
    total s = length files ∧ (successful s + failed s = total s)%nat ∧
    (ok = true ↔ failed s = 0%nat).
Proof.
  intros Hret Hrun.
  assert (completed b = settlements evs) as Hcount.
  { revert evs b Hrun. apply run_ind.
    - destruct (advance_frame files
                  (MkBatch 0 [] [] (make_chunks (indexed files)) [] Running []) false)
        as (Hc & _).
      exact Hc.
    - intros evs b e b' Hrun IH Hstep. rewrite settlements_snoc.
      destruct e as [i loaded total | i r | i]; cbn.
      + apply step_upload_frame in Hstep as (-> & _). lia.
      + destruct (step_calls_returns cbs files b b' i r Hret Hstep) as (-> & _). lia.
      + destruct (step_rejected_returns cbs files b b' i Hret Hstep) as (-> & _). lia. }
  assert (reachable cbs files b) as Hr by (by exists evs).
  destruct (reachable_returns_balance b Hret Hr) as [Hbal Hab].
  destruct (reachable_counts cbs files b Hr) as [Hcounts Hsum].
  destruct (reachable_live cbs files b Hr) as [_ Hlive].
  pose proof (reachable_verdict b Hr) as Hverdict.
  rewrite <- Hcount.
  split_and!; [done | lia | done | |].
  - split.
    + intros (ok & s & Hst). destruct (Hsum ok s Hst) as (Hinf & Hch & _).
      unfold pending_ops in Hbal. rewrite Hinf, Hch in Hbal. cbn in Hbal. lia.
    + intros Hall.
      assert (inflight b = []) as Hinf.
      { unfold pending_ops in Hbal. rewrite length_app in Hbal.
        apply length_zero_iff_nil. lia. }
      destruct (state b) as [| ok s |] eqn:Hst; [by destruct Hlive | by eauto | done].
  - intros ok s Hst. destruct (Hsum ok s Hst) as (Hinf & Hch & Htot & Hsucc & Hfail).
    unfold pending_ops in Hbal. rewrite Hinf, Hch in Hbal. cbn in Hbal.
    unfold counts_agree in Hcounts.
    split_and!; [done | lia |].
    rewrite (Hverdict ok s Hst), Hfail. apply Nat.eqb_eq.
Qed.

End BatchCompletion.

Section CompletionEvaluated.
Import Api Batch BatchMore Scenario ScenarioMore.

Lemma batch_completion_witness :
  returns_normally observers ∧
  run observers five_files (analyzeImages five_files) out_of_order = Some all_settled ∧
  completed all_settled = settlements out_of_order ∧
  state all_settled ≠ Aborted.
Proof.
  assert (run observers five_files (analyzeImages five_files) out_of_order
          = Some all_settled) as Hrun by (vm_compute; reflexivity).
  split; [exact observers_return |]. split; [exact Hrun |].
  pose proof (batch_completion observers five_files out_of_order all_settled
                observers_return Hrun) as (Hc & _ & Hab & _).
  split; [exact Hc | exact Hab].
Defined.

End CompletionEvaluated.


Section BatchAbort.
Import Api Batch BatchMore Scenario ScenarioMore ScenarioThrow.
Variable cbs : callbacks.
Variable files : list file.

(** The promise of an operation is rejected only when [onImageComplete]
    throws on the record of the inner [catch] block. *)
Lemma settle_try_rejected (i : nat) (f : file) (r : analyze_result) (b : batch) :
  (settle_try cbs files i f r b).2 = true →
  ∃ cb, onImageComplete cbs = Some cb ∧
        cb (ImageError f "Unexpected error during processing" None) = CbThrows.
Proof.
  settle_cases; intros Hrej; try discriminate Hrej;
    match goal with
    | H : onImageComplete cbs = Some ?c |- _ =>
        exists c; split; [done |];
        destruct (c (ImageError f "Unexpected error during processing" None));
        [discriminate Hrej | done]
    end.
Qed.

Lemma settle_catch_rejected (i : nat) (f : file) (b : batch) :
  (settle_catch cbs i f b).2 = true →
  ∃ cb, onImageComplete cbs = Some cb ∧
        cb (ImageError f "Unexpected error during processing" None) = CbThrows.
Proof.
  unfold settle_catch. destruct (onImageComplete cbs) as [cb |]; cbn; [| done].
  intros Hrej. exists cb. split; [done |].
  by destruct (cb (ImageError f "Unexpected error during processing" None)).
Qed.

Lemma step_not_aborted (b b' : batch) (e : event) :
  catch_report_returns cbs → state b ≠ Aborted →
  step cbs files b e = Some b' → state b' ≠ Aborted.
Proof.
  intros Hret Hst Hstep. destruct e as [i loaded total | i r | i].
  - apply (step_upload_frame cbs files) in Hstep as (_ & _ & _ & _ & _ & ->). done.
  - apply step_settled in Hstep as (f & _ & ->).
    destruct (settle_try_frame cbs files i f r b) as (_ & _ & Hstate).
    destruct (advance_cases files
                (set_inflight (settle_try cbs files i f r b).1 (remove_op i (inflight b)))
                (settle_try cbs files i f r b).2)
      as [[-> _] | [(_ & Hrej & _) | [(_ & _ & _ & c & cs & _ & ->) | (_ & _ & _ & _ & ->)]]];
      cbn; [by rewrite Hstate | | done | done].
    exfalso. apply settle_try_rejected in Hrej as (cb & Hcb & Hthrow).
    by rewrite (Hret cb f Hcb) in Hthrow.
  - apply step_rejected in Hstep as (f & _ & ->).
    destruct (settle_catch_frame cbs i f b) as (_ & _ & Hstate).
    destruct (advance_cases files
                (set_inflight (settle_catch cbs i f b).1 (remove_op i (inflight b)))
                (settle_catch cbs i f b).2)
      as [[-> _] | [(_ & Hrej & _) | [(_ & _ & _ & c & cs & _ & ->) | (_ & _ & _ & _ & ->)]]];
      cbn; [by rewrite Hstate | | done | done].
    exfalso. apply settle_catch_rejected in Hrej as (cb & Hcb & Hthrow).
    by rewrite (Hret cb f Hcb) in Hthrow.
Qed.

(** X13. The call is left through the outer [catch] only when
    [onImageComplete] throws on the record of an inner [catch] block: when
    it is not given, or returns on the records whose error is 'Unexpected
    error during processing', no state of the call is the aborted one,
    whatever [onProgress] does. *)
Theorem abort_needs_throwing_error_report (b : batch) :
  catch_report_returns cbs → reachable cbs files b → state b ≠ Aborted.
Proof.
  intros Hret. revert b. apply reachable_ind.
  - unfold analyzeImages.
    destruct (advance_cases files
                (MkBatch 0 [] [] (make_chunks (indexed files)) [] Running []) false)
      as [[-> _] | [(_ & ? & _) | [(_ & _ & _ & c & cs & _ & ->) | (_ & _ & _ & _ & ->)]]];
      done.
  - intros b e b' _ Hst Hstep. by apply (step_not_aborted b b' e).
Qed.

Lemma step_aborted (b b' : batch) (e : event) :
  state b = Aborted → step cbs files b e = Some b' →
  state b' = Aborted ∧ chunks b' = chunks b ∧ inflight b' `sublist_of` inflight b.
Proof.
  intros Hst Hstep. destruct e as [i loaded total | i r | i].
  - apply (step_upload_frame cbs files) in Hstep as (_ & _ & _ & -> & -> & ->). done.
  - apply step_settled in Hstep as (f & _ & ->).
    destruct (settle_try_frame cbs files i f r b) as (Hch & _ & Hstate).
    unfold advance. cbn [state set_inflight]. rewrite Hstate, Hst. cbn.
    split_and!; [by rewrite Hstate | done | apply sublist_filter].
  - apply step_rejected in Hstep as (f & _ & ->).
    destruct (settle_catch_frame cbs i f b) as (Hch & _ & Hstate).
    unfold advance. cbn [state set_inflight]. rewrite Hstate, Hst. cbn.
    split_and!; [by rewrite Hstate | done | apply sublist_filter].
Qed.

(** X14. Once the call has been left through the outer [catch], it stays
    so: the operations in flight may still settle, but no queued chunk is
    ever started. *)
Theorem aborted_batch_starts_nothing (b b' : batch) (evs : list event) :
  state b = Aborted → run cbs files b evs = Some b' →
  state b' = Aborted ∧ chunks b' = chunks b ∧ inflight b' `sublist_of` inflight b.
Proof.
  revert b. induction evs as [| e evs IH]; intros b Hst Hrun.
  - cbn in Hrun. by simplify_eq.
  - cbn in Hrun. destruct (step cbs files b e) as [b1 |] eqn:Hstep; [| done].
    destruct (step_aborted b b1 e Hst Hstep) as (Hst1 & Hch1 & Hinf1).
    destruct (IH b1 Hst1 Hrun) as (Hst' & Hch' & Hinf').
    split_and!; [done | congruence | by etrans].
Qed.

(** X15. When [onImageComplete] throws on a success, the inner [catch]
    block counts the operation again: [completed] grows by two, the file
    is recorded in [results] and in [errors], and [onImageComplete] is
    invoked twice for the operation. *)
Theorem throwing_onImageComplete_counts_twice (b : batch) (i : nat) (f : file)
    (d : analysis) (cb : item_record → cb_result) :
  lookup_op i (inflight b) = Some f → onImageComplete cbs = Some cb →
  cb (ImageResult f d) = CbThrows →
  ∃ b', step cbs files b (Settled i (AnalyzeOk d)) = Some b' ∧
        completed b' = S (S (completed b)) ∧
        results b' = results b ++ [ImageResult f d] ∧
        errors b' = errors b ++ [ImageError f "Unexpected error during processing" None] ∧
        completed_ops (calls b') = completed_ops (calls b) ++ [i; i].
Proof.
  intros Hlook Hcb Hthrow. unfold step. rewrite Hlook.
  destruct (settle_try cbs files i f (AnalyzeOk d) b) as [b1 rej] eqn:Hst.
  eexists. split; [reflexivity |].
  destruct (advance_frame files (set_inflight b1 (remove_op i (inflight b))) rej)
    as (-> & -> & -> & ->).
  unfold settle_try, settle_catch in Hst. rewrite Hcb in Hst. cbn in Hst.
  rewrite Hthrow in Hst. cbn in Hst. injection Hst as <- _. cbn.
  split_and!; [done | done | done |].
  by rewrite !completed_ops_app, <- app_assoc.
Qed.

End BatchAbort.

Section AbortEvaluated.
Import Api Batch BatchMore Scenario ScenarioMore ScenarioThrow.

Lemma abort_needs_throwing_error_report_witness :
  catch_report_returns progress_throws ∧
  reachable progress_throws five_files
    (after_with progress_throws five_files [Settled 0 tagged]) ∧
  state (after_with progress_throws five_files [Settled 0 tagged]) ≠ Aborted.
Proof.
  assert (catch_report_returns progress_throws) as Hret by (intros cb f Hcb; discriminate Hcb).
  assert (reachable progress_throws five_files
            (after_with progress_throws five_files [Settled 0 tagged])) as Hr.
  { exists [Settled 0 tagged]. vm_compute. reflexivity. }
  split; [exact Hret |]. split; [exact Hr |].
  exact (abort_needs_throwing_error_report progress_throws five_files _ Hret Hr).
Defined.

Lemma aborted_batch_starts_nothing_witness :
  state (after_with complete_throws five_files [Settled 0 tagged]) = Aborted ∧
  run complete_throws five_files
    (after_with complete_throws five_files [Settled 0 tagged]) [Settled 1 tagged] =
    Some (after_with complete_throws five_files [Settled 0 tagged; Settled 1 tagged]) ∧
  state (after_with complete_throws five_files [Settled 0 tagged; Settled 1 tagged]) = Aborted ∧
  chunks (after_with complete_throws five_files [Settled 0 tagged; Settled 1 tagged]) =
    chunks (after_with complete_throws five_files [Settled 0 tagged]).
Proof.
  assert (state (after_with complete_throws five_files [Settled 0 tagged]) = Aborted)
    as Hst by (vm_compute; reflexivity).
  assert (run complete_throws five_files
            (after_with complete_throws five_files [Settled 0 tagged]) [Settled 1 tagged] =
          Some (after_with complete_throws five_files [Settled 0 tagged; Settled 1 tagged]))
    as Hrun by (vm_compute; reflexivity).
  split; [exact Hst |]. split; [exact Hrun |].
  pose proof (aborted_batch_starts_nothing complete_throws five_files _ _ _ Hst Hrun)
    as (H1 & H2 & _).
  split; [exact H1 | exact H2].
Defined.

Lemma throwing_onImageComplete_counts_twice_witness :
  lookup_op 0 (inflight (analyzeImages five_files)) = Some (png "a.png") ∧
  ∃ b', step success_throws five_files (analyzeImages five_files)
          (Settled 0 (AnalyzeOk cat_analysis)) = Some b' ∧
        completed b' = 2%nat.
Proof.
  split; [vm_compute; reflexivity |].
  destruct (throwing_onImageComplete_counts_twice success_throws five_files
              (analyzeImages five_files) 0 (png "a.png") cat_analysis
              (λ r, if is_success r then CbThrows else CbReturns))
    as (b' & Hstep & Hc & _); [vm_compute; reflexivity | reflexivity | reflexivity |].
  exists b'. split; [exact Hstep |]. rewrite Hc. vm_compute. reflexivity.
Defined.

End AbortEvaluated.


Section BatchRecords.
Import Api Batch BatchMore Scenario ScenarioMore.
Variable cbs : callbacks.
Variable files : list file.

Lemma settle_try_returns_records (i : nat) (f : file) (r : analyze_result) (b : batch) :
  returns_normally cbs →
  match r with
  | AnalyzeOk d =>
      results (settle_try cbs files i f r b).1 = results b ++ [ImageResult f d] ∧
      errors (settle_try cbs files i f r b).1 = errors b
  | AnalyzeFailed e c _ =>
      results (settle_try cbs files i f r b).1 = results b ∧
      errors (settle_try cbs files i f r b).1 = errors b ++ [ImageError f e (Some c)]
  end.
Proof.
  intros [Hp Hc].
  settle_cases;
    try match goal with
        | H : throws (?c ?x) = true |- _ =>
            first [rewrite (Hc c x eq_refl) in H | rewrite (Hp c x eq_refl) in H];
            discriminate H
        end;
    done.
Qed.

(** A settlement takes its operation, and no other, out of the pending
    ones. *)
Lemma step_pending_ops (b b' : batch) (e : event) (i : nat) (f : file) :
  NoDup (pending_ops b).*1 → lookup_op i (inflight b) = Some f →
  settles e i → step cbs files b e = Some b' →
  pending_ops b ≡ₚ (i, f) :: pending_ops b'.
Proof.
  intros Hnd Hlook He Hstep.
  apply (step_settles cbs files b b' e i He) in Hstep
    as (g & b1 & rej & Hlook' & Hc & _ & _ & ->).
  rewrite advance_pending. unfold pending_ops in *. cbn. rewrite Hc.
  rewrite fmap_app in Hnd. apply NoDup_app in Hnd as (Hnd & _ & _).
  rewrite (remove_op_perm i f (inflight b) Hnd Hlook) at 1.
  done.
Qed.

Lemma settle_catch_returns_records (i : nat) (f : file) (b : batch) :
  results (settle_catch cbs i f b).1 = results b ∧
  errors (settle_catch cbs i f b).1 =
    errors b ++ [ImageError f "Unexpected error during processing" None].
Proof. settle_cases; done. Qed.

Lemma indexed_snd : (indexed files).*2 = files.
Proof. unfold indexed. apply snd_zip. by rewrite length_seq. Qed.

(** Whatever the callbacks do, [results] holds successes and [errors]
    failures. *)
Lemma settle_try_kinds (i : nat) (f : file) (r : analyze_result) (b : batch) :
  Forall (λ x, is_success x = true) (results b) →
  Forall (λ x, is_success x = false) (errors b) →
  Forall (λ x, is_success x = true) (results (settle_try cbs files i f r b).1) ∧
  Forall (λ x, is_success x = false) (errors (settle_try cbs files i f r b).1).
Proof.
  intros Hr He.
  settle_cases; split; repeat (apply Forall_app; split); try done;
    by apply Forall_singleton.
Qed.

Lemma settle_catch_kinds (i : nat) (f : file) (b : batch) :
  Forall (λ x, is_success x = true) (results b) →
  Forall (λ x, is_success x = false) (errors b) →
  Forall (λ x, is_success x = true) (results (settle_catch cbs i f b).1) ∧
  Forall (λ x, is_success x = false) (errors (settle_catch cbs i f b).1).
Proof.
  intros Hr He.
  settle_cases; split; repeat (apply Forall_app; split); try done;
    by apply Forall_singleton.
Qed.

Lemma reachable_kinds (b : batch) :
  reachable cbs files b →
  Forall (λ x, is_success x = true) (results b) ∧
  Forall (λ x, is_success x = false) (errors b).
Proof.
  revert b. apply reachable_ind.
  - destruct (advance_frame files
                (MkBatch 0 [] [] (make_chunks (indexed files)) [] Running []) false)
      as (_ & Hr & He & _).
    fold (analyzeImages files) in Hr, He. rewrite Hr, He. by split.
  - intros b e b' _ [Hr He] Hstep. destruct e as [i loaded total | i r | i].
    + apply (step_upload_frame cbs files) in Hstep as (_ & -> & -> & _). by split.
    + apply step_settled in Hstep as (f & _ & ->).
      destruct (advance_frame files
                  (set_inflight (settle_try cbs files i f r b).1 (remove_op i (inflight b)))
                  (settle_try cbs files i f r b).2) as (_ & -> & -> & _).
      cbn. by apply settle_try_kinds.
    + apply step_rejected in Hstep as (f & _ & ->).
      destruct (advance_frame files
                  (set_inflight (settle_catch cbs i f b).1 (remove_op i (inflight b)))
                  (settle_catch cbs i f b).2) as (_ & -> & -> & _).
      cbn. by apply settle_catch_kinds.
Qed.

Lemma reachable_recorded (b : batch) :
  returns_normally cbs → reachable cbs files b →
  recorded_files (results b ++ errors b) ++ (pending_ops b).*2 ≡ₚ files.
Proof.
  intros Hret. revert b. apply reachable_ind.
  - destruct (advance_frame files
                (MkBatch 0 [] [] (make_chunks (indexed files)) [] Running []) false)
      as (_ & Hr & He & _).
    fold (analyzeImages files) in Hr, He.
    rewrite Hr, He, analyzeImages_pending, indexed_snd. done.
  - intros b e b' Hb IH Hstep. destruct e as [i loaded total | i r | i].
    + pose proof (step_pending cbs files b b' _ (reachable_pending_nodup cbs files b Hb) Hstep)
        as Hp. cbn in Hp.
      apply (step_upload_frame cbs files) in Hstep as (_ & -> & -> & _).
      by rewrite Hp.
    + pose proof Hstep as Hstep'.
      apply step_settled in Hstep' as (f & Hlook & Heq).
      pose proof (step_pending_ops b b' (Settled i r) i f
                    (reachable_pending_nodup cbs files b Hb) Hlook eq_refl Hstep) as Hp.
      rewrite Hp in IH. rewrite <- IH.
      destruct (advance_frame files
                  (set_inflight (settle_try cbs files i f r b).1 (remove_op i (inflight b)))
                  (settle_try cbs files i f r b).2) as (_ & Hr & He & _).
      rewrite <- Heq in Hr, He. cbn in Hr, He. rewrite Hr, He.
      pose proof (settle_try_returns_records i f r b Hret) as Hrec.
      unfold recorded_files. destruct r as [d | e c det]; destruct Hrec as [-> ->];
        rewrite !fmap_app, !fmap_cons; cbn.
      * solve_Permutation.
      * solve_Permutation.
    + pose proof Hstep as Hstep'.
      apply step_rejected in Hstep' as (f & Hlook & Heq).
      pose proof (step_pending_ops b b' (Rejected i) i f
                    (reachable_pending_nodup cbs files b Hb) Hlook eq_refl Hstep) as Hp.
      rewrite Hp in IH. rewrite <- IH.
      destruct (advance_frame files
                  (set_inflight (settle_catch cbs i f b).1 (remove_op i (inflight b)))
                  (settle_catch cbs i f b).2) as (_ & Hr & He & _).
      rewrite <- Heq in Hr, He. cbn in Hr, He. rewrite Hr, He.
      destruct (settle_catch_returns_records i f b) as [-> ->].
      unfold recorded_files. rewrite !fmap_app, !fmap_cons; cbn.
      solve_Permutation.
Qed.

(** X16. Whatever the callbacks do, [results] holds only successes and
    [errors] only failures. With callbacks that return, every file of the
    batch is at any time either recorded once, in [results] or in
    [errors], or the file of one pending operation; when the summary is
    returned the records are those of the files of the batch, each
    once. *)
Theorem every_file_recorded_once (b : batch) :
  reachable cbs files b →
  Forall (λ x, is_success x = true) (results b) ∧
  Forall (λ x, is_success x = false) (errors b) ∧
  (returns_normally cbs →
     recorded_files (results b ++ errors b) ++ (pending_ops b).*2 ≡ₚ files ∧
     ∀ ok s, state b = Resolved ok s →
       recorded_files (results b ++ errors b) ≡ₚ files).
Proof.
  intros Hb.
  destruct (reachable_kinds b Hb) as [Hr He].
  destruct (reachable_counts cbs files b Hb) as [_ Hsum].
  split_and!; [done | done |].
  intros Hret. pose proof (reachable_recorded b Hret Hb) as Hrec.
  split; [done |].
  intros ok s Hst. destruct (Hsum ok s Hst) as (Hinf & Hch & _).
  unfold pending_ops in Hrec. rewrite Hinf, Hch in Hrec. cbn in Hrec.
  by rewrite app_nil_r in Hrec.
Qed.

End BatchRecords.

Section RecordsEvaluated.
Import Api Batch BatchMore Scenario ScenarioMore.

Lemma every_file_recorded_once_witness :
  reachable observers five_files all_settled ∧ returns_normally observers ∧
  Forall (λ x, is_success x = true) (results all_settled) ∧
  recorded_files (results all_settled ++ errors all_settled)
    ++ (pending_ops all_settled).*2 ≡ₚ five_files.
Proof.
  assert (reachable observers five_files all_settled) as Hr.
  { exists out_of_order. vm_compute. reflexivity. }
  split; [exact Hr |]. split; [exact observers_return |].
  destruct (every_file_recorded_once observers five_files all_settled Hr)
    as (Hres & _ & H).
  split; [exact Hres |]. exact (proj1 (H observers_return)).
Defined.

End RecordsEvaluated.


(** ** The store: removal, clearing, and a batch seen from the store *)

Section StoreMore.
Import Api Batch App AppMore Scenario ScenarioMore.

Lemma find_image_Some (imageId : string) (imgs : list image) (img : image) :
  find (λ img, String.eqb (id img) imageId) imgs = Some img →
  img ∈ imgs ∧ id img = imageId.
Proof.
  induction imgs as [| x imgs IH]; [done |]. cbn.
  destruct (String.eqb_spec (id x) imageId) as [Heq | _].
  - intros [= <-]. split; [left | done].
  - intros Hf. destruct (IH Hf) as [Hin Hid]. split; [by right | done].
Qed.

Lemma find_first_image (imageId : string) (pre post : list image) (img : image) :
  imageId ∉ id <$> pre → id img = imageId →
  find (λ img, String.eqb (id img) imageId) (pre ++ img :: post) = Some img.
Proof.
  intros Hpre Hid. induction pre as [| x pre IH]; cbn.
  - by rewrite Hid, String.eqb_refl.
  - rewrite fmap_cons in Hpre. apply not_elem_of_cons in Hpre as [Hne Hpre].
    destruct (String.eqb_spec (id x) imageId) as [Heq | _]; [congruence |].
    by apply IH.
Qed.

(** X17. [handleRemoveImage] leaves no trace of the id in [images],
    [loadingImages] and [errorImages], keeps every other image and loading
    entry in its place, and revokes at most one URL: nothing when no image
    has that id, and otherwise the preview URL of the first image with
    that id when this URL is set and not empty, and nothing when it is
    not. Removing the id again changes nothing. *)
Theorem handleRemoveImage_effect (imageId : string) (st : store) :
  (imageId ∉ id <$> images (handleRemoveImage imageId st)) ∧
  (imageId ∉ le_id <$> loadingImages (handleRemoveImage imageId st)) ∧
  errorImages (handleRemoveImage imageId st) !! imageId = None ∧
  (∀ img, id img ≠ imageId →
     (img ∈ images (handleRemoveImage imageId st) ↔ img ∈ images st)) ∧
  (∀ e, le_id e ≠ imageId →
     (e ∈ loadingImages (handleRemoveImage imageId st) ↔ e ∈ loadingImages st)) ∧
  images (handleRemoveImage imageId st) `sublist_of` images st ∧
  loadingImages (handleRemoveImage imageId st) `sublist_of` loadingImages st ∧
  (imageId ∉ id <$> images st →
     revoked (handleRemoveImage imageId st) = revoked st) ∧
  (∀ pre img post,
     images st = pre ++ img :: post → imageId ∉ id <$> pre → id img = imageId →
     revoked (handleRemoveImage imageId st) =
       match previewUrl img with
       | Some u => if String.eqb u "" then revoked st else revoked st ++ [u]
       | None => revoked st
       end) ∧
  handleRemoveImage imageId (handleRemoveImage imageId st) = handleRemoveImage imageId st.
Proof.
  split_and!.
  - apply removed_from_images.
  - apply removed_from_loading.
  - cbn. apply lookup_delete_eq.
  - intros img Hne. cbn. rewrite list_elem_of_filter. split; [by intros [_ ?] | done].
  - intros e Hne. cbn. rewrite list_elem_of_filter. split; [by intros [_ ?] | done].
  - apply sublist_filter.
  - apply sublist_filter.
  - intros Hnot. cbn. by rewrite (find_absent imageId (images st) Hnot).
  - intros pre img post Himgs Hpre Hid. cbn.
    rewrite Himgs, (find_first_image imageId pre post img Hpre Hid). cbn.
    destruct (previewUrl img) as [u |]; [| done]. cbn.
    by destruct (String.eqb_spec u "").
  - unfold handleRemoveImage at 1. cbn [images loadingImages errorImages revoked handleRemoveImage].
    rewrite (find_absent imageId _ (removed_from_images imageId (images st))).
    cbn. rewrite !filter_twice, delete_delete_eq. reflexivity.
Qed.

Lemma fold_revoke {A : Type} (g : A → option string) (l : list A) (log : list string) :
  fold_left (λ log x, revoke_if_set (g x) log) l log = log ++ truthy_urls (g <$> l).
Proof.
  revert log. induction l as [| x l IH]; intros log; cbn.
  - by rewrite app_nil_r.
  - rewrite IH. unfold truthy_urls. cbn. unfold revoke_if_set.
    destruct (g x) as [u |]; [| done].
    destruct (Js.truthy (Some u)); [| done].
    by rewrite <- app_assoc.
Qed.

(** X18. [handleClearAll] empties [images], [loadingImages] and
    [errorImages], and revokes the non-empty preview URL of every image
    and then of every loading entry, each once per entry and in order;
    clearing again revokes nothing more. *)
Theorem handleClearAll_effect (st : store) :
  images (handleClearAll st) = [] ∧ loadingImages (handleClearAll st) = [] ∧
  errorImages (handleClearAll st) = ∅ ∧
  revoked (handleClearAll st) =
    revoked st ++ truthy_urls (previewUrl <$> images st)
               ++ truthy_urls (le_previewUrl <$> loadingImages st) ∧
  handleClearAll (handleClearAll st) = handleClearAll st.
Proof.
  unfold handleClearAll. cbn. rewrite !fold_revoke, <- app_assoc. done.
Qed.

(** X19. An item removed after its analysis has completed gives its
    preview back: the completion revokes nothing, and the removal that
    follows revokes the preview URL of the loading entry, once, and leaves
    no trace of the item. *)
Theorem removal_after_completion_releases_preview
    (result : item_record) (loadingEntries : list loading_entry)
    (e : loading_entry) (u : string) (st : store) :
  find_entry result loadingEntries = Some e →
  le_previewUrl e = Some u → u ≠ "" →
  revoked (handleImageProcessingComplete result loadingEntries st) = revoked st ∧
  revoked (handleRemoveImage (le_id e)
             (handleImageProcessingComplete result loadingEntries st)) =
    revoked st ++ [u] ∧
  (le_id e ∉ id <$> images (handleRemoveImage (le_id e)
                             (handleImageProcessingComplete result loadingEntries st))) ∧
  (le_id e ∉ le_id <$> loadingImages (handleRemoveImage (le_id e)
                             (handleImageProcessingComplete result loadingEntries st))).
Proof.
  intros Hfind Hu Hne.
  split_and!; [| | apply removed_from_images | apply removed_from_loading].
  - unfold handleImageProcessingComplete. rewrite Hfind. by destruct result.
  - unfold handleImageProcessingComplete. rewrite Hfind.
    destruct result as [f r | f err c]; cbn; rewrite String.eqb_refl; cbn;
      rewrite Hu; cbn; by destruct (String.eqb_spec u "").
Qed.

Lemma removal_after_completion_releases_preview_witness :
  find_entry cat_tagged [cat_entry] = Some cat_entry ∧
  revoked (handleRemoveImage (le_id cat_entry)
             (handleImageProcessingComplete cat_tagged [cat_entry] loading_cat)) =
    revoked loading_cat ++ ["blob:cat"].
Proof.
  split; [reflexivity |].
  exact (proj1 (proj2 (removal_after_completion_releases_preview cat_tagged [cat_entry]
                         cat_entry "blob:cat" loading_cat eq_refl eq_refl
                         ltac:(discriminate)))).
Defined.

End StoreMore.


Section BatchToStore.
Import Api Batch BatchMore App AppMore Scenario ScenarioMore.

Lemma find_entry_elem (r : item_record) (es : list loading_entry) (e : loading_entry) :
  find_entry r es = Some e → e ∈ es ∧ name (le_file e) = name (record_file r).
Proof.
  unfold find_entry. intros Hf. apply find_some in Hf as [Hin Heq].
  split; [by apply list_elem_of_In | by apply String.eqb_eq].
Qed.

(** With distinct file names, a record selects the entry of its file. *)
Lemma find_entry_nodup (r : item_record) (es : list loading_entry) (e : loading_entry) :
  NoDup (entry_names es) → e ∈ es → name (le_file e) = name (record_file r) →
  find_entry r es = Some e.
Proof.
  unfold entry_names, find_entry. induction es as [| x es IH]; intros Hnd Hin Hname.
  - by apply elem_of_nil in Hin.
  - rewrite fmap_cons in Hnd. apply NoDup_cons in Hnd as [Hx Hnd]. cbn.
    destruct (String.eqb_spec (name (le_file x)) (name (record_file r))) as [Heq | Hne].
    + apply elem_of_cons in Hin as [-> | Hin]; [done |].
      exfalso. apply Hx. apply list_elem_of_fmap. exists e. split; [congruence | done].
    + apply elem_of_cons in Hin as [-> | Hin]; [congruence |]. by apply IH.
Qed.

Lemma report_revoked (es : list loading_entry) (c : call) (st : store) :
  revoked (report es c st) = revoked st.
Proof.
  destruct c as [src v | i r n rs errs]; [done |]. cbn.
  unfold handleImageProcessingComplete.
  destruct (find_entry r es); [| done]. by destruct r.
Qed.

Lemma replay_revoked (es : list loading_entry) (l : list call) (st : store) :
  revoked (replay es l st) = revoked st.
Proof.
  revert st. induction l as [| c l IH]; intros st; [done |].
  cbn. unfold replay in IH. by rewrite IH, report_revoked.
Qed.

Lemma matched_ids_cons (es : list loading_entry) (c : call) (l : list call) :
  matched_ids es (c :: l) = matched_ids es [c] ++ matched_ids es l.
Proof. unfold matched_ids. by rewrite (omap_app _ [c] l). Qed.

Lemma report_loading (es : list loading_entry) (c : call) (st : store) :
  loadingImages (report es c st) =
    filter (λ x, le_id x ∉ matched_ids es [c]) (loadingImages st).
Proof.
  destruct c as [src v | i r n rs errs]; cbn.
  - symmetry. apply filter_keeps_all, Forall_forall. intros x _. apply not_elem_of_nil.
  - unfold handleImageProcessingComplete.
    destruct (find_entry r es) as [e |]; cbn.
    + destruct r; cbn; apply list_filter_iff; intros x;
        rewrite list_elem_of_singleton; done.
    + symmetry. apply filter_keeps_all, Forall_forall. intros x _. apply not_elem_of_nil.
Qed.

(** The loading entries that a batch leaves are those that no record
    selected. *)
Lemma replay_loading (es : list loading_entry) (l : list call) (st : store) :
  loadingImages (replay es l st) =
    filter (λ x, le_id x ∉ matched_ids es l) (loadingImages st).
Proof.
  revert st. induction l as [| c l IH]; intros st.
  - cbn. symmetry. apply filter_keeps_all, Forall_forall. intros x _. apply not_elem_of_nil.
  - change (replay es (c :: l) st) with (replay es l (report es c st)).
    rewrite IH, report_loading, list_filter_filter, (matched_ids_cons es c l).
    apply list_filter_iff. intros x. rewrite not_elem_of_app.
    split; intros [? ?]; by split.
Qed.

Lemma report_images (es : list loading_entry) (c : call) (st : store) :
  id <$> images (report es c st) = matched_ids es [c] ++ (id <$> images st).
Proof.
  destruct c as [src v | i r n rs errs]; [done |]. cbn.
  unfold handleImageProcessingComplete.
  destruct (find_entry r es) as [e |]; [| done]. by destruct r.
Qed.

(** The images that a batch adds are those of the selected entries, the
    last one reported first. *)
Lemma replay_images (es : list loading_entry) (l : list call) (st : store) :
  id <$> images (replay es l st) = rev (matched_ids es l) ++ (id <$> images st).
Proof.
  revert st. induction l as [| c l IH]; intros st; [done |].
  change (replay es (c :: l) st) with (replay es l (report es c st)).
  rewrite IH, report_images, (matched_ids_cons es c l), rev_app_distr, <- app_assoc.
  f_equal. f_equal.
  destruct c as [src v | i r n rs errs]; [done |]. cbn.
  by destruct (find_entry r es).
Qed.

(** A record of the file at position [i] selects the entry at position
    [i]. *)
Lemma matched_ids_positions (es : list loading_entry) (l : list call) :
  NoDup (entry_names es) → Forall (reports_file (le_file <$> es)) l →
  matched_ids es l = (λ i, default "" (le_id <$> es !! i)) <$> completed_ops l.
Proof.
  intros Hnd Hl. induction Hl as [| c l Hc _ IH]; [done |].
  rewrite (matched_ids_cons es c l), IH.
  change (c :: l) with ([c] ++ l). rewrite completed_ops_app, fmap_app. f_equal.
  destruct c as [src v | i r n rs errs]; [done |]. cbn in *.
  rewrite list_lookup_fmap in Hc.
  destruct (es !! i) as [e |] eqn:He; [| done]. cbn in Hc. injection Hc as Hfile.
  rewrite (find_entry_nodup r es e Hnd); [done | by eapply list_elem_of_lookup_2 |].
  by rewrite Hfile.
Qed.

Lemma positions_all (es : list loading_entry) :
  (λ i, default "" (le_id <$> es !! i)) <$> seq 0 (length es) = le_id <$> es.
Proof.
  apply list_eq. intros k. rewrite !list_lookup_fmap.
  destruct (decide (k < length es)%nat) as [Hlt | Hge].
  - rewrite lookup_seq_lt by done. cbn.
    destruct (lookup_lt_is_Some_2 es k Hlt) as [e He]. by rewrite He.
  - rewrite lookup_seq_ge by lia. by rewrite lookup_ge_None_2 by lia.
Qed.

Lemma filter_drops_all {A : Type} (P : A → Prop) `{∀ x, Decision (P x)} (l : list A) :
  Forall (λ x, ¬ P x) l → filter P l = [].
Proof.
  induction 1 as [| x l Hx _ IH]; [done |].
  by rewrite filter_cons_False, IH.
Qed.

(** X20. A batch seen from the store. [handleFilesSelected] appends the
    loading entries and hands [handleImageProcessingComplete] to
    [analyzeImages]; when the file names of the batch are distinct and
    [analyzeImages] has returned its summary, no entry of the batch is
    left in [loadingImages], the entries that were loading before are
    there unless they share an id with the batch, [images] has gained
    one image per entry of the batch, in front of the older ones, and no
    preview URL has been revoked. *)
Theorem batch_settles_every_loading_entry
    (cbs : callbacks) (cb : item_record → cb_result)
    (entries : list loading_entry) (st : store) (b : batch) (ok : bool) (s : summary) :
  returns_normally cbs → onImageComplete cbs = Some cb →
  NoDup (entry_names entries) →
  reachable cbs (le_file <$> entries) b → state b = Resolved ok s →
  loadingImages (replay entries (calls b) (addLoadingEntries entries st)) =
    filter (λ x, le_id x ∉ le_id <$> entries) (loadingImages st) ∧
  (∃ order, order ≡ₚ le_id <$> entries ∧
     id <$> images (replay entries (calls b) (addLoadingEntries entries st)) =
       order ++ (id <$> images st)) ∧
  revoked (replay entries (calls b) (addLoadingEntries entries st)) = revoked st.
Proof.
  intros Hret Hcb Hnd Hb Hst.
  pose proof (reachable_reports cbs _ b Hb) as Hrep.
  pose proof (reachable_accounted cbs _ b cb Hret Hcb Hb) as Hacc.
  destruct (reachable_counts cbs _ b Hb) as [_ Hsum].
  destruct (Hsum ok s Hst) as (Hinf & Hch & _).
  unfold every_op_accounted, pending_ops in Hacc.
  rewrite Hinf, Hch in Hacc. cbn in Hacc. rewrite app_nil_r, length_fmap in Hacc.
  assert (matched_ids entries (calls b) ≡ₚ le_id <$> entries) as Hmatched.
  { rewrite (matched_ids_positions entries (calls b) Hnd Hrep), Hacc.
    by rewrite positions_all. }
  split_and!.
  - rewrite replay_loading. cbn. rewrite filter_app.
    rewrite (filter_drops_all _ entries), app_nil_r.
    + apply list_filter_iff. intros x. by rewrite Hmatched.
    + apply Forall_forall. intros x Hx Hnot. apply Hnot. rewrite Hmatched.
      apply list_elem_of_fmap. by exists x.
  - exists (rev (matched_ids entries (calls b))). split.
    + etrans; [symmetry; apply Permutation_rev | exact Hmatched].
    + by rewrite replay_images.
  - by rewrite replay_revoked.
Qed.

End BatchToStore.


Section BatchToStoreMore.
Import Api Batch BatchMore App AppMore Scenario ScenarioMore ScenarioStore.

Lemma batch_settles_every_loading_entry_witness :
  returns_normally observers ∧
  NoDup (entry_names two_entries) ∧
  reachable observers (le_file <$> two_entries) two_uploads_settled ∧
  state two_uploads_settled = Resolved true (Summary 2 2 0) ∧
  loadingImages (replay two_entries (calls two_uploads_settled)
                   (addLoadingEntries two_entries empty_store)) =
    filter (λ x, le_id x ∉ le_id <$> two_entries) (loadingImages empty_store).
Proof.
  assert (NoDup (entry_names two_entries)) as Hnd.
  { apply NoDup_cons. split; [| apply NoDup_singleton].
    intros Hin. apply list_elem_of_singleton in Hin. discriminate Hin. }
  assert (reachable observers (le_file <$> two_entries) two_uploads_settled) as Hr.
  { exists (side_by_side ++ [Settled 0 tagged; Settled 1 tagged]). vm_compute. reflexivity. }
  assert (state two_uploads_settled = Resolved true (Summary 2 2 0)) as Hst
    by (vm_compute; reflexivity).
  split; [exact observers_return |]. split; [exact Hnd |]. split; [exact Hr |].
  split; [exact Hst |].
  exact (proj1 (batch_settles_every_loading_entry observers (λ _, CbReturns) two_entries
                  empty_store two_uploads_settled true (Summary 2 2 0)
                  observers_return eq_refl Hnd Hr Hst)).
Defined.

Lemma find_first_match {A : Type} (p : A → bool) (l1 rest : list A) (x0 x : A) :
  p x0 = true → find p (l1 ++ x0 :: rest) = Some x → x ∈ l1 ++ [x0].
Proof.
  intros Hp. induction l1 as [| y l1 IH]; cbn.
  - rewrite Hp. intros [= <-]. by left.
  - destruct (p y); [intros [= <-]; by left |].
    intros Hf. right. by apply IH.
Qed.

Lemma NoDup_fmap_elem {A B : Type} (f : A → B) (l : list A) (x y : A) :
  NoDup (f <$> l) → x ∈ l → y ∈ l → f x = f y → x = y.
Proof.
  induction l as [| z l IH]; intros Hnd Hx Hy Hf; [by apply elem_of_nil in Hx |].
  rewrite fmap_cons in Hnd. apply NoDup_cons in Hnd as [Hz Hnd].
  apply elem_of_cons in Hx as [-> | Hx]; apply elem_of_cons in Hy as [-> | Hy].
  - done.
  - exfalso. apply Hz. rewrite Hf. apply list_elem_of_fmap. by exists y.
  - exfalso. apply Hz. rewrite <- Hf. apply list_elem_of_fmap. by exists x.
  - by apply IH.
Qed.

(** X21. Two files of one batch with the same name: the records of both
    select the loading entry of the first one, so the entry of the second
    one is never taken out of [loadingImages], whatever the batch
    reports. *)
Theorem same_name_entry_never_leaves
    (l1 l2 l3 : list loading_entry) (e0 e : loading_entry)
    (l : list call) (st : store) :
  name (le_file e0) = name (le_file e) →
  NoDup (le_id <$> l1 ++ e0 :: l2 ++ e :: l3) →
  e ∈ loadingImages st →
  (le_id e ∉ matched_ids (l1 ++ e0 :: l2 ++ e :: l3) l) ∧
  e ∈ loadingImages (replay (l1 ++ e0 :: l2 ++ e :: l3) l st).
Proof.
  intros Hname Hnd Hin.
  assert (e ∈ l1 ++ e0 :: l2 ++ e :: l3) as He.
  { rewrite elem_of_app, elem_of_cons, elem_of_app, elem_of_cons. auto. }
  assert (le_id e ∉ matched_ids (l1 ++ e0 :: l2 ++ e :: l3) l) as Hnot.
  { intros Hm. unfold matched_ids in Hm.
    apply list_elem_of_omap in Hm as (c & _ & Hc).
    destruct c as [src v | i r n rs errs]; [done |].
    destruct (find_entry r (l1 ++ e0 :: l2 ++ e :: l3)) as [x |] eqn:Hfind; [| done].
    cbn in Hc. injection Hc as Hid.
    pose proof (find_entry_elem _ _ _ Hfind) as [Hxin Hx].
    assert (x = e) as -> by (by apply (NoDup_fmap_elem le_id _ x e Hnd)).
    unfold find_entry in Hfind.
    apply (find_first_match _ l1 (l2 ++ e :: l3) e0 e) in Hfind;
      [| apply String.eqb_eq; congruence].
    replace (l1 ++ e0 :: l2 ++ e :: l3) with ((l1 ++ [e0]) ++ l2 ++ e :: l3) in Hnd
      by (by rewrite <- app_assoc).
    rewrite fmap_app in Hnd. apply NoDup_app in Hnd as (_ & Hdis & _).
    apply (Hdis (le_id e)); [apply list_elem_of_fmap; by exists e |].
    apply list_elem_of_fmap. exists e. split; [done |].
    rewrite elem_of_app, elem_of_cons. auto. }
  split; [exact Hnot |].
  rewrite replay_loading. by apply list_elem_of_filter.
Qed.

Lemma same_name_entry_never_leaves_witness :
  twin_entries !! 1%nat = Some (LoadingEntry "img_2_a" "a.png" (Some "blob:2") (png "a.png")) ∧
  state twins_settled = Resolved true (Summary 2 2 0) ∧
  LoadingEntry "img_2_a" "a.png" (Some "blob:2") (png "a.png")
    ∈ loadingImages (replay twin_entries (calls twins_settled)
                       (addLoadingEntries twin_entries empty_store)).
Proof.
  split; [reflexivity |]. split; [vm_compute; reflexivity |].
  refine (proj2 (same_name_entry_never_leaves []
                   [] [] (LoadingEntry "img_1_a" "a.png" (Some "blob:1") (png "a.png"))
                   (LoadingEntry "img_2_a" "a.png" (Some "blob:2") (png "a.png"))
                   (calls twins_settled) (addLoadingEntries twin_entries empty_store)
                   eq_refl _ _)).
  - apply NoDup_cons. split; [| apply NoDup_singleton].
    intros Hin. apply list_elem_of_singleton in Hin. discriminate Hin.
  - right. left.
Defined.

End BatchToStoreMore.


Section FilesSelectedMore.
Import Api Batch BatchMore App AppMore Scenario ScenarioMore ScenarioStore.
Variable generateImageId : nat → string.
Variable createImagePreview : nat → file → option string.

Lemma loadingEntries_files (files : list file) :
  le_file <$> loadingEntries generateImageId createImagePreview files = validFiles files.
Proof.
  unfold loadingEntries. apply list_eq. intros k.
  rewrite list_lookup_fmap, list_lookup_imap.
  by destruct (validFiles files !! k).
Qed.

(** X22. [handleFilesSelected], up to its call of [analyzeImages]. When
    no selected file passes [validateFile] it returns and leaves the
    store alone. Otherwise it appends one loading entry for every valid
    file, in the order of the selection, with the generated ids in
    order and the name of the file as file name, and touches nothing
    else; the files that it hands to [analyzeImages] are the files of
    these entries. *)
Theorem handleFilesSelected_begin_effect (files : list file) (st : store) :
  le_file <$> loadingEntries generateImageId createImagePreview files = validFiles files ∧
  le_id <$> loadingEntries generateImageId createImagePreview files =
    generateImageId <$> seq 0 (length (validFiles files)) ∧
  Forall (λ e, le_filename e = name (le_file e) ∧ valid (validateFile (le_file e)) = true)
         (loadingEntries generateImageId createImagePreview files) ∧
  validFiles files `sublist_of` files ∧
  match handleFilesSelected_begin generateImageId createImagePreview files st with
  | None => Forall (λ f, valid (validateFile f) = false) files
  | Some st' =>
      (∃ f, f ∈ files ∧ valid (validateFile f) = true) ∧
      images st' = images st ∧
      loadingImages st' =
        loadingImages st ++ loadingEntries generateImageId createImagePreview files ∧
      errorImages st' = errorImages st ∧ revoked st' = revoked st
  end.
Proof.
  split_and!.
  - apply loadingEntries_files.
  - unfold loadingEntries. apply list_eq. intros k.
    rewrite !list_lookup_fmap, list_lookup_imap.
    destruct (validFiles files !! k) as [f |] eqn:Hk; cbn.
    + rewrite lookup_seq_lt by (by eapply lookup_lt_Some). done.
    + rewrite lookup_seq_ge; [done |]. by apply lookup_ge_None.
  - apply Forall_lookup. intros k e. unfold loadingEntries.
    rewrite list_lookup_imap.
    destruct (validFiles files !! k) as [f |] eqn:Hk; [| done].
    cbn. intros [= <-]. cbn. split; [done |].
    apply list_elem_of_lookup_2 in Hk. unfold validFiles in Hk.
    by apply list_elem_of_filter in Hk as [Hv _].
  - apply sublist_filter.
  - unfold handleFilesSelected_begin.
    destruct (validFiles files) as [| f fs] eqn:Hvalid.
    + apply Forall_forall. intros f Hf.
      destruct (valid (validateFile f)) eqn:Hv; [| done].
      exfalso. assert (f ∈ validFiles files) as Hin by (by apply list_elem_of_filter).
      rewrite Hvalid in Hin. by apply elem_of_nil in Hin.
    + split_and!; [| done | done | done | done].
      exists f. assert (f ∈ validFiles files) as Hin by (rewrite Hvalid; left).
      by apply list_elem_of_filter in Hin as [Hv Hin].
Qed.

End FilesSelectedMore.


(** ** ImageUpload *)

Section UploadFileChange.
Import Api Upload.
Variable now : nat → Z.
Variable createObjectURL : nat → string.

Lemma check_file_cases (index : nat) (f : file) :
  accepts f ∧
    check_file now createObjectURL index f =
      Accepted (Preview (name f ++ "-" ++ pretty (now index) ++ "-" ++ pretty index)%string
                        f (createObjectURL index) (name f) (size f)) ∨
  ¬ accepts f ∧ ∃ e, check_file now createObjectURL index f = Rejected e.
Proof.
  unfold check_file, accepts, maxFileSize.
  destruct (Z.gtb_spec (size f) (10 * 1024 * 1024)) as [Hbig | Hsmall].
  - right. split; [lia | by eexists].
  - destruct (Js.includes fileTypes (toUpperCase (last_segment "." (name f)))) eqn:Hinc; cbn.
    + left. split; [| done]. split; [done |].
      apply list_elem_of_In. by apply includes_In.
    + right. split; [| by eexists]. intros [_ Hin].
      apply list_elem_of_In, includes_In in Hin. congruence.
Qed.

Lemma forEach_check_counts (index : nat) (files : list file) :
  (length (omap kept (forEach_check now createObjectURL index files))
   + length (omap refused (forEach_check now createObjectURL index files)))%nat
  = length files.
Proof.
  revert index. induction files as [| f files IH]; intros index; [done |].
  cbn [forEach_check]. specialize (IH (S index)).
  unfold omap in *.
  destruct (check_file now createObjectURL index f); simpl in *; lia.
Qed.

Lemma forEach_check_files (index : nat) (files : list file) :
  pv_file <$> omap kept (forEach_check now createObjectURL index files) =
    filter accepts files.
Proof.
  revert index. induction files as [| f files IH]; intros index; [done |].
  cbn [forEach_check omap].
  destruct (check_file_cases index f) as [[Hacc ->] | [Hrej [e ->]]].
  - rewrite filter_cons_True by done. simpl. f_equal. apply IH.
  - rewrite filter_cons_False by done. simpl. apply IH.
Qed.

Lemma forEach_check_fields (index : nat) (files : list file) :
  Forall (λ p, pv_name p = name (pv_file p) ∧ pv_size p = size (pv_file p))
         (omap kept (forEach_check now createObjectURL index files)).
Proof.
  revert index. induction files as [| f files IH]; intros index; [constructor |].
  cbn [forEach_check omap].
  destruct (check_file_cases index f) as [[Hacc ->] | [Hrej [e ->]]]; cbn; [| done].
  constructor; [done | apply IH].
Qed.

End UploadFileChange.


Section UploadIds.
Import Api Upload.

Lemma append_cons (c : ascii) (a b : string) :
  (String c a ++ b)%string = String c (a ++ b)%string.
Proof. reflexivity. Qed.

Lemma append_empty_r (a : string) : (a ++ "")%string = a.
Proof. induction a as [| c a IH]; [done |]. by rewrite append_cons, IH. Qed.

Lemma append_snoc (a b : string) (c : ascii) :
  ((a ++ String c "") ++ b)%string = (a ++ String c b)%string.
Proof. induction a as [| c' a IH]; [done |]. by rewrite !append_cons, IH. Qed.

(** [pop_split] reads its string from left to right. *)
Lemma pop_split_app (sep : ascii) (a b current : string) :
  pop_split sep (a ++ b) current = pop_split sep b (pop_split sep a current).
Proof.
  revert current. induction a as [| c a IH]; intros current; [done |].
  rewrite append_cons. cbn [pop_split].
  destruct (Ascii.eqb c sep); apply IH.
Qed.

Lemma pop_split_no_sep (sep : ascii) (b current : string) :
  occurs sep b = false → pop_split sep b current = (current ++ b)%string.
Proof.
  revert current. induction b as [| c b IH]; intros current Hb; cbn [pop_split occurs] in *.
  - by rewrite append_empty_r.
  - apply orb_false_iff in Hb as [Hc Hb]. rewrite Hc, IH by done.
    apply append_snoc.
Qed.

Lemma pretty_N_go_no_dash (x : N) (s : string) :
  occurs "-" s = false → occurs "-" (pretty_N_go x s) = false.
Proof.
  revert s. induction (N.lt_wf_0 x) as [x _ IH]; intros s Hs.
  assert (x = 0 ∨ 0 < x)%N as [-> | Hpos] by lia.
  - by rewrite pretty_N_go_0.
  - rewrite pretty_N_go_step by done. apply IH; [by apply N.div_lt |].
    cbn. rewrite Hs. unfold pretty_N_char. by repeat case_match.
Qed.

Lemma pretty_nat_no_dash (k : nat) : occurs "-" (pretty k) = false.
Proof.
  unfold pretty, pretty_nat, pretty, pretty_N.
  destruct (decide (N.of_nat k = 0%N)); [done |].
  by apply pretty_N_go_no_dash.
Qed.

(** The part of a preview id after its last dash is the index. *)
Lemma preview_id_index (n t : string) (index : nat) :
  last_segment "-" (n ++ "-" ++ t ++ "-" ++ pretty index) = pretty index.
Proof.
  unfold last_segment. rewrite pop_split_app.
  change ("-" ++ t ++ "-" ++ pretty index)%string
    with (String "-" (t ++ String "-" (pretty index)))%string.
  cbn [pop_split]. rewrite Ascii.eqb_refl, pop_split_app.
  cbn [pop_split]. rewrite Ascii.eqb_refl.
  by rewrite pop_split_no_sep by apply pretty_nat_no_dash.
Qed.

Variable now : nat → Z.
Variable createObjectURL : nat → string.

Lemma forEach_check_ids (index : nat) (files : list file) :
  ∃ idxs, Forall (λ k, (index ≤ k)%nat) idxs ∧ NoDup idxs ∧
    (λ p, last_segment "-" (pv_id p))
      <$> omap kept (forEach_check now createObjectURL index files)
    = pretty <$> idxs.
Proof.
  revert index. induction files as [| f files IH]; intros index.
  - exists []. by repeat constructor.
  - destruct (IH (S index)) as (idxs & Hge & Hnd & Hids).
    cbn [forEach_check].
    destruct (check_file_cases now createObjectURL index f) as [[Hacc ->] | [Hrej [e ->]]].
    + exists (index :: idxs). split_and!.
      * constructor; [done |]. eapply Forall_impl; [exact Hge |]. cbn. lia.
      * apply NoDup_cons. split; [| done]. intros Hin.
        rewrite Forall_forall in Hge. specialize (Hge index Hin). lia.
      * simpl. rewrite preview_id_index. f_equal. exact Hids.
    + exists idxs. split_and!; [| done | exact Hids].
      eapply Forall_impl; [exact Hge |]. cbn. lia.
Qed.

Lemma forEach_check_ids_nodup (files : list file) :
  NoDup (pv_id <$> omap kept (forEach_check now createObjectURL 0 files)).
Proof.
  destruct (forEach_check_ids 0 files) as (idxs & _ & Hnd & Hids).
  apply (NoDup_fmap_1 (last_segment "-")).
  rewrite <- list_fmap_compose.
  change (last_segment "-" ∘ pv_id) with (λ p, last_segment "-" (pv_id p)).
  rewrite Hids. by apply NoDup_fmap_2; [apply _ |].
Qed.

(** X23. [handleFileChange]. A selection of more than [maxFiles] files
    only replaces the errors: no preview is made or revoked and the
    parent is not called. Otherwise every file gets either a preview or
    one error; the previews are those of the files that are at most 10 MB
    and whose name ends, after its last dot, in one of the four
    extensions, in the order of the selection and with distinct ids; the
    URLs of the previews shown before are all revoked; and the parent is
    called once, with these files, unless there is none. *)
Theorem handleFileChange_effect (maxFiles : nat) (files : list file) (st : upload) :
  if (maxFiles <? length files)%nat then
    handleFileChange now createObjectURL maxFiles files st =
      MkUpload (previewImages st) [TooManyFiles maxFiles (length files)]
               (created st) (revoked st) (selected st)
  else
    (length (previewImages (handleFileChange now createObjectURL maxFiles files st))
     + length (errors (handleFileChange now createObjectURL maxFiles files st)))%nat
      = length files ∧
    pv_file <$> previewImages (handleFileChange now createObjectURL maxFiles files st)
      = filter accepts files ∧
    Forall (λ p, pv_name p = name (pv_file p) ∧ pv_size p = size (pv_file p))
           (previewImages (handleFileChange now createObjectURL maxFiles files st)) ∧
    NoDup (pv_id <$> previewImages (handleFileChange now createObjectURL maxFiles files st)) ∧
    revoked (handleFileChange now createObjectURL maxFiles files st)
      = revoked st ++ (pv_previewUrl <$> previewImages st) ∧
    selected (handleFileChange now createObjectURL maxFiles files st)
      = match filter accepts files with
        | [] => selected st
        | _ :: _ => selected st ++ [filter accepts files]
        end.
Proof.
  unfold handleFileChange.
  destruct (maxFiles <? length files)%nat; [done |].
  cbn [previewImages errors revoked selected].
  rewrite forEach_check_files.
  split_and!; [apply forEach_check_counts | done | apply forEach_check_fields
              | apply forEach_check_ids_nodup | done | done].
Qed.

End UploadIds.


Section UploadLifecycle.
Import Api Upload.

Lemma find_preview_Some (imageId : string) (l : list preview) (p : preview) :
  find (λ img, String.eqb (pv_id img) imageId) l = Some p →
  p ∈ l ∧ pv_id p = imageId.
Proof.
  intros Hf. apply find_some in Hf as [Hin Heq].
  split; [by apply list_elem_of_In | by apply String.eqb_eq].
Qed.

Lemma find_preview_None (imageId : string) (l : list preview) :
  find (λ img, String.eqb (pv_id img) imageId) l = None →
  filter (λ img, pv_id img ≠ imageId) l = l.
Proof.
  intros Hf. apply filter_keeps_all, Forall_forall. intros p Hp Heq.
  apply list_elem_of_In in Hp.
  pose proof (find_none _ _ Hf p Hp) as Hne. cbn in Hne.
  by apply String.eqb_neq in Hne.
Qed.

(** With distinct ids, the filter of [removeImage] takes out the preview
    that its [find] returns, and no other. *)
Lemma remove_preview_perm (imageId : string) (l : list preview) (p : preview) :
  NoDup (pv_id <$> l) →
  find (λ img, String.eqb (pv_id img) imageId) l = Some p →
  l ≡ₚ p :: filter (λ img, pv_id img ≠ imageId) l.
Proof.
  induction l as [| x l IH]; [done |].
  rewrite fmap_cons. intros Hnd Hf. apply NoDup_cons in Hnd as [Hx Hnd].
  cbn in Hf. destruct (String.eqb_spec (pv_id x) imageId) as [Heq | Hne].
  - injection Hf as <-. rewrite filter_cons_False by (by intros ?).
    rewrite filter_keeps_all; [done |].
    apply Forall_forall. intros y Hy Hyid. apply Hx.
    apply list_elem_of_fmap. exists y. split; [congruence | done].
  - rewrite filter_cons_True by done. rewrite (IH Hnd Hf) at 1. apply Permutation_swap.
Qed.

Lemma step_upload_ok (maxFiles : nat) (st : upload) (e : event) :
  upload_ok st → upload_ok (step maxFiles st e).
Proof.
  unfold upload_ok, urls_balanced. intros [Hnd Hbal].
  destruct e as [now createObjectURL files | | | imageId |]; cbn [step].
  - unfold handleFileChange. destruct (maxFiles <? length files)%nat; [done |].
    cbn [previewImages created revoked]. split.
    + apply forEach_check_ids_nodup.
    + by rewrite Hbal.
  - done.
  - done.
  - unfold removeImage. cbn [previewImages created revoked]. split.
    + eapply sublist_NoDup; [exact Hnd |]. apply fmap_sublist, sublist_filter.
    + destruct (find _ (previewImages st)) as [p |] eqn:Hfind.
      * rewrite Hbal, <- app_assoc. apply Permutation_app_head.
        rewrite (remove_preview_perm imageId _ p Hnd Hfind) at 1. done.
      * by rewrite (find_preview_None imageId _ Hfind).
  - cbn. split; [constructor |]. by rewrite app_nil_r.
Qed.

Lemma run_upload_ok (maxFiles : nat) (evs : list event) : upload_ok (run maxFiles evs).
Proof.
  unfold run. induction evs as [| e evs IH] using rev_ind.
  - split; [apply NoDup_nil_2 | unfold urls_balanced; cbn; reflexivity].
  - rewrite fold_left_app. cbn. by apply step_upload_ok.
Qed.

(** X24. Whatever is selected, removed and cleared, and in whatever
    order, the previews of ImageUpload have distinct ids, and every
    preview URL that was created is either held by one preview or has
    been revoked once: none is lost and none is revoked twice. After
    [clearAll] every URL that was created has been revoked. *)
Theorem upload_previews_never_leak (maxFiles : nat) (evs : list event) :
  NoDup (pv_id <$> previewImages (run maxFiles evs)) ∧
  urls_balanced (run maxFiles evs) ∧
  created (clearAll (run maxFiles evs)) ≡ₚ revoked (clearAll (run maxFiles evs)).
Proof.
  destruct (run_upload_ok maxFiles evs) as [Hnd Hbal].
  split_and!; [done | done |]. cbn. exact Hbal.
Qed.

(** X25. [removeImage] on a state of the component. When a preview has
    the id, it is the only one to go, and its URL is the one that is
    revoked; otherwise the previews stay and nothing is revoked. In both
    cases the errors are cleared. *)
Theorem removeImage_effect (maxFiles : nat) (evs : list event) (imageId : string) :
  errors (removeImage imageId (run maxFiles evs)) = [] ∧
  (imageId ∉ pv_id <$> previewImages (removeImage imageId (run maxFiles evs))) ∧
  match find (λ img, String.eqb (pv_id img) imageId) (previewImages (run maxFiles evs)) with
  | Some p =>
      pv_id p = imageId ∧
      previewImages (run maxFiles evs) ≡ₚ
        p :: previewImages (removeImage imageId (run maxFiles evs)) ∧
      revoked (removeImage imageId (run maxFiles evs)) =
        revoked (run maxFiles evs) ++ [pv_previewUrl p]
  | None =>
      (imageId ∉ pv_id <$> previewImages (run maxFiles evs)) ∧
      previewImages (removeImage imageId (run maxFiles evs)) =
        previewImages (run maxFiles evs) ∧
      revoked (removeImage imageId (run maxFiles evs)) = revoked (run maxFiles evs)
  end.
Proof.
  destruct (run_upload_ok maxFiles evs) as [Hnd _].
  split_and!; [done | |].
  - cbn. intros Hin. apply list_elem_of_fmap in Hin as (p & -> & Hp).
    by apply list_elem_of_filter in Hp as [Hne _].
  - unfold removeImage. cbn [previewImages revoked].
    destruct (find _ (previewImages (run maxFiles evs))) as [p |] eqn:Hfind.
    + destruct (find_preview_Some _ _ _ Hfind) as [_ Hid].
      split_and!; [done | by apply remove_preview_perm | done].
    + pose proof (find_preview_None imageId _ Hfind) as Hkeep.
      split_and!; [| done | done].
      intros Hin. apply list_elem_of_fmap in Hin as (p & -> & Hp).
      rewrite <- Hkeep in Hp. by apply list_elem_of_filter in Hp as [Hne _].
Qed.

End UploadLifecycle.


Section UploadAgainstValidateFile.
Import Api Upload Scenario.

Lemma visible_append (a b : string) :
  visible (a ++ b) = visible a || visible b.
Proof.
  induction a as [| c a IH]; [done |].
  rewrite append_cons. cbn [visible]. by rewrite IH, orb_assoc.
Qed.

Lemma visible_pop_split (sep : ascii) (s current : string) :
  visible (pop_split sep s current) = true → visible s || visible current = true.
Proof.
  revert current. induction s as [| c s IH]; intros current; cbn [pop_split visible].
  - done.
  - destruct (Ascii.eqb c sep).
    + intros H. apply IH in H. cbn [visible] in H. rewrite orb_false_r in H.
      rewrite H. by rewrite orb_true_r.
    + intros H. apply IH in H. rewrite visible_append in H. cbn [visible] in H.
      rewrite orb_false_r in H.
      destruct (visible s), (visible current), (Js.is_whitespace c); done.
Qed.

Lemma visible_trimStart (s : string) : visible (Js.trimStart s) = visible s.
Proof.
  induction s as [| c s IH]; [done |]. cbn [Js.trimStart visible].
  destruct (Js.is_whitespace c) eqn:Hws; cbn [visible negb orb]; [exact IH |].
  by rewrite Hws.
Qed.

Lemma visible_rev_app (a b : string) :
  visible (String.rev_app a b) = visible a || visible b.
Proof.
  revert b. induction a as [| c a IH]; intros b; [done |].
  cbn [String.rev_app visible]. rewrite IH. cbn [visible].
  destruct (Js.is_whitespace c), (visible a), (visible b); done.
Qed.

Lemma visible_trim (s : string) : visible (Js.trim s) = visible s.
Proof.
  unfold Js.trim, Js.trimEnd, String.rev.
  rewrite visible_rev_app, visible_trimStart, visible_rev_app, visible_trimStart.
  cbn [visible]. by rewrite !orb_false_r.
Qed.

(** An extension that is accepted starts with a letter. *)
Lemma upper_first_visible (c : ascii) (rest : string) :
  toUpperCase (String c rest) ∈ fileTypes → Js.is_whitespace c = false.
Proof.
  intros Hin. destruct (Js.is_whitespace c) eqn:Hws; [exfalso | done].
  unfold Js.is_whitespace in Hws.
  repeat match goal with
         | H : (_ || _) = true |- _ => apply orb_true_iff in H as [H | H]
         end;
    apply N.eqb_eq in Hws; apply (f_equal ascii_of_N) in Hws;
    rewrite ascii_N_embedding in Hws; subst c;
    cbn in Hin; unfold fileTypes in Hin;
    repeat (apply elem_of_cons in Hin as [Hin | Hin]; [discriminate Hin |]);
    by apply elem_of_nil in Hin.
Qed.

Lemma accepts_visible_name (f : file) : accepts f → visible (name f) = true.
Proof.
  intros [_ Hext].
  assert (visible (last_segment "." (name f)) = true) as Hseg.
  { destruct (last_segment "." (name f)) as [| c rest].
    - cbn in Hext. unfold fileTypes in Hext.
      repeat (apply elem_of_cons in Hext as [Hext | Hext]; [discriminate Hext |]).
      by apply elem_of_nil in Hext.
    - cbn [visible]. by rewrite (upper_first_visible c rest Hext). }
  apply visible_pop_split in Hseg. cbn [visible] in Hseg.
  by rewrite orb_false_r in Hseg.
Qed.

(** X26. ImageUpload against [validateFile]: a file for which ImageUpload
    makes a preview is never too large for [validateFile] and never has
    a blank name, so [validateFile] can reject it only for its MIME
    type. *)
Theorem upload_accepted_fails_only_on_type (f : file) :
  accepts f →
  Api.errors (validateFile f) =
    (if Js.includes allowedTypes (Js.toLowerCase (type f)) then []
     else [UnsupportedFileType (type f)]) ∧
  valid (validateFile f) = Js.includes allowedTypes (Js.toLowerCase (type f)).
Proof.
  intros Hacc. pose proof (accepts_visible_name f Hacc) as Hvis.
  destruct Hacc as [Hsize _].
  assert ((size f >? maxSize) = false) as Hbig by (unfold maxSize; lia).
  assert (String.eqb (name f) "" || String.eqb (Js.trim (name f)) "" = false) as Hname.
  { apply orb_false_iff. split; apply String.eqb_neq; intros Heq.
    - by rewrite Heq in Hvis.
    - rewrite <- visible_trim, Heq in Hvis. done. }
  unfold validateFile. rewrite Hbig, Hname.
  by destruct (Js.includes allowedTypes (Js.toLowerCase (type f))).
Qed.

Lemma upload_accepted_fails_only_on_type_witness :
  accepts (File "scan.PNG" "text/plain" 2048) ∧
  Api.errors (validateFile (File "scan.PNG" "text/plain" 2048)) =
    (if Js.includes allowedTypes (Js.toLowerCase "text/plain") then []
     else [UnsupportedFileType "text/plain"]).
Proof.
  assert (accepts (File "scan.PNG" "text/plain" 2048)) as Hacc.
  { split; [cbn; lia |]. vm_compute. right. right. left. }
  split; [exact Hacc |].
  exact (proj1 (upload_accepted_fails_only_on_type _ Hacc)).
Defined.

End UploadAgainstValidateFile.


(** ** ImageGallery *)

Section GalleryCards.
Import Api Batch App Gallery Scenario.
Variable avgConfidence : list (string * number) → number.
Variable sort : sort_key → list image → list image.

(** X27. An analysis that failed is shown twice. After
    [handleImageProcessingComplete] has handled a failure, the grid of
    ImageGallery holds, with the filter 'all' and whatever the order of
    sorting, one card for the image among the completed ones, with the
    error, and a second card for the same image among the error cards,
    under the key 'error-' followed by the id. With any other filter only
    the second card is left, the image having no tag. *)
Theorem failed_analysis_is_shown_twice
    (f : file) (err : string) (c : option string)
    (loadingEntries : list loading_entry) (e : loading_entry) (st : store)
    (sortBy : sort_key) :
  (∀ k l, sort k l ≡ₚ l) →
  find_entry (ImageError f err c) loadingEntries = Some e →
  let st' := handleImageProcessingComplete (ImageError f err c) loadingEntries st in
  let img := Image (le_id e) (name f) (le_previewUrl e) [] None in
  (∀ fc, render avgConfidence sort fc sortBy st' =
           Some (loading_cards st' ++ completed_cards avgConfidence sort fc sortBy st'
                 ++ error_cards st')) ∧
  (∃ c1, c1 ∈ completed_cards avgConfidence sort AllConfidence sortBy st' ∧
         card_image c1 = inr img ∧ card_error c1 = Some err) ∧
  (∃ c2, c2 ∈ error_cards st' ∧ card_image c2 = inr img ∧
         card_error c2 = Some err ∧ card_key c2 = ("error-" ++ le_id e)%string) ∧
  (∀ fc c1, fc ≠ AllConfidence →
            c1 ∈ completed_cards avgConfidence sort fc sortBy st' →
            card_image c1 ≠ inr img).
Proof.
  intros Hsort Hfind st' img.
  assert (images st' = img :: images st) as Himgs.
  { unfold st', handleImageProcessingComplete. by rewrite Hfind. }
  assert (errorImages st' !! le_id e = Some err) as Herr.
  { unfold st', handleImageProcessingComplete. rewrite Hfind. cbn.
    apply lookup_insert_eq. }
  split_and!.
  - intros fc. unfold render. by rewrite Himgs.
  - assert (img ∈ sort sortBy (images st')) as Hin.
    { rewrite (Hsort sortBy (images st')), Himgs. left. }
    apply list_elem_of_lookup in Hin as [index Hindex].
    exists (Card (Js.or_else (Some (id img)) ("image-" ++ pretty index))
                 (inr img) false (errorImages st' !! id img)).
    split_and!; [| done | exact Herr].
    unfold completed_cards, getFilteredAndSortedImages.
    apply list_elem_of_lookup. exists index.
    by rewrite list_lookup_imap, Hindex.
  - exists (Card ("error-" ++ le_id e) (inr img) false (Some err)).
    split_and!; [| done | done | done].
    unfold error_cards. apply list_elem_of_omap.
    exists (le_id e, err). split; [by apply elem_of_map_to_list |].
    rewrite Himgs. cbn. by rewrite String.eqb_refl.
  - intros fc c1 Hfc Hin Himg.
    unfold completed_cards in Hin.
    apply list_elem_of_lookup in Hin as [index Hindex].
    rewrite list_lookup_imap in Hindex.
    destruct (getFilteredAndSortedImages avgConfidence sort fc sortBy (images st') !! index)
      as [x |] eqn:Hx; [| done].
    cbn in Hindex. injection Hindex as <-. cbn in Himg. injection Himg as ->.
    apply list_elem_of_lookup_2 in Hx. unfold getFilteredAndSortedImages in Hx.
    rewrite Hsort in Hx.
    destruct fc; [done | | |]; by apply list_elem_of_filter in Hx as [Hx _].
Qed.

End GalleryCards.

Section GalleryEvaluated.
Import Api Batch App Gallery Scenario.

Lemma failed_analysis_is_shown_twice_witness :
  (∀ (k : sort_key) (l : list image), (λ _ l, l) k l ≡ₚ l) ∧
  find_entry cat_failed [cat_entry] = Some cat_entry ∧
  ∃ c2, c2 ∈ error_cards (handleImageProcessingComplete cat_failed [cat_entry] loading_cat) ∧
        card_key c2 = "error-img_1_k3x9".
Proof.
  split; [done |]. split; [reflexivity |].
  destruct (failed_analysis_is_shown_twice (λ _, QArith_base.Qmake 0 1) (λ _ l, l)
              (png "cat.png") "Server error. Please try again later." (Some "HTTP_ERROR")
              [cat_entry] cat_entry loading_cat Recent ltac:(done) eq_refl)
    as (_ & _ & (c2 & Hin & _ & _ & Hkey) & _).
  exists c2. split; [exact Hin | exact Hkey].
Defined.

End GalleryEvaluated.


Section ReportOrder.
Import Api Batch BatchMore BatchOrder Scenario ScenarioMore.
Variable cbs : callbacks.
Variable files : list file.

Lemma settle_try_returns_report (i : nat) (f : file) (r : analyze_result) (b : batch)
    (cb : item_record → cb_result) :
  returns_normally cbs → onImageComplete cbs = Some cb →
  completed_ops (calls (settle_try cbs files i f r b).1) = completed_ops (calls b) ++ [i] ∧
  reported_records (calls (settle_try cbs files i f r b).1) =
    reported_records (calls b) ++ [settled_record f r].
Proof.
  intros Hret Hcb.
  destruct (settle_try_returns cbs files i f r b Hret) as (_ & _ & ->).
  rewrite Hcb. unfold completed_ops, reported_records. rewrite !omap_app.
  destruct (onProgress cbs); cbn; by rewrite ?app_nil_r.
Qed.

Lemma settle_catch_returns_report (i : nat) (f : file) (b : batch)
    (cb : item_record → cb_result) :
  returns_normally cbs → onImageComplete cbs = Some cb →
  completed_ops (calls (settle_catch cbs i f b).1) = completed_ops (calls b) ++ [i] ∧
  reported_records (calls (settle_catch cbs i f b).1) =
    reported_records (calls b)
    ++ [ImageError f "Unexpected error during processing" None].
Proof.
  intros Hret Hcb.
  destruct (settle_catch_returns cbs i f b Hret) as (_ & _ & ->).
  rewrite Hcb. unfold completed_ops, reported_records. by rewrite !omap_app.
Qed.

(** X28. With callbacks that return, [onImageComplete] is invoked in the
    order in which the operations settle, which need not be the order of
    the files: the operations reported are the operations that settled,
    in that order, and the record of each is the one of the file at its
    position. After the summary is returned, [results] and [errors]
    together hold these records. *)
Theorem reports_follow_settlement_order
    (cb : item_record → cb_result) (evs : list event) (b : batch) :
  returns_normally cbs → onImageComplete cbs = Some cb →
  run cbs files (analyzeImages files) evs = Some b →
  completed_ops (calls b) = settled_ops evs ∧
  Forall2 (λ i r, files !! i = Some (record_file r))
          (settled_ops evs) (reported_records (calls b)) ∧
  reported_records (calls b) ≡ₚ results b ++ errors b.
Proof.
  intros Hret Hcb. revert evs b.
  apply (run_ind cbs files
           (λ evs b, completed_ops (calls b) = settled_ops evs ∧
                     Forall2 (λ i r, files !! i = Some (record_file r))
                             (settled_ops evs) (reported_records (calls b)) ∧
                     reported_records (calls b) ≡ₚ results b ++ errors b)).
  - destruct (advance_frame files
                (MkBatch 0 [] [] (make_chunks (indexed files)) [] Running []) false)
      as (_ & Hr & He & Hc).
    fold (analyzeImages files) in Hr, He, Hc. rewrite Hc, Hr, He. cbn.
    split_and!; [done | constructor | done].
  - intros evs b e b' Hrun (Hops & Hrec & Hperm) Hstep.
    unfold settled_ops in *. rewrite omap_app.
    destruct e as [i loaded total | i r | i].
    + cbn. rewrite app_nil_r.
      assert (completed_ops (calls b') = completed_ops (calls b) ∧
              reported_records (calls b') = reported_records (calls b) ∧
              results b' = results b ∧ errors b' = errors b) as (-> & -> & -> & ->).
      { cbn in Hstep. destruct (lookup_op i (inflight b)); [| done].
        destruct (onProgress cbs); injection Hstep as <-; [| done].
        cbn. unfold completed_ops, reported_records. rewrite !omap_app. cbn.
        by rewrite !app_nil_r. }
      done.
    + pose proof Hstep as Hstep'.
      apply step_settled in Hstep' as (f & Hlook & ->).
      destruct (advance_frame files
                  (set_inflight (settle_try cbs files i f r b).1 (remove_op i (inflight b)))
                  (settle_try cbs files i f r b).2) as (_ & -> & -> & ->).
      cbn [calls results errors set_inflight].
      destruct (settle_try_returns_report i f r b cb Hret Hcb) as [-> ->].
      pose proof (settle_try_returns_records cbs files i f r b Hret) as Hnew.
      assert (files !! i = Some f) as Hfile.
      { apply (indexed_elem files).
        assert (reachable cbs files b) as Hb by (by exists evs).
        pose proof (reachable_pending_indexed cbs files b Hb) as Hsub.
        eapply elem_of_sublist; [| exact Hsub].
        unfold pending_ops. apply elem_of_app. left. by apply lookup_op_elem. }
      cbn. split_and!.
      * by rewrite Hops.
      * apply Forall2_app; [done |]. constructor; [| constructor].
        by destruct r.
      * rewrite Hperm. destruct r as [d | err c det]; destruct Hnew as [-> ->]; cbn.
        -- solve_Permutation.
        -- solve_Permutation.
    + pose proof Hstep as Hstep'.
      apply step_rejected in Hstep' as (f & Hlook & ->).
      destruct (advance_frame files
                  (set_inflight (settle_catch cbs i f b).1 (remove_op i (inflight b)))
                  (settle_catch cbs i f b).2) as (_ & -> & -> & ->).
      cbn [calls results errors set_inflight].
      destruct (settle_catch_returns_report i f b cb Hret Hcb) as [-> ->].
      destruct (settle_catch_returns_records cbs i f b) as [-> ->].
      assert (files !! i = Some f) as Hfile.
      { apply (indexed_elem files).
        assert (reachable cbs files b) as Hb by (by exists evs).
        pose proof (reachable_pending_indexed cbs files b Hb) as Hsub.
        eapply elem_of_sublist; [| exact Hsub].
        unfold pending_ops. apply elem_of_app. left. by apply lookup_op_elem. }
      cbn. split_and!.
      * by rewrite Hops.
      * apply Forall2_app; [done |]. by constructor; [| constructor].
      * rewrite Hperm. solve_Permutation.
Qed.

End ReportOrder.

Section ReportOrderEvaluated.
Import Api Batch BatchMore BatchOrder Scenario ScenarioMore.

Lemma reports_follow_settlement_order_witness :
  returns_normally observers ∧
  run observers five_files (analyzeImages five_files) out_of_order = Some all_settled ∧
  completed_ops (calls all_settled) = [1; 0; 2; 4; 3]%nat.
Proof.
  assert (run observers five_files (analyzeImages five_files) out_of_order
          = Some all_settled) as Hrun by (vm_compute; reflexivity).
  split; [exact observers_return |]. split; [exact Hrun |].
  exact (proj1 (reports_follow_settlement_order observers five_files (λ _, CbReturns)
                  out_of_order all_settled observers_return eq_refl Hrun)).
Defined.

End ReportOrderEvaluated.


Section BatchThenClear.
Import Api Batch BatchMore App AppMore Scenario ScenarioMore ScenarioStore.

Lemma matched_cons {B : Type} (g : loading_entry → B)
    (es : list loading_entry) (c : call) (l : list call) :
  matched g es (c :: l) = matched g es [c] ++ matched g es l.
Proof. unfold matched. by rewrite (omap_app _ [c] l). Qed.

Lemma matched_positions {B : Type} (g : loading_entry → B) (d : B)
    (es : list loading_entry) (l : list call) :
  NoDup (entry_names es) → Forall (reports_file (le_file <$> es)) l →
  matched g es l = (λ i, default d (g <$> es !! i)) <$> completed_ops l.
Proof.
  intros Hnd Hl. induction Hl as [| c l Hc _ IH]; [done |].
  rewrite (matched_cons g es c l), IH.
  change (c :: l) with ([c] ++ l). rewrite completed_ops_app, fmap_app. f_equal.
  destruct c as [src v | i r n rs errs]; [done |]. cbn in *.
  rewrite list_lookup_fmap in Hc.
  destruct (es !! i) as [e |] eqn:He; [| done]. cbn in Hc. injection Hc as Hfile.
  rewrite (find_entry_nodup r es e Hnd); [done | by eapply list_elem_of_lookup_2 |].
  by rewrite Hfile.
Qed.

Lemma field_positions_all {B : Type} (g : loading_entry → B) (d : B)
    (es : list loading_entry) :
  (λ i, default d (g <$> es !! i)) <$> seq 0 (length es) = g <$> es.
Proof.
  apply list_eq. intros k. rewrite !list_lookup_fmap.
  destruct (decide (k < length es)%nat) as [Hlt | Hge].
  - rewrite lookup_seq_lt by done. cbn.
    destruct (lookup_lt_is_Some_2 es k Hlt) as [e He]. by rewrite He.
  - rewrite lookup_seq_ge by lia. by rewrite lookup_ge_None_2 by lia.
Qed.

Lemma report_previews (es : list loading_entry) (c : call) (st : store) :
  previewUrl <$> images (report es c st) =
    matched le_previewUrl es [c] ++ (previewUrl <$> images st).
Proof.
  destruct c as [src v | i r n rs errs]; [done |]. cbn.
  unfold handleImageProcessingComplete.
  destruct (find_entry r es) as [e |]; [| done]. by destruct r.
Qed.

(** The images that a batch adds carry the preview URLs of the selected
    entries. *)
Lemma replay_previews (es : list loading_entry) (l : list call) (st : store) :
  previewUrl <$> images (replay es l st) =
    rev (matched le_previewUrl es l) ++ (previewUrl <$> images st).
Proof.
  revert st. induction l as [| c l IH]; intros st; [done |].
  change (replay es (c :: l) st) with (replay es l (report es c st)).
  rewrite IH, report_previews, (matched_cons le_previewUrl es c l), rev_app_distr,
    <- app_assoc.
  f_equal. f_equal.
  destruct c as [src v | i r n rs errs]; [done |]. cbn.
  by destruct (find_entry r es).
Qed.

(** X29. A batch and then Clear All. When the files of the batch have
    distinct names, the callbacks return and [analyzeImages] has returned
    its summary, [handleClearAll] revokes the non-empty preview URL of
    every entry of the batch exactly once, together with those of the
    images and of the loading entries that the store held before the
    batch (the latter unless they share an id with the batch). *)
Theorem batch_then_clear_all_releases_every_preview
    (cbs : callbacks) (cb : item_record → cb_result)
    (entries : list loading_entry) (st : store) (b : batch) (ok : bool) (s : summary) :
  returns_normally cbs → onImageComplete cbs = Some cb →
  NoDup (entry_names entries) →
  reachable cbs (le_file <$> entries) b → state b = Resolved ok s →
  revoked (handleClearAll (replay entries (calls b) (addLoadingEntries entries st))) ≡ₚ
    revoked st
    ++ truthy_urls (le_previewUrl <$> entries)
    ++ truthy_urls (previewUrl <$> images st)
    ++ truthy_urls (le_previewUrl
                      <$> filter (λ x, le_id x ∉ le_id <$> entries) (loadingImages st)).
Proof.
  intros Hret Hcb Hnd Hb Hst.
  pose proof (reachable_reports cbs _ b Hb) as Hrep.
  pose proof (reachable_accounted cbs _ b cb Hret Hcb Hb) as Hacc.
  destruct (reachable_counts cbs _ b Hb) as [_ Hsum].
  destruct (Hsum ok s Hst) as (Hinf & Hch & _).
  unfold every_op_accounted, pending_ops in Hacc.
  rewrite Hinf, Hch in Hacc. cbn in Hacc. rewrite app_nil_r, length_fmap in Hacc.
  assert (matched le_previewUrl entries (calls b) ≡ₚ le_previewUrl <$> entries) as Hurls.
  { rewrite (matched_positions le_previewUrl None entries (calls b) Hnd Hrep), Hacc.
    by rewrite field_positions_all. }
  assert (matched_ids entries (calls b) ≡ₚ le_id <$> entries) as Hids.
  { rewrite (matched_ids_positions entries (calls b) Hnd Hrep), Hacc.
    by rewrite positions_all. }
  unfold handleClearAll. cbn [revoked]. rewrite !fold_revoke.
  rewrite replay_revoked, replay_previews, replay_loading. cbn [revoked images loadingImages addLoadingEntries].
  rewrite filter_app, (filter_drops_all _ entries), app_nil_r.
  - rewrite (list_filter_iff _ (λ x, le_id x ∉ le_id <$> entries))
      by (intros x; by rewrite Hids).
    unfold truthy_urls. rewrite omap_app, <- !app_assoc.
    apply Permutation_app_head. apply Permutation_app; [| done].
    rewrite <- Hurls. by rewrite <- Permutation_rev.
  - apply Forall_forall. intros x Hx Hnot. apply Hnot. rewrite Hids.
    apply list_elem_of_fmap. by exists x.
Qed.

Lemma batch_then_clear_all_releases_every_preview_witness :
  returns_normally observers ∧
  NoDup (entry_names two_entries) ∧
  reachable observers (le_file <$> two_entries) two_uploads_settled ∧
  revoked (handleClearAll (replay two_entries (calls two_uploads_settled)
                             (addLoadingEntries two_entries empty_store))) ≡ₚ
    revoked empty_store
    ++ truthy_urls (le_previewUrl <$> two_entries)
    ++ truthy_urls (previewUrl <$> images empty_store)
    ++ truthy_urls (le_previewUrl
                      <$> filter (λ x, le_id x ∉ le_id <$> two_entries)
                                 (loadingImages empty_store)).
Proof.
  assert (NoDup (entry_names two_entries)) as Hnd.
  { apply NoDup_cons. split; [| apply NoDup_singleton].
    intros Hin. apply list_elem_of_singleton in Hin. discriminate Hin. }
  assert (reachable observers (le_file <$> two_entries) two_uploads_settled) as Hr.
  { exists (side_by_side ++ [Settled 0 tagged; Settled 1 tagged]). vm_compute. reflexivity. }
  split; [exact observers_return |]. split; [exact Hnd |]. split; [exact Hr |].
  exact (batch_then_clear_all_releases_every_preview observers (λ _, CbReturns) two_entries
           empty_store two_uploads_settled true (Summary 2 2 0)
           observers_return eq_refl Hnd Hr ltac:(vm_compute; reflexivity)).
Defined.

End BatchThenClear.
